(** * Verification of the x-account-location resolver core

    A shallow embedding of the location resolver of the browser extension
    (src/content.js and src/countryFlags.js): the TTL cache, the usage
    statistics, the single-flight registry, the rate-limited request queue
    and the display mapping; with them the user-name candidates, the
    persistence of the cache in storage and the statistics view of
    src/popup.js.

    The extension runs on one JavaScript thread.  Module-level variables
    become the fields of [State]; every handler is a function on [State];
    an [async] function is split at its [await]s into the synchronous
    prefix and its continuations; promises live in an explicit store, and
    [setTimeout] calls are recorded in the state until they fire. *)

From stdpp Require Import gmap strings list fin_maps fin_sets.
From Stdlib Require Import ZArith Lia Ascii.

Open Scope string_scope.
Open Scope Z_scope.

(** ** Configuration constants (content.js, lines 1-29) *)

Definition CACHE_EXPIRY_DAYS : Z := 30.
Definition NULL_CACHE_EXPIRY_DAYS : Z := 1.
Definition CACHE_SAVE_INTERVAL : Z := 5000.
Definition MIN_REQUEST_INTERVAL : Z := 3500.
Definition MAX_CONCURRENT_REQUESTS : Z := 1.
Definition MAX_QUEUE_SIZE : nat := 50.
Definition BASE_BACKOFF_MINUTES : Z := 5.
Definition REQUEST_TIMEOUT : Z := 10000.

(** ** JavaScript truthiness of the values the code tests *)

(** [!location] for a value that is [null] or a string: [null] and the
    empty string are falsy. *)
Definition truthy (location : option string) : bool :=
  match location with
  | None => false
  | Some s => negb (String.eqb s "")
  end.

(** [location || null]. *)
Definition orNull (location : option string) : option string :=
  if truthy location then location else None.

(** ** countryFlags.js *)

Module CountryFlags.

(** A value read from a plain object with [obj[key]]: an own property (a
    flag string), or a member inherited from [Object.prototype]. *)
Inductive JsVal :=
  | JsStr (s : string)
  | JsInherited (prop : string).

Definition COUNTRY_FLAGS : list (string * string) :=
  [
    ("Afghanistan", "🇦🇫");
    ("Albania", "🇦🇱");
    ("Algeria", "🇩🇿");
    ("Argentina", "🇦🇷");
    ("Australia", "🇦🇺");
    ("Austria", "🇦🇹");
    ("Bangladesh", "🇧🇩");
    ("Belgium", "🇧🇪");
    ("Brazil", "🇧🇷");
    ("Canada", "🇨🇦");
    ("Chile", "🇨🇱");
    ("China", "🇨🇳");
    ("Colombia", "🇨🇴");
    ("Czech Republic", "🇨🇿");
    ("Denmark", "🇩🇰");
    ("Egypt", "🇪🇬");
    ("Europe", "🇪🇺");
    ("Finland", "🇫🇮");
    ("France", "🇫🇷");
    ("Germany", "🇩🇪");
    ("Greece", "🇬🇷");
    ("Guatemala", "🇬🇹");
    ("Honduras", "🇭🇳");
    ("Hong Kong", "🇭🇰");
    ("Hungary", "🇭🇺");
    ("Iceland", "🇮🇸");
    ("India", "🇮🇳");
    ("Indonesia", "🇮🇩");
    ("Iran", "🇮🇷");
    ("Iraq", "🇮🇶");
    ("Ireland", "🇮🇪");
    ("Israel", "🇮🇱");
    ("Italy", "🇮🇹");
    ("Jamaica", "🇯🇲");
    ("Japan", "🇯🇵");
    ("Jordan", "🇯🇴");
    ("Kenya", "🇰🇪");
    ("Malaysia", "🇲🇾");
    ("Morocco", "🇲🇦");
    ("Mexico", "🇲🇽");
    ("Netherlands", "🇳🇱");
    ("New Zealand", "🇳🇿");
    ("Nigeria", "🇳🇬");
    ("Norway", "🇳🇴");
    ("Pakistan", "🇵🇰");
    ("Panama", "🇵🇦");
    ("Peru", "🇵🇪");
    ("Philippines", "🇵🇭");
    ("Poland", "🇵🇱");
    ("Portugal", "🇵🇹");
    ("Romania", "🇷🇴");
    ("Russia", "🇷🇺");
    ("Saudi Arabia", "🇸🇦");
    ("Singapore", "🇸🇬");
    ("South Africa", "🇿🇦");
    ("Korea", "🇰🇷");
    ("South Korea", "🇰🇷");
    ("Spain", "🇪🇸");
    ("Sri Lanka", "🇱🇰");
    ("Sweden", "🇸🇪");
    ("Switzerland", "🇨🇭");
    ("Taiwan", "🇹🇼");
    ("Thailand", "🇹🇭");
    ("Trinidad and Tobago", "🇹🇹");
    ("Turkey", "🇹🇷");
    ("Ukraine", "🇺🇦");
    ("United Arab Emirates", "🇦🇪");
    ("United Kingdom", "🇬🇧");
    ("United States", "🇺🇸");
    ("Uruguay", "🇺🇾");
    ("Venezuela", "🇻🇪");
    ("Vietnam", "🇻🇳")
  ].

Definition lowerChar (c : ascii) : ascii :=
  let n := nat_of_ascii c in
  if (65 <=? n)%nat && (n <=? 90)%nat then ascii_of_nat (n + 32) else c.

(** [String.prototype.toLowerCase], modelled for ASCII text: the letters
    A-Z are lowered and every other byte is kept. *)
Fixpoint toLowerCase (s : string) : string :=
  match s with
  | EmptyString => EmptyString
  | String c r => String (lowerChar c) (toLowerCase r)
  end.

Definition isWhite (c : ascii) : bool :=
  let n := nat_of_ascii c in
  (n =? 32)%nat || ((9 <=? n)%nat && (n <=? 13)%nat).

Fixpoint trimStart (s : string) : string :=
  match s with
  | EmptyString => EmptyString
  | String c r => if isWhite c then trimStart r else s
  end.

Fixpoint trimEnd (s : string) : string :=
  match s with
  | EmptyString => EmptyString
  | String c r =>
      match trimEnd r with
      | EmptyString => if isWhite c then EmptyString else String c EmptyString
      | r' => String c r'
      end
  end.

(** [String.prototype.trim], modelled for ASCII white space (space, tab,
    line feed, vertical tab, form feed, carriage return). *)
Definition trim (s : string) : string := trimEnd (trimStart s).

(** The loop that fills [COUNTRY_FLAGS_LOWER] (lines 77-80). *)
Definition COUNTRY_FLAGS_LOWER : gmap string string :=
  fold_left (fun m '(country, flag) => <[toLowerCase country := flag]> m)
            COUNTRY_FLAGS ∅.

(** The lower-case names that a plain object inherits from
    [Object.prototype]; a lookup of one of them yields a truthy object. *)
Definition inheritedProps : list string := ["constructor"; "__proto__"].

(** [COUNTRY_FLAGS_LOWER[normalized]]. *)
Definition lookupLower (normalized : string) : option JsVal :=
  match COUNTRY_FLAGS_LOWER !! normalized with
  | Some flag => Some (JsStr flag)
  | None =>
      if bool_decide (normalized ∈ inheritedProps)
      then Some (JsInherited normalized) else None
  end.

(** [getCountryFlag] (lines 82-87). *)
Definition getCountryFlag (countryName : option string) : option JsVal :=
  match countryName with
  | None => None
  | Some name =>
      if negb (truthy countryName) then None
      else lookupLower (toLowerCase (trim name))
  end.

End CountryFlags.
Import CountryFlags.

(** ** createLocationInfo (content.js, lines 466-477) *)

Record LocationInfo := {
  location : option string;
  flag : option JsVal;
  displayText : option JsVal
}.

Definition nullInfo : LocationInfo :=
  {| location := None; flag := None; displayText := None |}.

Definition createLocationInfo (loc : option string) : LocationInfo :=
  match loc with
  | None => nullInfo
  | Some s =>
      if negb (truthy loc) then nullInfo
      else
        let f := getCountryFlag loc in
        {| location := loc;
           flag := f;
           displayText :=
             match f with
             | Some v => Some v
             | None => Some (JsStr ("(" ++ s ++ ")")%string)
             end |}
  end.

(** ** calculateExpiry (content.js, lines 145-148) *)

Definition calculateExpiry (loc : option string) (now : Z) : Z :=
  let days := match loc with
              | None => NULL_CACHE_EXPIRY_DAYS
              | Some _ => CACHE_EXPIRY_DAYS
              end in
  now + days * 24 * 60 * 60 * 1000.

(** ** Data model *)

(** The state of a promise. *)
Inductive Settle :=
  | Pending
  | Resolved (value : option string)
  | Rejected (err : string).

(** A value of [locationCache]; entries read back by [loadCache] carry no
    [cachedAt]. *)
Record CacheEntry := {
  entry_location : option string;
  entry_expiry : Z;
  entry_cachedAt : option Z
}.

(** An element of [requestQueue].  The [resolve] and [reject] closures built
    by [getLocation] are determined by the screen name and the promise they
    close over. *)
Record QueuedTask := {
  screenName : string;
  promise : nat
}.

(** A scheduled [setTimeout] callback. *)
Inductive Timer :=
  | TProcessQueue (delay : Z)
  | TWake (delay : Z)
  | TRequestTimeout (delay : Z) (requestId : nat) (name : string)
  | TSaveCache (delay : Z).

(** Where the one running [processRequestQueue] call is suspended: not at
    all, in the pacing sleep (line 390), or awaiting the request made for
    [task] (line 399). *)
Inductive DrainCont :=
  | Idle
  | Sleeping
  | Awaiting (task : QueuedTask) (requestId : nat).

Record State := {
  locationCache : gmap string CacheEntry;  (* Map<username, {location, expiry}> *)
  requestQueue : list QueuedTask;  (* pending tasks, head first *)
  isProcessingQueue : bool;
  lastRequestTime : Z;
  activeRequests : Z;
  rateLimitResetTime : Z;  (* Unix seconds; 0 = none *)
  consecutiveRateLimits : nat;
  pendingLocationRequests : gmap string nat;  (* Map<username, Promise> *)
  locationStats : gmap string (gset string);  (* Map<location, Set<username>> *)
  saveCacheTimeout : bool;  (* saveCache.timeout is set *)
  locationPromises : gmap nat Settle;  (* promises created by getLocation *)
  requestPromises : gmap nat Settle;  (* promises created by makeLocationRequest *)
  messageHandlers : gmap nat string;  (* message listeners: requestId -> screenName *)
  timers : list Timer;  (* setTimeout calls that have not fired *)
  posted : list (string * nat);  (* __fetchLocation messages sent, latest first *)
  drain : DrainCont;  (* the suspended processRequestQueue call *)
  nextId : nat  (* next fresh promise / request id *)
}.

(** Field updates. *)

Definition with_locationCache (v : gmap string CacheEntry) (st : State) : State :=
  {| locationCache := v; requestQueue := requestQueue st;
     isProcessingQueue := isProcessingQueue st;
     lastRequestTime := lastRequestTime st;
     activeRequests := activeRequests st;
     rateLimitResetTime := rateLimitResetTime st;
     consecutiveRateLimits := consecutiveRateLimits st;
     pendingLocationRequests := pendingLocationRequests st;
     locationStats := locationStats st;
     saveCacheTimeout := saveCacheTimeout st;
     locationPromises := locationPromises st;
     requestPromises := requestPromises st;
     messageHandlers := messageHandlers st; timers := timers st;
     posted := posted st; drain := drain st; nextId := nextId st |}.

Definition with_requestQueue (v : list QueuedTask) (st : State) : State :=
  {| locationCache := locationCache st; requestQueue := v;
     isProcessingQueue := isProcessingQueue st;
     lastRequestTime := lastRequestTime st;
     activeRequests := activeRequests st;
     rateLimitResetTime := rateLimitResetTime st;
     consecutiveRateLimits := consecutiveRateLimits st;
     pendingLocationRequests := pendingLocationRequests st;
     locationStats := locationStats st;
     saveCacheTimeout := saveCacheTimeout st;
     locationPromises := locationPromises st;
     requestPromises := requestPromises st;
     messageHandlers := messageHandlers st; timers := timers st;
     posted := posted st; drain := drain st; nextId := nextId st |}.

Definition with_isProcessingQueue (v : bool) (st : State) : State :=
  {| locationCache := locationCache st; requestQueue := requestQueue st;
     isProcessingQueue := v; lastRequestTime := lastRequestTime st;
     activeRequests := activeRequests st;
     rateLimitResetTime := rateLimitResetTime st;
     consecutiveRateLimits := consecutiveRateLimits st;
     pendingLocationRequests := pendingLocationRequests st;
     locationStats := locationStats st;
     saveCacheTimeout := saveCacheTimeout st;
     locationPromises := locationPromises st;
     requestPromises := requestPromises st;
     messageHandlers := messageHandlers st; timers := timers st;
     posted := posted st; drain := drain st; nextId := nextId st |}.

Definition with_lastRequestTime (v : Z) (st : State) : State :=
  {| locationCache := locationCache st; requestQueue := requestQueue st;
     isProcessingQueue := isProcessingQueue st; lastRequestTime := v;
     activeRequests := activeRequests st;
     rateLimitResetTime := rateLimitResetTime st;
     consecutiveRateLimits := consecutiveRateLimits st;
     pendingLocationRequests := pendingLocationRequests st;
     locationStats := locationStats st;
     saveCacheTimeout := saveCacheTimeout st;
     locationPromises := locationPromises st;
     requestPromises := requestPromises st;
     messageHandlers := messageHandlers st; timers := timers st;
     posted := posted st; drain := drain st; nextId := nextId st |}.

Definition with_activeRequests (v : Z) (st : State) : State :=
  {| locationCache := locationCache st; requestQueue := requestQueue st;
     isProcessingQueue := isProcessingQueue st;
     lastRequestTime := lastRequestTime st; activeRequests := v;
     rateLimitResetTime := rateLimitResetTime st;
     consecutiveRateLimits := consecutiveRateLimits st;
     pendingLocationRequests := pendingLocationRequests st;
     locationStats := locationStats st;
     saveCacheTimeout := saveCacheTimeout st;
     locationPromises := locationPromises st;
     requestPromises := requestPromises st;
     messageHandlers := messageHandlers st; timers := timers st;
     posted := posted st; drain := drain st; nextId := nextId st |}.

Definition with_rateLimitResetTime (v : Z) (st : State) : State :=
  {| locationCache := locationCache st; requestQueue := requestQueue st;
     isProcessingQueue := isProcessingQueue st;
     lastRequestTime := lastRequestTime st;
     activeRequests := activeRequests st; rateLimitResetTime := v;
     consecutiveRateLimits := consecutiveRateLimits st;
     pendingLocationRequests := pendingLocationRequests st;
     locationStats := locationStats st;
     saveCacheTimeout := saveCacheTimeout st;
     locationPromises := locationPromises st;
     requestPromises := requestPromises st;
     messageHandlers := messageHandlers st; timers := timers st;
     posted := posted st; drain := drain st; nextId := nextId st |}.

Definition with_consecutiveRateLimits (v : nat) (st : State) : State :=
  {| locationCache := locationCache st; requestQueue := requestQueue st;
     isProcessingQueue := isProcessingQueue st;
     lastRequestTime := lastRequestTime st;
     activeRequests := activeRequests st;
     rateLimitResetTime := rateLimitResetTime st; consecutiveRateLimits := v;
     pendingLocationRequests := pendingLocationRequests st;
     locationStats := locationStats st;
     saveCacheTimeout := saveCacheTimeout st;
     locationPromises := locationPromises st;
     requestPromises := requestPromises st;
     messageHandlers := messageHandlers st; timers := timers st;
     posted := posted st; drain := drain st; nextId := nextId st |}.

Definition with_pendingLocationRequests (v : gmap string nat) (st : State) : State :=
  {| locationCache := locationCache st; requestQueue := requestQueue st;
     isProcessingQueue := isProcessingQueue st;
     lastRequestTime := lastRequestTime st;
     activeRequests := activeRequests st;
     rateLimitResetTime := rateLimitResetTime st;
     consecutiveRateLimits := consecutiveRateLimits st;
     pendingLocationRequests := v; locationStats := locationStats st;
     saveCacheTimeout := saveCacheTimeout st;
     locationPromises := locationPromises st;
     requestPromises := requestPromises st;
     messageHandlers := messageHandlers st; timers := timers st;
     posted := posted st; drain := drain st; nextId := nextId st |}.

Definition with_locationStats (v : gmap string (gset string)) (st : State) : State :=
  {| locationCache := locationCache st; requestQueue := requestQueue st;
     isProcessingQueue := isProcessingQueue st;
     lastRequestTime := lastRequestTime st;
     activeRequests := activeRequests st;
     rateLimitResetTime := rateLimitResetTime st;
     consecutiveRateLimits := consecutiveRateLimits st;
     pendingLocationRequests := pendingLocationRequests st;
     locationStats := v; saveCacheTimeout := saveCacheTimeout st;
     locationPromises := locationPromises st;
     requestPromises := requestPromises st;
     messageHandlers := messageHandlers st; timers := timers st;
     posted := posted st; drain := drain st; nextId := nextId st |}.

Definition with_saveCacheTimeout (v : bool) (st : State) : State :=
  {| locationCache := locationCache st; requestQueue := requestQueue st;
     isProcessingQueue := isProcessingQueue st;
     lastRequestTime := lastRequestTime st;
     activeRequests := activeRequests st;
     rateLimitResetTime := rateLimitResetTime st;
     consecutiveRateLimits := consecutiveRateLimits st;
     pendingLocationRequests := pendingLocationRequests st;
     locationStats := locationStats st; saveCacheTimeout := v;
     locationPromises := locationPromises st;
     requestPromises := requestPromises st;
     messageHandlers := messageHandlers st; timers := timers st;
     posted := posted st; drain := drain st; nextId := nextId st |}.

Definition with_locationPromises (v : gmap nat Settle) (st : State) : State :=
  {| locationCache := locationCache st; requestQueue := requestQueue st;
     isProcessingQueue := isProcessingQueue st;
     lastRequestTime := lastRequestTime st;
     activeRequests := activeRequests st;
     rateLimitResetTime := rateLimitResetTime st;
     consecutiveRateLimits := consecutiveRateLimits st;
     pendingLocationRequests := pendingLocationRequests st;
     locationStats := locationStats st;
     saveCacheTimeout := saveCacheTimeout st; locationPromises := v;
     requestPromises := requestPromises st;
     messageHandlers := messageHandlers st; timers := timers st;
     posted := posted st; drain := drain st; nextId := nextId st |}.

Definition with_requestPromises (v : gmap nat Settle) (st : State) : State :=
  {| locationCache := locationCache st; requestQueue := requestQueue st;
     isProcessingQueue := isProcessingQueue st;
     lastRequestTime := lastRequestTime st;
     activeRequests := activeRequests st;
     rateLimitResetTime := rateLimitResetTime st;
     consecutiveRateLimits := consecutiveRateLimits st;
     pendingLocationRequests := pendingLocationRequests st;
     locationStats := locationStats st;
     saveCacheTimeout := saveCacheTimeout st;
     locationPromises := locationPromises st; requestPromises := v;
     messageHandlers := messageHandlers st; timers := timers st;
     posted := posted st; drain := drain st; nextId := nextId st |}.

Definition with_messageHandlers (v : gmap nat string) (st : State) : State :=
  {| locationCache := locationCache st; requestQueue := requestQueue st;
     isProcessingQueue := isProcessingQueue st;
     lastRequestTime := lastRequestTime st;
     activeRequests := activeRequests st;
     rateLimitResetTime := rateLimitResetTime st;
     consecutiveRateLimits := consecutiveRateLimits st;
     pendingLocationRequests := pendingLocationRequests st;
     locationStats := locationStats st;
     saveCacheTimeout := saveCacheTimeout st;
     locationPromises := locationPromises st;
     requestPromises := requestPromises st; messageHandlers := v;
     timers := timers st; posted := posted st; drain := drain st;
     nextId := nextId st |}.

Definition with_timers (v : list Timer) (st : State) : State :=
  {| locationCache := locationCache st; requestQueue := requestQueue st;
     isProcessingQueue := isProcessingQueue st;
     lastRequestTime := lastRequestTime st;
     activeRequests := activeRequests st;
     rateLimitResetTime := rateLimitResetTime st;
     consecutiveRateLimits := consecutiveRateLimits st;
     pendingLocationRequests := pendingLocationRequests st;
     locationStats := locationStats st;
     saveCacheTimeout := saveCacheTimeout st;
     locationPromises := locationPromises st;
     requestPromises := requestPromises st;
     messageHandlers := messageHandlers st; timers := v; posted := posted st;
     drain := drain st; nextId := nextId st |}.

Definition with_posted (v : list (string * nat)) (st : State) : State :=
  {| locationCache := locationCache st; requestQueue := requestQueue st;
     isProcessingQueue := isProcessingQueue st;
     lastRequestTime := lastRequestTime st;
     activeRequests := activeRequests st;
     rateLimitResetTime := rateLimitResetTime st;
     consecutiveRateLimits := consecutiveRateLimits st;
     pendingLocationRequests := pendingLocationRequests st;
     locationStats := locationStats st;
     saveCacheTimeout := saveCacheTimeout st;
     locationPromises := locationPromises st;
     requestPromises := requestPromises st;
     messageHandlers := messageHandlers st; timers := timers st; posted := v;
     drain := drain st; nextId := nextId st |}.

Definition with_drain (v : DrainCont) (st : State) : State :=
  {| locationCache := locationCache st; requestQueue := requestQueue st;
     isProcessingQueue := isProcessingQueue st;
     lastRequestTime := lastRequestTime st;
     activeRequests := activeRequests st;
     rateLimitResetTime := rateLimitResetTime st;
     consecutiveRateLimits := consecutiveRateLimits st;
     pendingLocationRequests := pendingLocationRequests st;
     locationStats := locationStats st;
     saveCacheTimeout := saveCacheTimeout st;
     locationPromises := locationPromises st;
     requestPromises := requestPromises st;
     messageHandlers := messageHandlers st; timers := timers st;
     posted := posted st; drain := v; nextId := nextId st |}.

Definition with_nextId (v : nat) (st : State) : State :=
  {| locationCache := locationCache st; requestQueue := requestQueue st;
     isProcessingQueue := isProcessingQueue st;
     lastRequestTime := lastRequestTime st;
     activeRequests := activeRequests st;
     rateLimitResetTime := rateLimitResetTime st;
     consecutiveRateLimits := consecutiveRateLimits st;
     pendingLocationRequests := pendingLocationRequests st;
     locationStats := locationStats st;
     saveCacheTimeout := saveCacheTimeout st;
     locationPromises := locationPromises st;
     requestPromises := requestPromises st;
     messageHandlers := messageHandlers st; timers := timers st;
     posted := posted st; drain := drain st; nextId := v |}.

Definition initialState : State :=
  {| locationCache := ∅; requestQueue := []; isProcessingQueue := false;
     lastRequestTime := 0; activeRequests := 0; rateLimitResetTime := 0;
     consecutiveRateLimits := 0%nat; pendingLocationRequests := ∅;
     locationStats := ∅; saveCacheTimeout := false; locationPromises := ∅;
     requestPromises := ∅; messageHandlers := ∅; timers := []; posted := [];
     drain := Idle; nextId := 0%nat |}.

(** ** Promises *)

(** Calling the [resolve] function of promise [p]: only a pending promise
    changes. *)
Definition resolveIn (p : nat) (v : option string) (ps : gmap nat Settle)
  : gmap nat Settle :=
  match ps !! p with
  | Some Pending => <[p := Resolved v]> ps
  | _ => ps
  end.

(** Calling the [reject] function of promise [p]. *)
Definition rejectIn (p : nat) (err : string) (ps : gmap nat Settle)
  : gmap nat Settle :=
  match ps !! p with
  | Some Pending => <[p := Rejected err]> ps
  | _ => ps
  end.

(** ** Statistics and cache writes *)

(** [updateStats] (lines 264-279). *)
Definition updateStats (username loc : string) (st : State) : State :=
  if negb (truthy (Some loc)) then st
  else
    let stats1 := match locationStats st !! loc with
                  | None => <[loc := ∅]> (locationStats st)
                  | Some _ => locationStats st
                  end in
    let usernames := default ∅ (stats1 !! loc) in
    if bool_decide (username ∈ usernames) then with_locationStats stats1 st
    else with_locationStats (<[loc := usernames ∪ {[username]}]> stats1) st.

(** [saveCacheEntry] (lines 281-306); [ctx] is the answer of
    [isExtensionContextValid()], [now] the value of [Date.now()]. *)
Definition saveCacheEntry (ctx : bool) (now : Z) (username : string)
    (loc : option string) (st : State) : State :=
  if negb ctx then st
  else
    let st1 :=
      with_locationCache
        (<[username := {| entry_location := loc;
                          entry_expiry := calculateExpiry loc now;
                          entry_cachedAt := Some now |}]> (locationCache st))
        st in
    let st2 := match loc with
               | Some l => updateStats username l st1
               | None => st1
               end in
    if saveCacheTimeout st2 then st2
    else with_saveCacheTimeout true
           (with_timers (timers st2 ++ [TSaveCache CACHE_SAVE_INTERVAL]) st2).

(** A record of the persisted cache object read by [loadCache]; a missing
    [expiry] is falsy like 0. *)
Record PersistedEntry := {
  data_location : option string;
  data_expiry : Z
}.

(** One iteration of the loop of [loadCache] (lines 109-124). *)
Definition loadEntry (now : Z) (st : State) (kv : string * PersistedEntry)
  : State :=
  let '(username, data) := kv in
  if negb (data_expiry data =? 0) && (now <? data_expiry data) then
    let st1 :=
      with_locationCache
        (<[username := {| entry_location := data_location data;
                          entry_expiry := data_expiry data;
                          entry_cachedAt := None |}]> (locationCache st))
        st in
    match data_location data with
    | Some l =>
        let stats1 := match locationStats st1 !! l with
                      | None => <[l := ∅]> (locationStats st1)
                      | Some _ => locationStats st1
                      end in
        with_locationStats
          (<[l := default ∅ (stats1 !! l) ∪ {[username]}]> stats1) st1
    | None => st1
    end
  else st.

(** [loadCache] (lines 95-139) on the entries of the stored object, in the
    order of [Object.entries]; nothing is stored under the key when
    [cached] is [None]. *)
Definition loadCache (ctx : bool) (now : Z)
    (cached : option (list (string * PersistedEntry))) (st : State) : State :=
  if negb ctx then st
  else match cached with
       | Some entries => fold_left (loadEntry now) entries st
       | None => st
       end.

(** ** Rate-limit state *)

(** The [__rateLimitInfo] message listener (lines 318-334). *)
Definition onRateLimitInfo (now : Z) (resetTime : Z) (st : State) : State :=
  let count := S (consecutiveRateLimits st) in
  let baseWaitMinutes := BASE_BACKOFF_MINUTES * 2 ^ (Z.of_nat count - 1) in
  let exponentialWaitSeconds := baseWaitMinutes * 60 in
  let apiResetTime := resetTime in
  let exponentialResetTime := now / 1000 + exponentialWaitSeconds in
  with_rateLimitResetTime (Z.max apiResetTime exponentialResetTime)
    (with_consecutiveRateLimits count st).

(** [isRateLimited] (lines 337-341). *)
Definition isRateLimited (now : Z) (st : State) : bool :=
  if rateLimitResetTime st =? 0 then false
  else now / 1000 <? rateLimitResetTime st.

(** [resetRateLimit] (lines 343-349). *)
Definition resetRateLimit (st : State) : State :=
  with_consecutiveRateLimits 0%nat (with_rateLimitResetTime 0 st).

(** ** The request queue *)

(** The [resolve] closure of a queued task (lines 530-533). *)
Definition taskResolve (t : QueuedTask) (loc : option string) (st : State)
  : State :=
  with_locationPromises (resolveIn (promise t) loc (locationPromises st))
    (with_pendingLocationRequests
       (delete (screenName t) (pendingLocationRequests st)) st).

(** The [reject] closure of a queued task (lines 534-537). *)
Definition taskReject (t : QueuedTask) (err : string) (st : State) : State :=
  with_locationPromises (rejectIn (promise t) err (locationPromises st))
    (with_pendingLocationRequests
       (delete (screenName t) (pendingLocationRequests st)) st).

(** The executor of [makeLocationRequest] (lines 418-463): a fresh request
    id (in the source [Date.now() + Math.random()]) that also names the
    promise, the message listener, the posted [__fetchLocation] message and
    the timeout timer.  Returns the id. *)
Definition makeLocationRequest (name : string) (st : State) : State * nat :=
  let requestId := nextId st in
  (with_nextId (S requestId)
     (with_timers
        (timers st ++ [TRequestTimeout REQUEST_TIMEOUT requestId name])
        (with_posted ((name, requestId) :: posted st)
           (with_messageHandlers (<[requestId := name]> (messageHandlers st))
              (with_requestPromises
                 (<[requestId := Pending]> (requestPromises st)) st)))),
   requestId).

(** Lines 393-399 up to the [await]: take the head task and send its
    request.  On an empty queue the destructuring of [undefined] throws and
    the call ends, leaving [isProcessingQueue] as it is. *)
Definition dispatchHead (now : Z) (st : State) : State :=
  match requestQueue st with
  | [] => with_drain Idle st
  | t :: rest =>
      let st1 := with_lastRequestTime now
                   (with_activeRequests (activeRequests st + 1)
                      (with_requestQueue rest st)) in
      let '(st2, requestId) := makeLocationRequest (screenName t) st1 in
      with_drain (Awaiting t requestId) st2
  end.

(** The head of the [while] loop (lines 384-391) and its exit (line 414):
    runs until the call suspends or returns. *)
Definition drainLoop (now : Z) (st : State) : State :=
  if negb (length (requestQueue st) =? 0)%nat
     && (activeRequests st <? MAX_CONCURRENT_REQUESTS)
  then
    let timeSinceLastRequest := now - lastRequestTime st in
    if timeSinceLastRequest <? MIN_REQUEST_INTERVAL then
      with_drain Sleeping
        (with_timers
           (timers st ++ [TWake (MIN_REQUEST_INTERVAL - timeSinceLastRequest)])
           st)
    else dispatchHead now st
  else with_drain Idle (with_isProcessingQueue false st).

(** The [finally] block (lines 408-411) and the next loop test. *)
Definition drainFinally (now : Z) (st : State) : State :=
  drainLoop now
    (with_timers (timers st ++ [TProcessQueue 200])
       (with_activeRequests (activeRequests st - 1) st)).

(** The continuation of [await makeLocationRequest(screenName)] (lines
    399-411), run as a microtask once the awaited promise has settled. *)
Definition resumeDrain (now : Z) (st : State) : State :=
  match drain st with
  | Awaiting t requestId =>
      match requestPromises st !! requestId with
      | Some (Resolved loc) =>
          let st1 := if (0 <? consecutiveRateLimits st)%nat
                     then with_consecutiveRateLimits 0%nat st else st in
          drainFinally now (taskResolve t loc st1)
      | Some (Rejected err) => drainFinally now (taskReject t err st)
      | _ => st
      end
  | _ => st
  end.

(** The loop that rejects the pending requests (lines 365-367). *)
Definition rejectQueued (st : State) : State :=
  with_requestQueue []
    (fold_left (fun s t => taskReject t "Rate limited" s) (requestQueue st) st).

(** [processRequestQueue] (lines 351-415) up to its first suspension. *)
Definition processRequestQueue (now : Z) (st : State) : State :=
  if isProcessingQueue st || (length (requestQueue st) =? 0)%nat then st
  else if isRateLimited now st then
    let now_s := now / 1000 in
    let waitTime := (rateLimitResetTime st - now_s) * 1000 in
    let st1 := rejectQueued st in
    with_timers (timers st1 ++ [TProcessQueue (Z.min waitTime 60000)]) st1
  else
    let st1 := if 0 <? rateLimitResetTime st then resetRateLimit st else st in
    drainLoop now (with_isProcessingQueue true st1).

(** ** getLocation (lines 479-545) *)

(** How a call of [getLocation] leaves its synchronous part: it has
    returned, or it is suspended on promise [p], either as the caller that
    created the request (line 543) or as one that found it pending (line
    502). *)
Inductive GetResult :=
  | Returned (info : LocationInfo)
  | AwaitOwner (p : nat)
  | AwaitWaiter (p : nat).

(** The test [cached.expiry && cached.expiry > now]. *)
Definition isFresh (now : Z) (cached : CacheEntry) : bool :=
  negb (entry_expiry cached =? 0) && (now <? entry_expiry cached).

(** The cache check (lines 482-497): the cached location on a hit; an
    expired entry is deleted. *)
Definition cacheCheck (now : Z) (name : string) (st : State)
  : State * option (option string) :=
  match locationCache st !! name with
  | Some cached =>
      if isFresh now cached then (st, Some (entry_location cached))
      else (with_locationCache (delete name (locationCache st)) st, None)
  | None => (st, None)
  end.

(** The executor of [locationPromise] and its registration (lines
    527-542). *)
Definition enqueueRequest (now : Z) (name : string) (st : State)
  : State * nat :=
  let p := nextId st in
  let st1 := with_nextId (S p)
               (with_locationPromises (<[p := Pending]> (locationPromises st))
                  st) in
  let st2 := with_requestQueue
               (requestQueue st1 ++ [{| screenName := name; promise := p |}])
               st1 in
  let st3 := processRequestQueue now st2 in
  (with_pendingLocationRequests (<[name := p]> (pendingLocationRequests st3))
     st3, p).

Definition getLocation (now : Z) (name : string) (st : State)
  : State * GetResult :=
  match cacheCheck now name st with
  | (st1, Some loc) => (st1, Returned (createLocationInfo loc))
  | (st1, None) =>
      match pendingLocationRequests st1 !! name with
      | Some p => (st1, AwaitWaiter p)
      | None =>
          if (MAX_QUEUE_SIZE <=? length (requestQueue st1))%nat
          then (st1, Returned nullInfo)
          else let '(st2, p) := enqueueRequest now name st1 in
               (st2, AwaitOwner p)
      end
  end.

(** What a suspended call finally does. *)
Inductive Outcome :=
  | Fulfilled (info : LocationInfo)
  | Threw (err : string)
  | Waiting.

(** Line 544, after [await locationPromise]. *)
Definition resumeOwner (p : nat) (st : State) : Outcome :=
  match locationPromises st !! p with
  | Some (Resolved loc) => Fulfilled (createLocationInfo loc)
  | Some (Rejected err) => Threw err
  | _ => Waiting
  end.

(** Lines 504-515, after [await pendingLocationRequests.get(screenName)]. *)
Definition resumeWaiter (now : Z) (name : string) (p : nat) (st : State)
  : Outcome :=
  match locationPromises st !! p with
  | Some (Resolved loc) =>
      match locationCache st !! name with
      | Some cached =>
          if isFresh now cached
          then Fulfilled (createLocationInfo (entry_location cached))
          else Fulfilled (createLocationInfo loc)
      | None => Fulfilled (createLocationInfo loc)
      end
  | Some (Rejected err) => Threw err
  | _ => Waiting
  end.

(** ** Message and timer handlers *)

(** The [__locationResponse] listener of request [requestId] (lines
    423-444), followed by the microtask it enables. *)
Definition onLocationResponse (ctx : bool) (now : Z) (name : string)
    (requestId : nat) (loc : option string) (limited : bool) (st : State)
  : State :=
  match messageHandlers st !! requestId with
  | Some name' =>
      if String.eqb name' name then
        let st1 := with_messageHandlers
                     (delete requestId (messageHandlers st)) st in
        let st2 := if negb limited
                   then saveCacheEntry ctx now name (orNull loc) st1
                   else st1 in
        resumeDrain now
          (with_requestPromises
             (resolveIn requestId (orNull loc) (requestPromises st2)) st2)
      else st
  | None => st
  end.

(** The timeout callback of request [requestId] (lines 455-462), followed
    by the microtask it enables. *)
Definition onRequestTimeout (now : Z) (requestId : nat) (name : string)
    (st : State) : State :=
  let st1 := with_messageHandlers (delete requestId (messageHandlers st)) st in
  let st2 := with_pendingLocationRequests
               (delete name (pendingLocationRequests st1)) st1 in
  resumeDrain now
    (with_requestPromises (resolveIn requestId None (requestPromises st2)) st2).

(** The expiry of the pacing sleep (line 390): the loop goes on. *)
Definition onWake (now : Z) (st : State) : State :=
  match drain st with
  | Sleeping => dispatchHead now st
  | _ => st
  end.

(** The [i]-th scheduled timer fires.  The debounce callback starts
    [saveCache], which writes the cache and the counts to storage and
    changes nothing here; [saveCache.timeout] is cleared when it is done. *)
Definition fireTimer (now : Z) (i : nat) (st : State) : State :=
  match timers st !! i with
  | None => st
  | Some tm =>
      let st1 := with_timers (delete i (timers st)) st in
      match tm with
      | TProcessQueue _ => processRequestQueue now st1
      | TWake _ => onWake now st1
      | TRequestTimeout _ requestId name =>
          onRequestTimeout now requestId name st1
      | TSaveCache _ => st1
      end
  end.

(** ** The event loop *)

(** What can happen to the resolver: a call of [getLocation], a message
    from the page script, a timer, the call of [updateStats] made when a
    flag is inserted (line 905), the [resetStats] control message, or the
    end of the debounced [saveCache]. *)
Inductive Event :=
  | EvGetLocation (name : string)
  | EvRateLimitInfo (resetTime : Z)
  | EvLocationResponse (name : string) (requestId : nat)
      (loc : option string) (limited : bool)
  | EvTimer (i : nat)
  | EvUpdateStats (name loc : string)
  | EvResetStats
  | EvSaveCacheDone.

(** One task of the event loop, at clock [now] and with extension context
    validity [ctx]. *)
Definition step (ctx : bool) (now : Z) (ev : Event) (st : State) : State :=
  match ev with
  | EvGetLocation name => fst (getLocation now name st)
  | EvRateLimitInfo resetTime => onRateLimitInfo now resetTime st
  | EvLocationResponse name requestId loc limited =>
      onLocationResponse ctx now name requestId loc limited st
  | EvTimer i => fireTimer now i st
  | EvUpdateStats name loc => updateStats name loc st
  | EvResetStats => with_locationStats ∅ st
  | EvSaveCacheDone => with_saveCacheTimeout false st
  end.

(** The states the resolver can be in. *)
Inductive reachable : State -> Prop :=
  | reachable_init : reachable initialState
  | reachable_load ctx now cached :
      reachable (loadCache ctx now cached initialState)
  | reachable_step ctx now ev st :
      reachable st -> reachable (step ctx now ev st).

(** ** Username candidates (content.js, lines 547-569, 584-594) *)

Definition isSeparator (c : ascii) : bool :=
  Ascii.eqb c "/" || Ascii.eqb c "?".

(** The group [([^\/\?]+)] matched greedily: the longest prefix without
    '/' and '?'. *)
Fixpoint takeSegment (s : string) : string :=
  match s with
  | EmptyString => EmptyString
  | String c r =>
      if isSeparator c then EmptyString else String c (takeSegment r)
  end.

(** [parseUsernameFromLink] (lines 547-552); [href] is [null] or a
    string. *)
Definition parseUsernameFromLink (href : option string) : option string :=
  match href with
  | None => None
  | Some h =>
      match h with
      | String c r =>
          if Ascii.eqb c "/" then
            match takeSegment r with
            | EmptyString => None
            | seg => Some seg
            end
          else None
      | EmptyString => None
      end
  end.

Definition excludedRoutes : list string :=
  ["home"; "explore"; "notifications"; "messages"; "i"; "compose"; "search";
   "settings"; "bookmarks"; "lists"; "communities"; "hashtag"].

(** [s.startsWith(p)]. *)
Fixpoint startsWith (s p : string) {struct p} : bool :=
  match p with
  | EmptyString => true
  | String b p' =>
      match s with
      | EmptyString => false
      | String a s' => Ascii.eqb a b && startsWith s' p'
      end
  end.

(** [s.includes(sub)]. *)
Fixpoint includes (s sub : string) : bool :=
  startsWith s sub
  || match s with
     | EmptyString => false
     | String _ s' => includes s' sub
     end.

Definition isDigit (c : ascii) : bool :=
  let n := nat_of_ascii c in (48 <=? n)%nat && (n <=? 57)%nat.

Fixpoint allDigits (s : string) : bool :=
  match s with
  | EmptyString => true
  | String c r => isDigit c && allDigits r
  end.

(** [/^\d+$/.test(s)]. *)
Definition isNumeric (s : string) : bool :=
  negb (String.eqb s "") && allDigits s.

(** [isValidUsername] (lines 554-569); [username] is [null] or a string,
    whose [length] is that of its ASCII text. *)
Definition isValidUsername (username : option string) : bool :=
  match username with
  | None => false
  | Some u =>
      if negb (truthy username) || (String.length u =? 0)%nat
         || (20 <=? String.length u)%nat
      then false
      else if bool_decide (u ∈ excludedRoutes) || startsWith u "hashtag"
              || startsWith u "search"
      then false
      else if includes u "status" || isNumeric u then false
      else true
  end.


(** ** Storage (content.js, lines 150-241) *)

Definition STORAGE_LOG_THRESHOLD : Z := 90.

(** [canWriteToStorage] (lines 150-162). [usage] is the percentage
    [Math.floor((bytesUsed / STORAGE_QUOTA_BYTES) * 100)] computed from the
    answer of [getBytesInUse], or [None] when that call is missing or
    throws. *)
Definition canWriteToStorage (ctx : bool) (usage : option Z) : bool :=
  if negb ctx then false
  else match usage with
       | Some percentUsed => percentUsed <? STORAGE_LOG_THRESHOLD
       | None => false
       end.

(** [checkStorageUsage] (lines 164-193) on [lastLoggedStoragePercent]:
    the value returned, whether the warning is printed, and the new
    [lastLoggedStoragePercent]. *)
Definition checkStorageUsage (ctx : bool) (usage : option Z) (lastLogged : Z)
  : option Z * bool * Z :=
  if negb ctx then (None, false, lastLogged)
  else match usage with
       | None => (None, false, lastLogged)
       | Some percentUsed =>
           let logThreshold := percentUsed / 10 * 10 in
           let shouldLog :=
             ((lastLogged <? logThreshold) && (10 <=? logThreshold))
             || ((STORAGE_LOG_THRESHOLD <=? percentUsed)
                 && (lastLogged <? STORAGE_LOG_THRESHOLD)) in
           if shouldLog then (Some percentUsed, true, logThreshold)
           else (Some percentUsed, false, lastLogged)
       end.

(** A value of the object stored under [CACHE_KEY]. *)
Record StoredEntry := {
  stored_location : option string;
  stored_expiry : Z;
  stored_cachedAt : Z
}.

(** The two records of [chrome.storage.local] that the resolver writes;
    [None] is a key that was never set. *)
Record Storage := {
  storedCache : option (gmap string StoredEntry);
  storedStats : option (gmap string nat)
}.

(** One value of [cacheObj] (lines 213-218): [entry.expiry || ...] and
    [entry.cachedAt || now]. *)
Definition storeEntry (now : Z) (entry : CacheEntry) : StoredEntry :=
  {| stored_location := entry_location entry;
     stored_expiry := if entry_expiry entry =? 0
                      then calculateExpiry (entry_location entry) now
                      else entry_expiry entry;
     stored_cachedAt := match entry_cachedAt entry with
                        | Some c => if c =? 0 then now else c
                        | None => now
                        end |}.

(** The own properties of a plain object filled by [obj[key] = value] from
    the entries of a [Map]: the key "__proto__" reaches the prototype
    setter and leaves no property. *)
Definition objectFromMap {A B : Type} (f : A -> B) (m : gmap string A)
  : gmap string B :=
  delete "__proto__" (f <$> m).

(** [cacheObj] (lines 209-219). *)
Definition cacheObject (now : Z) (st : State) : gmap string StoredEntry :=
  objectFromMap (storeEntry now) (locationCache st).

(** [statsObj] (lines 221-225): the sizes of the sets. *)
Definition statsObject (st : State) : gmap string nat :=
  objectFromMap (size : gset string -> nat) (locationStats st).

(** [saveCache] (lines 195-241) on the storage and
    [lastLoggedStoragePercent]. [usage] is the percentage seen by
    [canWriteToStorage], [usage'] the one seen by the [checkStorageUsage]
    that follows, [setOk] tells whether [chrome.storage.local.set]
    succeeds. *)
Definition saveCache (ctx : bool) (usage usage' : option Z) (setOk : bool)
    (now : Z) (st : State) (storage : Storage) (lastLogged : Z)
  : Storage * Z :=
  if negb ctx then (storage, lastLogged)
  else if negb (canWriteToStorage ctx usage) then
    (storage, snd (checkStorageUsage ctx usage' lastLogged))
  else if setOk then
    ({| storedCache := Some (cacheObject now st);
        storedStats := Some (statsObject st) |},
     snd (checkStorageUsage ctx usage' lastLogged))
  else (storage, lastLogged).

(** What [loadCache] reads of a stored value. *)
Definition readEntry (e : StoredEntry) : PersistedEntry :=
  {| data_location := stored_location e; data_expiry := stored_expiry e |}.

(** ** popup.js: the statistics view (lines 65-98) *)

Module Popup.

(** A row of the list: the texts of the two spans and the count. *)
Record StatsRow := {
  displayFlag : JsVal;
  displayLocation : string;
  rowCount : Z
}.

(** What [loadAndDisplayStats] shows: the empty state, or the total and the
    rows. *)
Inductive StatsView :=
  | NoStats
  | StatsShown (total : Z) (rows : list StatsRow).

(** [Array.prototype.sort] with the comparator [(a, b) => b[1] - a[1]]. The
    sort is stable, which determines its result: a permutation in
    descending order of count that keeps the order of entries with equal
    counts. It is written here as a stable insertion sort. *)
Fixpoint insertByCount (x : string * Z) (l : list (string * Z))
  : list (string * Z) :=
  match l with
  | [] => [x]
  | y :: r => if snd y <=? snd x then x :: y :: r
              else y :: insertByCount x r
  end.

Definition sortByCount (entries : list (string * Z)) : list (string * Z) :=
  foldr insertByCount [] entries.

(** The body of the [map] callback (lines 80-83). *)
Definition statsRow (entry : string * Z) : StatsRow :=
  let '(loc, count) := entry in
  let flag := getCountryFlag (Some loc) in
  {| displayFlag := default (JsStr "") flag;
     displayLocation := match flag with
                        | Some _ => loc
                        | None => ("(" ++ loc ++ ")")%string
                        end;
     rowCount := count |}.

(** [loadAndDisplayStats] (lines 65-98); [stats] is [null] or the entries
    of the stored counts object, in the order of [Object.entries]. *)
Definition loadAndDisplayStats (stats : option (list (string * Z)))
  : StatsView :=
  match stats with
  | None => NoStats
  | Some [] => NoStats
  | Some entries =>
      StatsShown (fold_left Z.add entries.*2 0)
                 (statsRow <$> sortByCount entries)
  end.

End Popup.

(** * Vocabulary of the statements *)

(** The values of [rateLimitResetTime] after each of a run of
    [__rateLimitInfo] messages, given as pairs (clock, reported reset time),
    with nothing else happening in between. *)
Fixpoint resetTrace (st : State) (signals : list (Z * Z)) : list Z :=
  match signals with
  | [] => []
  | (now, resetTime) :: rest =>
      let st' := onRateLimitInfo now resetTime st in
      rateLimitResetTime st' :: resetTrace st' rest
  end.

Fixpoint nondecreasing (l : list Z) : Prop :=
  match l with
  | a :: r => match r with
              | b :: _ => a <= b /\ nondecreasing r
              | [] => True
              end
  | [] => True
  end.

(** The exponential wait in seconds at the [count]-th consecutive signal. *)
Definition exponentialWaitSeconds (count : nat) : Z :=
  BASE_BACKOFF_MINUTES * 2 ^ (Z.of_nat count - 1) * 60.

(** The count that [saveCache] derives for location [v]: the size of its
    set of user names. *)
Definition statsCount (v : string) (st : State) : nat :=
  size (default (∅ : gset string) (locationStats st !! v)).

(** The keys whose cache entry is unexpired at [now] and holds [v]. *)
Definition liveKeys (v : string) (now : Z) (st : State) : gset string :=
  dom (filter (fun kv : string * CacheEntry =>
                 entry_location kv.2 = Some v /\ isFresh now kv.2 = true)
              (locationCache st)).

Definition liveCount (v : string) (now : Z) (st : State) : nat :=
  size (liveKeys v now st).

(** Every key whose cache entry holds a non-empty location is in the set
    of that location. *)
Definition statsCover (st : State) : Prop :=
  forall (k : string) (e : CacheEntry) (v : string),
    locationCache st !! k = Some e ->
    entry_location e = Some v ->
    v <> "" ->
    k ∈ default (∅ : gset string) (locationStats st !! v).

(** At [now] every cache entry is unexpired and the set of each location is
    exactly the set of keys whose entry holds it. *)
Definition statsExact (now : Z) (st : State) : Prop :=
  (forall k e, locationCache st !! k = Some e -> isFresh now e = true)
  /\ (forall (v k : string),
        k ∈ default (∅ : gset string) (locationStats st !! v)
        <-> exists e, locationCache st !! k = Some e
                      /\ entry_location e = Some v).

(** The invariant of the event loop. *)
Record Inv (st : State) : Prop := {
  inv_queue : (length (requestQueue st) <= MAX_QUEUE_SIZE)%nat;
  inv_request_not_rejected :
    forall q e, requestPromises st !! q <> Some (Rejected e);
  inv_rejected_rate_limited :
    forall p e, locationPromises st !! p = Some (Rejected e) ->
                e = "Rate limited";
  inv_request_ids :
    forall q, is_Some (requestPromises st !! q) -> (q < nextId st)%nat;
  inv_handler_ids :
    forall q, is_Some (messageHandlers st !! q) -> (q < nextId st)%nat;
  inv_pending_timer :
    forall q, requestPromises st !! q = Some Pending ->
              exists name, TRequestTimeout REQUEST_TIMEOUT q name ∈ timers st;
  inv_drain_flag : drain st <> Idle -> isProcessingQueue st = true;
  inv_sleep_queue : drain st = Sleeping -> requestQueue st <> []
}.

(** The characters of [u] are neither '/' nor '?'. *)
Definition noSeparator (u : string) : Prop :=
  forall c, In c (String.list_ascii_of_string u) -> c <> "/"%char /\ c <> "?"%char.

(** What may follow the first path segment: nothing, or text that starts
    with '/' or '?'. *)
Definition segmentEnd (rest : string) : Prop :=
  rest = "" \/ exists r, rest = String "/" r \/ rest = String "?" r.


(** The thresholds at which [checkStorageUsage] warns along a run of usage
    samples, starting from [lastLogged]. *)
Fixpoint warnedThresholds (samples : list Z) (lastLogged : Z) : list Z :=
  match samples with
  | [] => []
  | percentUsed :: rest =>
      let '(_, warned, lastLogged') :=
        checkStorageUsage true (Some percentUsed) lastLogged in
      if warned then lastLogged' :: warnedThresholds rest lastLogged'
      else warnedThresholds rest lastLogged'
  end.

Fixpoint increasing (l : list Z) : Prop :=
  match l with
  | a :: r => match r with
              | b :: _ => a < b /\ increasing r
              | [] => True
              end
  | [] => True
  end.

(** Counts in descending order. *)
Fixpoint descendingCounts (l : list (string * Z)) : Prop :=
  match l with
  | a :: r => match r with
              | b :: _ => snd b <= snd a /\ descendingCounts r
              | [] => True
              end
  | [] => True
  end.

(** The entries of [l] whose count is [c], in order. *)
Definition withCount (c : Z) (l : list (string * Z)) : list (string * Z) :=
  filter (fun x => snd x = c) l.

(** The part of the state that describes the request in flight. *)
Definition flightFields (st : State)
  : DrainCont * Z * gmap nat Settle * gmap nat string :=
  (drain st, activeRequests st, requestPromises st, messageHandlers st).

(** At most one request is in flight: it is the one the drain awaits, it is
    still waiting and its listener is registered; no other request is
    waiting and no other listener is left. *)
Record InFlight (st : State) : Prop := {
  flight_active :
    activeRequests st = match drain st with Awaiting _ _ => 1 | _ => 0 end;
  flight_awaited :
    forall t q, drain st = Awaiting t q ->
      requestPromises st !! q = Some Pending
      /\ messageHandlers st !! q = Some (screenName t);
  flight_pending :
    forall q, requestPromises st !! q = Some Pending ->
      exists t, drain st = Awaiting t q;
  flight_handler :
    forall q name, messageHandlers st !! q = Some name ->
      exists t, drain st = Awaiting t q
}.

(** No request is in flight, whatever [drain] says. *)
Definition Quiet (st : State) : Prop :=
  activeRequests st = 0
  /\ (forall q, requestPromises st !! q <> Some Pending)
  /\ (forall q, messageHandlers st !! q = None).

(** The tasks whose promise is still to be settled by the drain: the one
    whose request it awaits and the queued ones. *)
Definition tasksOf (st : State) : list QueuedTask :=
  match drain st with
  | Awaiting t _ => t :: requestQueue st
  | _ => requestQueue st
  end.

Definition taskFields (st : State)
  : DrainCont * list QueuedTask * gmap nat Settle * nat :=
  (drain st, requestQueue st, locationPromises st, nextId st).

(** The pending promises of [getLocation] are exactly those of the tasks
    [ts], one promise per task. *)
Definition tracked (ts : list QueuedTask) (st : State) : Prop :=
  (forall p, locationPromises st !! p = Some Pending
             <-> exists t, t ∈ ts /\ promise t = p)
  /\ (forall p, is_Some (locationPromises st !! p) -> (p < nextId st)%nat)
  /\ NoDup (promise <$> ts).

(** A run of calls of [saveCacheEntry], each with its clock, user name and
    location. *)
Definition saveRun (ctx : bool) (saves : list (Z * string * option string))
    (st : State) : State :=
  fold_left (fun s '(now, username, loc) =>
               saveCacheEntry ctx now username loc s) saves st.

(** The number of scheduled runs of [saveCache]. *)
Fixpoint scheduledSaves (l : list Timer) : nat :=
  match l with
  | [] => 0
  | TSaveCache _ :: r => S (scheduledSaves r)
  | _ :: r => scheduledSaves r
  end.

(** A drain in progress has something to wait for: it is not idle, and
    while it sleeps its wake-up timer is scheduled. *)
Definition Live (st : State) : Prop :=
  (isProcessingQueue st = true -> drain st <> Idle)
  /\ (drain st = Sleeping -> exists d, TWake d ∈ timers st).

(** * Tactics *)

(** Reduce the projections of updated states. *)
Ltac st_simpl :=
  cbn [locationCache requestQueue isProcessingQueue lastRequestTime
       activeRequests rateLimitResetTime consecutiveRateLimits
       pendingLocationRequests locationStats saveCacheTimeout locationPromises
       requestPromises messageHandlers timers posted drain nextId
       with_locationCache with_requestQueue with_isProcessingQueue
       with_lastRequestTime with_activeRequests with_rateLimitResetTime
       with_consecutiveRateLimits with_pendingLocationRequests
       with_locationStats with_saveCacheTimeout with_locationPromises
       with_requestPromises with_messageHandlers with_timers with_posted
       with_drain with_nextId fst snd negb andb orb length] in *.

Ltac inv_destruct H :=
  destruct H as [Hqueue Hnotrej Hratelim Hids Hhids Hptimer Hdflag Hsleep].

(** * Properties *)

(** ** Sanity checks of the model on concrete runs *)

Example flag_trimmed_lowercased :
  getCountryFlag (Some "  FRANCE ") = Some (JsStr "🇫🇷").
Proof. vm_compute. reflexivity. Qed.

Example flag_inherited :
  getCountryFlag (Some "Constructor") = Some (JsInherited "constructor").
Proof. vm_compute. reflexivity. Qed.

Example first_call_dispatches :
  let st := fst (getLocation 5000 "bob" initialState) in
  snd (getLocation 5000 "bob" initialState) = AwaitOwner 0
  /\ drain st = Awaiting {| screenName := "bob"; promise := 0 |} 1
  /\ posted st = [("bob", 1%nat)]
  /\ timers st = [TRequestTimeout 10000 1 "bob"].
Proof. vm_compute. repeat split; reflexivity. Qed.

Example answer_is_cached_and_counted :
  let st := step true 6000 (EvLocationResponse "bob" 1 (Some "France") false)
              (fst (getLocation 5000 "bob" initialState)) in
  resumeOwner 0 st = Fulfilled (createLocationInfo (Some "France"))
  /\ snd (getLocation 7000 "bob" st)
     = Returned (createLocationInfo (Some "France"))
  /\ locationStats st !! "France" = Some {["bob"]}
  /\ posted (fst (getLocation 7000 "bob" st)) = [("bob", 1%nat)].
Proof. vm_compute. repeat split; reflexivity. Qed.

(** ** Expiry (C7) *)

(** C7. At any instant the expiry computed for an absent location is
    strictly earlier than the one computed for any present location: one
    day against thirty days after [now]. *)
Theorem calculateExpiry_null_before_found (v : string) (now : Z) :
  calculateExpiry None now < calculateExpiry (Some v) now
  /\ calculateExpiry None now = now + 1 * 86400000
  /\ calculateExpiry (Some v) now = now + 30 * 86400000.
Proof.
  unfold calculateExpiry, NULL_CACHE_EXPIRY_DAYS, CACHE_EXPIRY_DAYS. lia.
Qed.

(** ** Display text (C9) *)

Lemma truthy_nonempty (v : string) : v <> "" -> truthy (Some v) = true.
Proof.
  intros Hv. simpl. destruct (String.eqb_spec v ""); [contradiction | done].
Qed.

(** C9, as stated, fails: a location without a flag is not displayed as the
    raw value but as the value in parentheses. *)
Lemma createLocationInfo_fallback_not_raw :
  getCountryFlag (Some "Atlantis") = None
  /\ displayText (createLocationInfo (Some "Atlantis"))
     = Some (JsStr "(Atlantis)")
  /\ displayText (createLocationInfo (Some "Atlantis"))
     <> Some (JsStr "Atlantis").
Proof. vm_compute. split; [reflexivity | split; [reflexivity | discriminate]]. Qed.

(** C9, amended. For a non-empty location the info carries the location,
    the result of [getCountryFlag] as the flag, and as display text that
    flag when there is one and otherwise the location wrapped in
    parentheses; for [null] and for the empty string every field is
    [null]. *)
Theorem createLocationInfo_display (v : string) (Hv : v <> "") :
  location (createLocationInfo (Some v)) = Some v
  /\ flag (createLocationInfo (Some v)) = getCountryFlag (Some v)
  /\ displayText (createLocationInfo (Some v))
     = Some (default (JsStr ("(" ++ v ++ ")")%string) (getCountryFlag (Some v)))
  /\ createLocationInfo None = nullInfo
  /\ createLocationInfo (Some "") = nullInfo.
Proof.
  unfold createLocationInfo. rewrite (truthy_nonempty v Hv).
  cbn [negb location flag displayText].
  split; [reflexivity | split; [reflexivity | split; [| split; reflexivity]]].
  by destruct (getCountryFlag (Some v)).
Qed.

Lemma createLocationInfo_display_witness :
  displayText (createLocationInfo (Some "Japan")) = Some (JsStr "🇯🇵")
  /\ displayText (createLocationInfo (Some "Atlantis"))
     = Some (JsStr "(Atlantis)").
Proof.
  split.
  - assert (H : "Japan" <> "") by discriminate.
    destruct (createLocationInfo_display "Japan" H) as (_ & _ & Hd & _ & _).
    rewrite Hd. vm_compute. reflexivity.
  - assert (H : "Atlantis" <> "") by discriminate.
    destruct (createLocationInfo_display "Atlantis" H) as (_ & _ & Hd & _ & _).
    rewrite Hd. vm_compute. reflexivity.
Defined.

(** ** Rate-limit signals (C1) *)

Lemma exponentialWaitSeconds_mono (c : nat) :
  0 < exponentialWaitSeconds (S c)
  /\ exponentialWaitSeconds (S c) < exponentialWaitSeconds (S (S c)).
Proof.
  unfold exponentialWaitSeconds, BASE_BACKOFF_MINUTES.
  replace (Z.of_nat (S (S c)) - 1) with (Z.succ (Z.of_nat (S c) - 1)) by lia.
  rewrite Z.pow_succ_r by lia.
  assert (0 < 2 ^ (Z.of_nat (S c) - 1)) by (apply Z.pow_pos_nonneg; lia).
  lia.
Qed.

Lemma onRateLimitInfo_reset (st : State) (now resetTime : Z) :
  rateLimitResetTime (onRateLimitInfo now resetTime st)
  = Z.max resetTime
      (now / 1000 + exponentialWaitSeconds (S (consecutiveRateLimits st))).
Proof. reflexivity. Qed.

Lemma resetTrace_nondecreasing (signals : list (Z * Z)) :
  forall (st : State) (now resetTime : Z),
    nondecreasing (now :: map fst signals) ->
    nondecreasing (resetTime :: map snd signals) ->
    nondecreasing
      (rateLimitResetTime (onRateLimitInfo now resetTime st)
       :: resetTrace (onRateLimitInfo now resetTime st) signals).
Proof.
  induction signals as [| [now2 r2] rest IH]; intros st now r Hn Hr.
  - exact I.
  - cbn [resetTrace]. cbn [map fst snd nondecreasing] in Hn, Hr.
    destruct Hn as [Hn Hn'], Hr as [Hr Hr'].
    change (rateLimitResetTime (onRateLimitInfo now r st)
            <= rateLimitResetTime
                 (onRateLimitInfo now2 r2 (onRateLimitInfo now r st))
            /\ nondecreasing
                 (rateLimitResetTime
                    (onRateLimitInfo now2 r2 (onRateLimitInfo now r st))
                  :: resetTrace
                       (onRateLimitInfo now2 r2 (onRateLimitInfo now r st))
                       rest)).
    split; [| by apply IH].
    rewrite !onRateLimitInfo_reset.
    change (consecutiveRateLimits (onRateLimitInfo now r st))
      with (S (consecutiveRateLimits st)).
    pose proof (exponentialWaitSeconds_mono (consecutiveRateLimits st)).
    assert (now / 1000 <= now2 / 1000) by (apply Z.div_le_mono; lia).
    lia.
Qed.

(** C1, as stated, fails: the second of two consecutive signals, carrying an
    earlier reported reset time, moves [rateLimitResetTime] back from the
    value the first one set. *)
Lemma backoff_window_can_shrink :
  let s1 := onRateLimitInfo 1700000000000 1700000900 initialState in
  let s2 := onRateLimitInfo 1700000001000 1700000100 s1 in
  rateLimitResetTime s1 = 1700000900
  /\ rateLimitResetTime s2 = 1700000601
  /\ rateLimitResetTime s2 < rateLimitResetTime s1.
Proof. vm_compute. split; [reflexivity | split; reflexivity]. Qed.

(** C1, amended. Every signal increments [consecutiveRateLimits] and sets
    [rateLimitResetTime] to the maximum of the reported reset time and the
    clock (in seconds) plus 5 * 2^(count - 1) minutes, a wait that is
    positive and doubles with each consecutive signal. Across a run of
    consecutive signals the resulting reset times are non-decreasing when
    the clock does not go back and the reported reset times do not
    decrease; a later signal with an earlier reported reset time may move
    the reset time back. *)
Theorem onRateLimitInfo_backoff (st : State) (now resetTime : Z) :
  let st' := onRateLimitInfo now resetTime st in
  consecutiveRateLimits st' = S (consecutiveRateLimits st)
  /\ rateLimitResetTime st'
     = Z.max resetTime
         (now / 1000
          + BASE_BACKOFF_MINUTES
            * 2 ^ (Z.of_nat (consecutiveRateLimits st') - 1) * 60)
  /\ exponentialWaitSeconds (S (consecutiveRateLimits st'))
     = 2 * exponentialWaitSeconds (consecutiveRateLimits st')
  /\ now / 1000 < rateLimitResetTime st'
  /\ forall signals : list (Z * Z),
       nondecreasing (now :: map fst signals) ->
       nondecreasing (resetTime :: map snd signals) ->
       nondecreasing (rateLimitResetTime st' :: resetTrace st' signals).
Proof.
  cbn zeta.
  split; [reflexivity |].
  split; [reflexivity |].
  split.
  { change (consecutiveRateLimits (onRateLimitInfo now resetTime st))
      with (S (consecutiveRateLimits st)).
    unfold exponentialWaitSeconds.
    replace (Z.of_nat (S (S (consecutiveRateLimits st))) - 1)
      with (Z.succ (Z.of_nat (S (consecutiveRateLimits st)) - 1)) by lia.
    rewrite Z.pow_succ_r by lia. lia. }
  split.
  { rewrite onRateLimitInfo_reset.
    pose proof (exponentialWaitSeconds_mono (consecutiveRateLimits st)). lia. }
  intros signals. apply resetTrace_nondecreasing.
Qed.

Lemma onRateLimitInfo_backoff_witness :
  nondecreasing
    (rateLimitResetTime (onRateLimitInfo 1000 500 initialState)
     :: resetTrace (onRateLimitInfo 1000 500 initialState)
          [(2000, 500); (3000, 900)]).
Proof.
  destruct (onRateLimitInfo_backoff initialState 1000 500)
    as (_ & _ & _ & _ & H).
  apply (H [(2000, 500); (3000, 900)]); cbn; lia.
Defined.

Example backoff_5_10_20_minutes :
  resetTrace initialState [(0, 0); (0, 0); (0, 0)] = [300; 600; 1200].
Proof. reflexivity. Qed.

(** ** Promise store *)

Lemma lookup_resolveIn (p q : nat) (v : option string) (ps : gmap nat Settle) :
  resolveIn p v ps !! q
  = if decide (p = q)
    then match ps !! p with
         | Some Pending => Some (Resolved v)
         | o => o
         end
    else ps !! q.
Proof.
  unfold resolveIn. case_decide as Hpq.
  - subst q. destruct (ps !! p) as [[]|] eqn:E; rewrite ?lookup_insert_eq; done.
  - destruct (ps !! p) as [[]|] eqn:E; rewrite ?lookup_insert_ne; done.
Qed.

Lemma lookup_rejectIn (p q : nat) (err : string) (ps : gmap nat Settle) :
  rejectIn p err ps !! q
  = if decide (p = q)
    then match ps !! p with
         | Some Pending => Some (Rejected err)
         | o => o
         end
    else ps !! q.
Proof.
  unfold rejectIn. case_decide as Hpq.
  - subst q. destruct (ps !! p) as [[]|] eqn:E; rewrite ?lookup_insert_eq; done.
  - destruct (ps !! p) as [[]|] eqn:E; rewrite ?lookup_insert_ne; done.
Qed.

Lemma resolveIn_is_Some (p q : nat) (v : option string) (ps : gmap nat Settle) :
  is_Some (resolveIn p v ps !! q) <-> is_Some (ps !! q).
Proof.
  rewrite lookup_resolveIn. case_decide; [subst q |]; [| done].
  destruct (ps !! p) as [[]|]; split; intros [? ?]; eauto; done.
Qed.

Lemma resolveIn_not_rejected (p q : nat) (v : option string) (e : string)
    (ps : gmap nat Settle) :
  ps !! q <> Some (Rejected e) -> resolveIn p v ps !! q <> Some (Rejected e).
Proof.
  rewrite lookup_resolveIn. case_decide; [subst q |]; [| done].
  destruct (ps !! p) as [[]|]; done.
Qed.

Lemma resolveIn_pending (p q : nat) (v : option string) (ps : gmap nat Settle) :
  resolveIn p v ps !! q = Some Pending -> ps !! q = Some Pending /\ p <> q.
Proof.
  rewrite lookup_resolveIn. case_decide; [subst q |]; [| done].
  destruct (ps !! p) as [[]|]; done.
Qed.

(** ** The invariant is kept by every operation *)

Lemma elem_of_delete_ne {A : Type} (l : list A) (i : nat) (x y : A) :
  x ∈ l -> l !! i = Some y -> x <> y -> x ∈ delete i l.
Proof.
  revert i. induction l as [| a l IH]; intros i Hx Hi Hne.
  - by apply elem_of_nil in Hx.
  - destruct i as [| i]; simpl in *.
    + injection Hi as ->. apply elem_of_cons in Hx as [-> | Hx]; done.
    + apply elem_of_cons in Hx as [-> | Hx]; [left | right; eauto].
Qed.

Lemma Inv_initialState : Inv initialState.
Proof.
  split; simpl; try done.
  - unfold MAX_QUEUE_SIZE. lia.
  - intros q [? H]. by rewrite lookup_empty in H.
  - intros q [? H]. by rewrite lookup_empty in H.
Qed.

Lemma Inv_makeLocationRequest (name : string) (st : State) :
  Inv st -> Inv (fst (makeLocationRequest name st)).
Proof.
  intros H. inv_destruct H. unfold makeLocationRequest.
  split; st_simpl; try done.
  - intros q e. destruct (decide (nextId st = q)) as [<- | Hne].
    + by rewrite lookup_insert_eq.
    + rewrite lookup_insert_ne by done. apply Hnotrej.
  - intros q. destruct (decide (nextId st = q)) as [<- | Hne]; [lia |].
    rewrite lookup_insert_ne by done. intros Hq. apply Hids in Hq. lia.
  - intros q. destruct (decide (nextId st = q)) as [<- | Hne]; [lia |].
    rewrite lookup_insert_ne by done. intros Hq. apply Hhids in Hq. lia.
  - intros q. destruct (decide (nextId st = q)) as [<- | Hne].
    + intros _. exists name. apply elem_of_app. right.
      by apply list_elem_of_singleton.
    + rewrite lookup_insert_ne by done. intros Hq.
      destruct (Hptimer q Hq) as [n Hn]. exists n. apply elem_of_app. by left.
Qed.

Lemma Inv_dispatchHead (now : Z) (st : State) :
  Inv st -> isProcessingQueue st = true -> Inv (dispatchHead now st).
Proof.
  intros H Hproc. unfold dispatchHead.
  destruct (requestQueue st) as [| t rest] eqn:Hq.
  - inv_destruct H. split; st_simpl; try done.
  - (* the order of the independent field updates does not matter *)
    change (Inv (fst (makeLocationRequest (screenName t)
                   (with_drain (Awaiting t (nextId st))
                      (with_lastRequestTime now
                         (with_activeRequests (activeRequests st + 1)
                            (with_requestQueue rest st))))))).
    apply Inv_makeLocationRequest.
    inv_destruct H. split; st_simpl; try done.
    rewrite Hq in Hqueue. simpl in Hqueue. lia.
Qed.

Lemma Inv_drainLoop (now : Z) (st : State) :
  Inv st -> isProcessingQueue st = true -> Inv (drainLoop now st).
Proof.
  intros H Hproc. unfold drainLoop.
  destruct (negb (length (requestQueue st) =? 0)%nat
            && (activeRequests st <? MAX_CONCURRENT_REQUESTS)) eqn:Hcond.
  - destruct (now - lastRequestTime st <? MIN_REQUEST_INTERVAL).
    + apply andb_prop in Hcond as [Hlen _].
      inv_destruct H. split; st_simpl; try done.
      * intros q Hq. destruct (Hptimer q Hq) as [n Hn]. exists n.
        apply elem_of_app. by left.
      * intros _ Hnil. rewrite Hnil in Hlen. done.
    + by apply Inv_dispatchHead.
  - inv_destruct H. split; st_simpl; try done.
Qed.

Lemma Inv_taskResolve (t : QueuedTask) (loc : option string) (st : State) :
  Inv st -> Inv (taskResolve t loc st).
Proof.
  intros H. inv_destruct H. unfold taskResolve. split; st_simpl; try done.
  intros p e. rewrite lookup_resolveIn. case_decide; [subst p |]; [| eauto].
  destruct (locationPromises st !! promise t) as [[]|] eqn:E; try done.
  intros [= <-]. eauto.
Qed.

Lemma Inv_taskReject (t : QueuedTask) (st : State) :
  Inv st -> Inv (taskReject t "Rate limited" st).
Proof.
  intros H. inv_destruct H. unfold taskReject. split; st_simpl; try done.
  intros p e. rewrite lookup_rejectIn. case_decide; [subst p |]; [| eauto].
  destruct (locationPromises st !! promise t) as [[]|] eqn:E; try done.
  - by intros [= <-].
  - intros [= <-]. eauto.
Qed.

Lemma Inv_drainFinally (now : Z) (st : State) :
  Inv st -> isProcessingQueue st = true -> Inv (drainFinally now st).
Proof.
  intros H Hproc. unfold drainFinally. apply Inv_drainLoop; [| done].
  inv_destruct H. split; st_simpl; try done.
  intros q Hq. destruct (Hptimer q Hq) as [n Hn]. exists n.
  apply elem_of_app. by left.
Qed.

Lemma Inv_resumeDrain (now : Z) (st : State) :
  Inv st -> Inv (resumeDrain now st).
Proof.
  intros H. unfold resumeDrain.
  destruct (drain st) as [| | t requestId] eqn:Hd; try done.
  assert (Hproc : isProcessingQueue st = true).
  { apply (inv_drain_flag st H). by rewrite Hd. }
  destruct (requestPromises st !! requestId) as [[| loc | err]|] eqn:Hp;
    try done.
  - apply Inv_drainFinally.
    + apply Inv_taskResolve.
      destruct (0 <? consecutiveRateLimits st)%nat; [| done].
      inv_destruct H. split; st_simpl; done.
    + by destruct (0 <? consecutiveRateLimits st)%nat.
  - by destruct (inv_request_not_rejected st H requestId err).
Qed.

Lemma Inv_rejectAll (queue : list QueuedTask) (st : State) :
  Inv st ->
  Inv (fold_left (fun s t => taskReject t "Rate limited" s) queue st).
Proof.
  revert st. induction queue as [| t queue IH]; intros st H; [done |].
  simpl. apply IH. by apply Inv_taskReject.
Qed.

(** The fields a purge of the queue leaves alone. *)
Lemma rejectAll_frame (queue : list QueuedTask) (st : State) :
  let st' := fold_left (fun s t => taskReject t "Rate limited" s) queue st in
  requestQueue st' = requestQueue st
  /\ drain st' = drain st
  /\ isProcessingQueue st' = isProcessingQueue st
  /\ timers st' = timers st
  /\ posted st' = posted st
  /\ locationCache st' = locationCache st
  /\ locationStats st' = locationStats st
  /\ rateLimitResetTime st' = rateLimitResetTime st
  /\ consecutiveRateLimits st' = consecutiveRateLimits st
  /\ requestPromises st' = requestPromises st
  /\ nextId st' = nextId st.
Proof.
  revert st. induction queue as [| t queue IH]; intros st; [by repeat split |].
  simpl. specialize (IH (taskReject t "Rate limited" st)). simpl in IH.
  destruct IH as (-> & -> & -> & -> & -> & -> & -> & -> & -> & -> & ->).
  by repeat split.
Qed.

Lemma Inv_rejectQueued (st : State) :
  Inv st -> isProcessingQueue st = false -> Inv (rejectQueued st).
Proof.
  intros H Hproc. unfold rejectQueued.
  pose proof (Inv_rejectAll (requestQueue st) st H) as H'.
  pose proof (rejectAll_frame (requestQueue st) st) as Hf. simpl in Hf.
  destruct Hf as (_ & Hd & Hp & _).
  inv_destruct H'. split; st_simpl; try done.
  - lia.
  - rewrite Hd. intros Hs.
    assert (isProcessingQueue st = true); [| congruence].
    apply (inv_drain_flag st H). by rewrite Hs.
Qed.

Lemma Inv_processRequestQueue (now : Z) (st : State) :
  Inv st -> Inv (processRequestQueue now st).
Proof.
  intros H. unfold processRequestQueue.
  destruct (isProcessingQueue st) eqn:Hproc; [done |]. simpl.
  destruct (length (requestQueue st) =? 0)%nat; [done |].
  destruct (isRateLimited now st).
  - pose proof (Inv_rejectQueued st H Hproc) as H'.
    inv_destruct H'. split; st_simpl; try done.
    intros q Hq. destruct (Hptimer q Hq) as [n Hn]. exists n.
    apply elem_of_app. by left.
  - apply Inv_drainLoop; [| done].
    assert (Hidle : drain st = Idle).
    { destruct (drain st) eqn:Hd; [done | |];
        (assert (isProcessingQueue st = true); [| congruence]);
        apply (inv_drain_flag st H); by rewrite Hd. }
    destruct (0 <? rateLimitResetTime st);
      inv_destruct H; split; st_simpl; try done; by rewrite Hidle.
Qed.

Lemma Inv_enqueueRequest (now : Z) (name : string) (st : State) :
  Inv st -> (length (requestQueue st) < MAX_QUEUE_SIZE)%nat ->
  Inv (fst (enqueueRequest now name st)).
Proof.
  intros H Hlen. unfold enqueueRequest. cbn [fst].
  set (st2 := with_requestQueue _ _).
  assert (H2 : Inv st2).
  { subst st2. inv_destruct H. split; st_simpl; try done.
    - rewrite length_app. simpl. lia.
    - intros p e. destruct (decide (nextId st = p)) as [<- | Hne].
      + by rewrite lookup_insert_eq.
      + rewrite lookup_insert_ne by done. apply Hratelim.
    - intros q Hq. apply Hids in Hq. lia.
    - intros q Hq. apply Hhids in Hq. lia.
    - intros _ Hnil. by destruct (requestQueue st). }
  pose proof (Inv_processRequestQueue now st2 H2) as H3.
  inv_destruct H3. split; st_simpl; done.
Qed.

Lemma Inv_cacheCheck (now : Z) (name : string) (st : State) :
  Inv st -> Inv (fst (cacheCheck now name st)).
Proof.
  intros H. unfold cacheCheck.
  destruct (locationCache st !! name) as [cached |]; [| done].
  destruct (isFresh now cached); [done |].
  inv_destruct H. split; st_simpl; done.
Qed.

(** The cache check only touches the cache. *)
Lemma cacheCheck_frame (now : Z) (name : string) (st : State) :
  let st' := fst (cacheCheck now name st) in
  requestQueue st' = requestQueue st
  /\ pendingLocationRequests st' = pendingLocationRequests st
  /\ locationStats st' = locationStats st
  /\ posted st' = posted st.
Proof.
  unfold cacheCheck.
  destruct (locationCache st !! name) as [cached |]; [| done].
  by destruct (isFresh now cached).
Qed.

Lemma Inv_getLocation (now : Z) (name : string) (st : State) :
  Inv st -> Inv (fst (getLocation now name st)).
Proof.
  intros H. unfold getLocation.
  pose proof (Inv_cacheCheck now name st H) as H1.
  destruct (cacheCheck now name st) as [st1 [loc |]]; [done |].
  cbn [fst] in H1.
  destruct (pendingLocationRequests st1 !! name); [done |].
  destruct (MAX_QUEUE_SIZE <=? length (requestQueue st1))%nat eqn:Hfull;
    [done |].
  apply Nat.leb_gt in Hfull.
  pose proof (Inv_enqueueRequest now name st1 H1 Hfull) as H2.
  by destruct (enqueueRequest now name st1).
Qed.

Lemma Inv_updateStats (username loc : string) (st : State) :
  Inv st -> Inv (updateStats username loc st).
Proof.
  intros H. unfold updateStats.
  destruct (negb (truthy (Some loc))); [done |].
  cbn zeta. case_bool_decide; inv_destruct H; split; st_simpl; done.
Qed.

Lemma Inv_saveCacheEntry (ctx : bool) (now : Z) (username : string)
    (loc : option string) (st : State) :
  Inv st -> Inv (saveCacheEntry ctx now username loc st).
Proof.
  intros H. unfold saveCacheEntry. destruct ctx; [| done]. cbn [negb].
  set (st1 := with_locationCache _ st).
  assert (H1 : Inv st1).
  { subst st1. inv_destruct H. split; st_simpl; done. }
  set (st2 := match loc with Some l => _ | None => _ end).
  assert (H2 : Inv st2).
  { subst st2. destruct loc; [by apply Inv_updateStats | done]. }
  destruct (saveCacheTimeout st2); [done |].
  inv_destruct H2. split; st_simpl; try done.
  intros q Hq. destruct (Hptimer q Hq) as [n Hn]. exists n.
  apply elem_of_app. by left.
Qed.

Lemma delete_is_Some (q r : nat) (m : gmap nat string) :
  is_Some (delete r m !! q) -> is_Some (m !! q).
Proof.
  destruct (decide (r = q)) as [<- | Hne].
  - rewrite lookup_delete_eq. by intros [? ?].
  - by rewrite lookup_delete_ne.
Qed.

Lemma Inv_resolve_request (requestId : nat) (v : option string) (st : State) :
  Inv st ->
  Inv (with_requestPromises (resolveIn requestId v (requestPromises st)) st).
Proof.
  intros H. inv_destruct H. split; st_simpl; try done.
  - intros q e. by apply resolveIn_not_rejected.
  - intros q Hq. apply Hids. by apply resolveIn_is_Some in Hq.
  - intros q Hq. apply resolveIn_pending in Hq as [Hq _]. eauto.
Qed.

Lemma Inv_drop_handler (requestId : nat) (st : State) :
  Inv st ->
  Inv (with_messageHandlers (delete requestId (messageHandlers st)) st).
Proof.
  intros H. inv_destruct H. split; st_simpl; try done.
  intros q Hq. apply Hhids. by apply delete_is_Some in Hq.
Qed.

Lemma Inv_onLocationResponse (ctx : bool) (now : Z) (name : string)
    (requestId : nat) (loc : option string) (limited : bool) (st : State) :
  Inv st -> Inv (onLocationResponse ctx now name requestId loc limited st).
Proof.
  intros H. unfold onLocationResponse.
  destruct (messageHandlers st !! requestId) as [name' |]; [| done].
  destruct (String.eqb name' name); [| done].
  apply Inv_resumeDrain, Inv_resolve_request.
  pose proof (Inv_drop_handler requestId st H) as H1.
  destruct limited; [done |]. by apply Inv_saveCacheEntry.
Qed.

(** The state that the timeout callback, entered from the timer that
    scheduled it, hands to the continuation of the drain. *)
Lemma Inv_timeout_settled (d : Z) (i requestId : nat) (name : string)
    (st : State) :
  Inv st -> timers st !! i = Some (TRequestTimeout d requestId name) ->
  Inv (with_requestPromises
         (resolveIn requestId None (requestPromises st))
         (with_pendingLocationRequests
            (delete name (pendingLocationRequests st))
            (with_messageHandlers (delete requestId (messageHandlers st))
               (with_timers (delete i (timers st)) st)))).
Proof.
  intros H Hi.
  inv_destruct H. split; st_simpl; try done.
  - intros q e. by apply resolveIn_not_rejected.
  - intros q Hq. apply Hids. by apply resolveIn_is_Some in Hq.
  - intros q Hq. apply Hhids. by apply delete_is_Some in Hq.
  - intros q Hq. apply resolveIn_pending in Hq as [Hq Hne].
    destruct (Hptimer q Hq) as [n Hn]. exists n.
    apply (elem_of_delete_ne _ i _ (TRequestTimeout d requestId name));
      [done | done | congruence].
Qed.

Lemma Inv_onRequestTimeout (now d : Z) (i requestId : nat) (name : string)
    (st : State) :
  Inv st -> timers st !! i = Some (TRequestTimeout d requestId name) ->
  Inv (onRequestTimeout now requestId name
         (with_timers (delete i (timers st)) st)).
Proof.
  intros H Hi. unfold onRequestTimeout.
  apply Inv_resumeDrain, (Inv_timeout_settled d i requestId name st H Hi).
Qed.

Lemma Inv_drop_timer (i : nat) (tm : Timer) (st : State) :
  Inv st -> timers st !! i = Some tm ->
  (forall d requestId name, tm <> TRequestTimeout d requestId name) ->
  Inv (with_timers (delete i (timers st)) st).
Proof.
  intros H Hi Htm. inv_destruct H. split; st_simpl; try done.
  intros q Hq. destruct (Hptimer q Hq) as [n Hn]. exists n.
  by apply (elem_of_delete_ne _ i _ tm).
Qed.

Lemma Inv_onWake (now : Z) (st : State) : Inv st -> Inv (onWake now st).
Proof.
  intros H. unfold onWake. destruct (drain st) eqn:Hd; try done.
  apply Inv_dispatchHead; [done |].
  apply (inv_drain_flag st H). by rewrite Hd.
Qed.

Lemma Inv_fireTimer (now : Z) (i : nat) (st : State) :
  Inv st -> Inv (fireTimer now i st).
Proof.
  intros H. unfold fireTimer.
  destruct (timers st !! i) as [tm |] eqn:Hi; [| done].
  destruct tm as [d | d | d requestId name | d].
  - apply Inv_processRequestQueue. by apply (Inv_drop_timer i (TProcessQueue d)).
  - apply Inv_onWake. by apply (Inv_drop_timer i (TWake d)).
  - by apply (Inv_onRequestTimeout now d).
  - by apply (Inv_drop_timer i (TSaveCache d)).
Qed.

Lemma Inv_onRateLimitInfo (now resetTime : Z) (st : State) :
  Inv st -> Inv (onRateLimitInfo now resetTime st).
Proof.
  intros H. inv_destruct H. unfold onRateLimitInfo. split; st_simpl; done.
Qed.

Lemma Inv_step (ctx : bool) (now : Z) (ev : Event) (st : State) :
  Inv st -> Inv (step ctx now ev st).
Proof.
  intros H. destruct ev; simpl.
  - by apply Inv_getLocation.
  - by apply Inv_onRateLimitInfo.
  - by apply Inv_onLocationResponse.
  - by apply Inv_fireTimer.
  - by apply Inv_updateStats.
  - inv_destruct H. split; st_simpl; done.
  - inv_destruct H. split; st_simpl; done.
Qed.

Lemma Inv_loadEntry (now : Z) (st : State) (kv : string * PersistedEntry) :
  Inv st -> Inv (loadEntry now st kv).
Proof.
  intros H. unfold loadEntry. destruct kv as [username data].
  destruct (negb (data_expiry data =? 0) && (now <? data_expiry data));
    [| done].
  destruct (data_location data); inv_destruct H; split; st_simpl; done.
Qed.

Lemma Inv_loadCache (ctx : bool) (now : Z)
    (cached : option (list (string * PersistedEntry))) (st : State) :
  Inv st -> Inv (loadCache ctx now cached st).
Proof.
  intros H. unfold loadCache. destruct ctx; [| done]. cbn [negb].
  destruct cached as [entries |]; [| done].
  revert st H. induction entries as [| kv entries IH]; intros st H; [done |].
  simpl. apply IH. by apply Inv_loadEntry.
Qed.

Lemma reachable_Inv (st : State) : reachable st -> Inv st.
Proof.
  induction 1.
  - apply Inv_initialState.
  - apply Inv_loadCache, Inv_initialState.
  - by apply Inv_step.
Qed.

(** ** What the queue operations leave alone *)

Lemma drainLoop_frame (now : Z) (st : State) :
  let st' := drainLoop now st in
  locationCache st' = locationCache st
  /\ locationStats st' = locationStats st
  /\ pendingLocationRequests st' = pendingLocationRequests st
  /\ locationPromises st' = locationPromises st
  /\ rateLimitResetTime st' = rateLimitResetTime st
  /\ consecutiveRateLimits st' = consecutiveRateLimits st.
Proof.
  unfold drainLoop, dispatchHead, makeLocationRequest.
  repeat case_match; st_simpl; done.
Qed.

Lemma processRequestQueue_frame (now : Z) (st : State) :
  let st' := processRequestQueue now st in
  locationCache st' = locationCache st
  /\ locationStats st' = locationStats st.
Proof.
  unfold processRequestQueue. cbn zeta.
  destruct (isProcessingQueue st || (length (requestQueue st) =? 0)%nat);
    [done |].
  destruct (isRateLimited now st).
  - unfold rejectQueued.
    pose proof (rejectAll_frame (requestQueue st) st) as Hf. simpl in Hf.
    destruct Hf as (_ & _ & _ & _ & _ & Hc & Hs & _). st_simpl. done.
  - match goal with |- context [drainLoop now ?s] =>
      pose proof (drainLoop_frame now s) as Hf end.
    simpl in Hf. destruct Hf as (-> & -> & _).
    by destruct (0 <? rateLimitResetTime st).
Qed.

Lemma enqueueRequest_frame (now : Z) (name : string) (st : State) :
  let st' := fst (enqueueRequest now name st) in
  locationCache st' = locationCache st
  /\ locationStats st' = locationStats st.
Proof.
  unfold enqueueRequest. cbn [fst].
  match goal with |- context [processRequestQueue now ?s] =>
    pose proof (processRequestQueue_frame now s) as Hf end.
  simpl in Hf. destruct Hf as (Hc & Hs). st_simpl. by rewrite Hc, Hs.
Qed.

Lemma saveCacheEntry_cache (now : Z) (username : string)
    (loc : option string) (st : State) :
  locationCache (saveCacheEntry true now username loc st)
  = <[username := {| entry_location := loc;
                     entry_expiry := calculateExpiry loc now;
                     entry_cachedAt := Some now |}]> (locationCache st).
Proof.
  unfold saveCacheEntry, updateStats. repeat case_match; st_simpl; done.
Qed.

(** ** The bounded queue (C5) *)

(** C5. The queue never holds more than [MAX_QUEUE_SIZE] = 50 tasks. A call
    of [getLocation] that misses the cache, finds no pending request and
    finds the queue at capacity returns at once, without suspending, the
    info whose [location], [flag] and [displayText] are all [null]; it
    appends nothing to the queue, registers nothing and sends nothing. *)
Theorem queue_never_exceeds_max :
  MAX_QUEUE_SIZE = 50%nat
  /\ (forall st : State,
        reachable st -> (length (requestQueue st) <= MAX_QUEUE_SIZE)%nat)
  /\ (forall (now : Z) (name : string) (st : State),
        snd (cacheCheck now name st) = None ->
        pendingLocationRequests st !! name = None ->
        (MAX_QUEUE_SIZE <= length (requestQueue st))%nat ->
        let st' := fst (getLocation now name st) in
        snd (getLocation now name st)
        = Returned {| location := None; flag := None; displayText := None |}
        /\ requestQueue st' = requestQueue st
        /\ pendingLocationRequests st' = pendingLocationRequests st
        /\ locationPromises st' = locationPromises st
        /\ posted st' = posted st).
Proof.
  split; [reflexivity |]. split.
  - intros st Hr. apply (inv_queue st), reachable_Inv, Hr.
  - intros now name st Hmiss Hpend Hfull. unfold getLocation.
    pose proof (cacheCheck_frame now name st) as Hf. simpl in Hf.
    destruct Hf as (Hq & Hp & _ & Hposted).
    assert (Hlp : locationPromises (fst (cacheCheck now name st))
                  = locationPromises st).
    { unfold cacheCheck. repeat case_match; done. }
    destruct (cacheCheck now name st) as [st1 hit]. cbn [fst snd] in *.
    subst hit. rewrite Hp, Hpend, Hq.
    apply Nat.leb_le in Hfull. rewrite Hfull. cbn [fst snd].
    by rewrite Hq, Hp, Hlp, Hposted.
Qed.

Lemma queue_never_exceeds_max_witness :
  let st := with_requestQueue
              (replicate 50 {| screenName := "bob"; promise := 0 |})
              initialState in
  snd (getLocation 0 "alice" st) = Returned nullInfo
  /\ length (requestQueue (fst (getLocation 0 "alice" st))) = 50%nat.
Proof.
  destruct queue_never_exceeds_max as (_ & _ & H).
  set (st := with_requestQueue
               (replicate 50 {| screenName := "bob"; promise := 0 |})
               initialState).
  destruct (H 0 "alice" st) as (Hr & Hq & _).
  - vm_compute. reflexivity.
  - vm_compute. reflexivity.
  - vm_compute. lia.
  - split; [exact Hr |]. rewrite Hq. vm_compute. reflexivity.
Defined.

(** ** The TTL cache (C3) *)

Lemma getLocation_after_eviction (now : Z) (name : string) (st : State) :
  locationCache (fst (getLocation now name st)) !! name
  = locationCache (fst (cacheCheck now name st)) !! name.
Proof.
  unfold getLocation.
  destruct (cacheCheck now name st) as [st1 [loc |]]; [done |]. cbn [fst].
  destruct (pendingLocationRequests st1 !! name); [done |].
  destruct (MAX_QUEUE_SIZE <=? length (requestQueue st1))%nat; [done |].
  pose proof (enqueueRequest_frame now name st1) as Hf. cbv zeta in Hf.
  destruct Hf as (Hc & _).
  destruct (enqueueRequest now name st1) as [st2 p]. cbn [fst] in *.
  by rewrite Hc.
Qed.

(** C3. After [saveCacheEntry] has stored [v] for [k] at time [now] (the
    extension context being valid, the clock not before the epoch), the
    entry expires at [calculateExpiry v now]. A cache check at any [now']
    strictly before that hits with [v] and changes nothing, so
    [getLocation] answers from the cache; at any [now'] at or after it the
    check misses and deletes the entry, and [getLocation] does not answer
    with the stored value. *)
Theorem cache_put_then_get (st : State) (k : string) (v : option string)
    (now now' : Z) (Hnow : 0 <= now) :
  let st1 := saveCacheEntry true now k v st in
  locationCache st1 !! k
  = Some {| entry_location := v;
            entry_expiry := calculateExpiry v now;
            entry_cachedAt := Some now |}
  /\ (now' < calculateExpiry v now ->
      cacheCheck now' k st1 = (st1, Some v)
      /\ getLocation now' k st1 = (st1, Returned (createLocationInfo v)))
  /\ (calculateExpiry v now <= now' ->
      snd (cacheCheck now' k st1) = None
      /\ locationCache (fst (cacheCheck now' k st1)) !! k = None
      /\ locationCache (fst (getLocation now' k st1)) !! k = None
      /\ forall info, snd (getLocation now' k st1) = Returned info ->
                      info = nullInfo).
Proof.
  cbn zeta.
  assert (Hentry : locationCache (saveCacheEntry true now k v st) !! k
                   = Some {| entry_location := v;
                             entry_expiry := calculateExpiry v now;
                             entry_cachedAt := Some now |}).
  { rewrite saveCacheEntry_cache. apply lookup_insert_eq. }
  assert (Hpos : calculateExpiry v now <> 0).
  { unfold calculateExpiry, NULL_CACHE_EXPIRY_DAYS, CACHE_EXPIRY_DAYS.
    destruct v; lia. }
  split; [exact Hentry |]. split.
  - intros Hlt.
    assert (Hcheck : cacheCheck now' k (saveCacheEntry true now k v st)
                     = (saveCacheEntry true now k v st, Some v)).
    { unfold cacheCheck. rewrite Hentry. unfold isFresh.
      cbn [entry_expiry entry_location].
      apply Z.eqb_neq in Hpos. rewrite Hpos.
      apply Z.ltb_lt in Hlt. rewrite Hlt. reflexivity. }
    split; [exact Hcheck |]. unfold getLocation. by rewrite Hcheck.
  - intros Hge.
    assert (Hcheck : cacheCheck now' k (saveCacheEntry true now k v st)
                     = (with_locationCache
                          (delete k (locationCache
                                       (saveCacheEntry true now k v st)))
                          (saveCacheEntry true now k v st), None)).
    { unfold cacheCheck. rewrite Hentry. unfold isFresh.
      cbn [entry_expiry entry_location].
      apply Z.ltb_ge in Hge. rewrite Hge. by rewrite andb_false_r. }
    split; [by rewrite Hcheck |].
    assert (Hgone : locationCache
                      (fst (cacheCheck now' k
                              (saveCacheEntry true now k v st))) !! k = None).
    { rewrite Hcheck. cbn [fst]. st_simpl. apply lookup_delete_eq. }
    split; [exact Hgone |].
    split; [by rewrite getLocation_after_eviction |].
    intros info. unfold getLocation. rewrite Hcheck.
    repeat case_match; try done. by intros [= <-].
Qed.

Lemma cache_put_then_get_witness :
  snd (getLocation 86400000 "alice"
         (saveCacheEntry true 0 "alice" (Some "France") initialState))
  = Returned (createLocationInfo (Some "France"))
  /\ locationCache
       (fst (getLocation 86400000 "bob"
               (saveCacheEntry true 0 "bob" None initialState))) !! "bob"
     = None.
Proof.
  split.
  - assert (H0 : 0 <= 0) by lia.
    destruct (cache_put_then_get initialState "alice" (Some "France")
                0 86400000 H0) as (_ & Hhit & _).
    destruct Hhit as (_ & Hget); [vm_compute; reflexivity |].
    rewrite Hget. reflexivity.
  - assert (H0 : 0 <= 0) by lia.
    destruct (cache_put_then_get initialState "bob" None 0 86400000 H0)
      as (_ & _ & Hmiss).
    destruct Hmiss as (_ & _ & Hgone & _); [vm_compute; discriminate |].
    exact Hgone.
Defined.

(** ** The rate-limit window in the drain (C6) *)







(** ** Effects of the drain continuation *)

Lemma drainLoop_requests (now : Z) (st : State) (q : nat) :
  (q < nextId st)%nat ->
  requestPromises (drainLoop now st) !! q = requestPromises st !! q.
Proof.
  intros Hq. unfold drainLoop, dispatchHead, makeLocationRequest.
  repeat case_match; st_simpl; try done.
  rewrite lookup_insert_ne; [done | lia].
Qed.

Lemma drainLoop_handlers (now : Z) (st : State) (q : nat) :
  (q < nextId st)%nat ->
  messageHandlers (drainLoop now st) !! q = messageHandlers st !! q.
Proof.
  intros Hq. unfold drainLoop, dispatchHead, makeLocationRequest.
  repeat case_match; st_simpl; try done.
  rewrite lookup_insert_ne; [done | lia].
Qed.

Lemma resumeDrain_handlers (now : Z) (st : State) (q : nat) :
  (q < nextId st)%nat ->
  messageHandlers (resumeDrain now st) !! q = messageHandlers st !! q.
Proof.
  intros Hq. unfold resumeDrain, drainFinally, taskResolve, taskReject.
  repeat case_match; try done; by rewrite drainLoop_handlers.
Qed.

Lemma drainFinally_frame (now : Z) (st : State) :
  let st' := drainFinally now st in
  locationCache st' = locationCache st
  /\ locationStats st' = locationStats st
  /\ pendingLocationRequests st' = pendingLocationRequests st
  /\ locationPromises st' = locationPromises st.
Proof.
  unfold drainFinally. cbv zeta.
  match goal with |- context [drainLoop now ?s] =>
    pose proof (drainLoop_frame now s) as Hf end.
  cbv zeta in Hf. destruct Hf as (-> & -> & -> & -> & _). done.
Qed.

Lemma resumeDrain_frame (now : Z) (st : State) :
  let st' := resumeDrain now st in
  locationCache st' = locationCache st
  /\ locationStats st' = locationStats st
  /\ (forall name, pendingLocationRequests st !! name = None ->
                   pendingLocationRequests st' !! name = None)
  /\ (forall q, (q < nextId st)%nat ->
                requestPromises st' !! q = requestPromises st !! q).
Proof.
  unfold resumeDrain. cbv zeta.
  destruct (drain st) as [| | t requestId]; try done.
  destruct (requestPromises st !! requestId) as [[| loc | err]|]; try done.
  - match goal with |- context [drainFinally now ?s] =>
      pose proof (drainFinally_frame now s) as Hf; set (s1 := s) in * end.
    cbv zeta in Hf. destruct Hf as (Hc & Hs & Hp & _).
    rewrite Hc, Hs, Hp.
    split; [| split; [| split]].
    + subst s1. by destruct (0 <? consecutiveRateLimits st)%nat.
    + subst s1. by destruct (0 <? consecutiveRateLimits st)%nat.
    + intros name Hn. subst s1. unfold taskResolve. st_simpl.
      destruct (decide (screenName t = name)) as [<- | Hne];
        [apply lookup_delete_eq | rewrite lookup_delete_ne by done].
      by destruct (0 <? consecutiveRateLimits st)%nat.
    + intros q Hq. unfold drainFinally. rewrite drainLoop_requests.
      * subst s1. by destruct (0 <? consecutiveRateLimits st)%nat.
      * subst s1. by destruct (0 <? consecutiveRateLimits st)%nat.
  - match goal with |- context [drainFinally now ?s] =>
      pose proof (drainFinally_frame now s) as Hf; set (s1 := s) in * end.
    cbv zeta in Hf. destruct Hf as (Hc & Hs & Hp & _).
    rewrite Hc, Hs, Hp.
    split; [done | split; [done | split]].
    + intros name Hn. subst s1. unfold taskReject. st_simpl.
      destruct (decide (screenName t = name)) as [<- | Hne];
        [apply lookup_delete_eq | by rewrite lookup_delete_ne by done].
    + intros q Hq. unfold drainFinally. by rewrite drainLoop_requests.
Qed.

(** Under the invariant the continuation never rejects a task. *)
Lemma resumeDrain_rejection (now : Z) (st : State) (p : nat) (e : string) :
  Inv st ->
  locationPromises (resumeDrain now st) !! p = Some (Rejected e) ->
  locationPromises st !! p = Some (Rejected e).
Proof.
  intros H. unfold resumeDrain.
  destruct (drain st) as [| | t requestId]; try done.
  destruct (requestPromises st !! requestId) as [[| loc | err]|] eqn:Hp;
    try done.
  - match goal with |- context [drainFinally now ?s] =>
      pose proof (drainFinally_frame now s) as Hf end.
    cbv zeta in Hf. destruct Hf as (_ & _ & _ & ->).
    unfold taskResolve. st_simpl. rewrite lookup_resolveIn.
    destruct (0 <? consecutiveRateLimits st)%nat; st_simpl;
      (case_decide; [subst p |]; [| done]);
      by destruct (locationPromises st !! promise t) as [[]|].
  - by destruct (inv_request_not_rejected st H requestId err).
Qed.

Lemma rejectAll_rejection (queue : list QueuedTask) :
  forall (st : State) (p : nat) (e : string),
    locationPromises
      (fold_left (fun s t => taskReject t "Rate limited" s) queue st) !! p
    = Some (Rejected e) ->
    locationPromises st !! p = Some (Rejected e) \/ e = "Rate limited".
Proof.
  induction queue as [| a queue IH]; intros st p e Hp; [by left |].
  simpl in Hp. apply IH in Hp as [Hp | Hp]; [| by right].
  unfold taskReject in Hp. st_simpl. rewrite lookup_rejectIn in Hp.
  case_decide; [subst p |]; [| by left].
  destruct (locationPromises st !! promise a) as [[]|]; try by left.
  right. congruence.
Qed.

(** A call of [processRequestQueue] rejects a task only by the purge. *)
Lemma processRequestQueue_rejection (now : Z) (st : State) (p : nat)
    (e : string) :
  (forall e', locationPromises st !! p <> Some (Rejected e')) ->
  locationPromises (processRequestQueue now st) !! p = Some (Rejected e) ->
  e = "Rate limited"
  /\ isRateLimited now st = true
  /\ requestQueue (processRequestQueue now st) = [].
Proof.
  intros Hnot. unfold processRequestQueue.
  destruct (isProcessingQueue st || (length (requestQueue st) =? 0)%nat).
  { intros Hp. by destruct (Hnot e). }
  destruct (isRateLimited now st).
  - unfold rejectQueued. st_simpl. intros Hp.
    apply rejectAll_rejection in Hp as [Hp | Hp]; [by destruct (Hnot e) |].
    done.
  - match goal with |- context [drainLoop now ?s] =>
      pose proof (drainLoop_frame now s) as Hf end.
    cbv zeta in Hf. destruct Hf as (_ & _ & _ & -> & _).
    intros Hp. destruct (Hnot e).
    by destruct (0 <? rateLimitResetTime st).
Qed.

(** ** Timeouts and rate-limited answers are not cached (C4) *)

Lemma onRequestTimeout_effect (now : Z) (requestId : nat) (name : string)
    (st : State) :
  let st' := onRequestTimeout now requestId name st in
  locationCache st' = locationCache st
  /\ locationStats st' = locationStats st
  /\ pendingLocationRequests st' !! name = None
  /\ ((requestId < nextId st)%nat ->
      requestPromises st !! requestId = Some Pending ->
      requestPromises st' !! requestId = Some (Resolved None)).
Proof.
  unfold onRequestTimeout. cbv zeta.
  match goal with |- context [resumeDrain now ?s] =>
    pose proof (resumeDrain_frame now s) as Hf end.
  cbv zeta in Hf. destruct Hf as (Hc & Hs & Hp & Hq). st_simpl.
  split; [done |]. split; [done |]. split.
  - apply Hp. apply lookup_delete_eq.
  - intros Hid Hpend. rewrite Hq by done.
    rewrite lookup_resolveIn. case_decide; [| done]. by rewrite Hpend.
Qed.


(** The event of a request timeout. *)
Lemma timeout_event_effect (st : State) (ctx : bool) (now d : Z)
    (i requestId : nat) (name : string) :
  timers st !! i = Some (TRequestTimeout d requestId name) ->
  let st' := step ctx now (EvTimer i) st in
  locationCache st' = locationCache st
  /\ pendingLocationRequests st' !! name = None
  /\ (Inv st ->
      requestPromises st !! requestId = Some Pending ->
      requestPromises st' !! requestId = Some (Resolved None)
      /\ messageHandlers st' !! requestId = None).
Proof.
  intros Hi. cbn [step]. unfold fireTimer. rewrite Hi.
  match goal with |- context [onRequestTimeout now requestId name ?s] =>
    pose proof (onRequestTimeout_effect now requestId name s) as Hf end.
  cbv zeta in Hf. destruct Hf as (Hc & _ & Hp & Hq).
  cbv zeta. split; [exact Hc |]. split; [exact Hp |].
  intros HInv Hpend.
  assert (Hid : (requestId < nextId st)%nat).
  { apply (inv_request_ids st HInv). by rewrite Hpend. }
  split; [by apply Hq |].
  unfold onRequestTimeout. rewrite resumeDrain_handlers by exact Hid.
  st_simpl. apply lookup_delete_eq.
Qed.



(** ** Requests are only resolved (C10) *)

(** C10. In every reachable state no promise made by [makeLocationRequest]
    is rejected. A request that is still waiting has its timeout timer
    scheduled, and when that timer fires the promise is resolved with
    [null]; when its response arrives first the promise is resolved with the
    reported location, or [null] for an empty one. Consequently an event
    rejects the promise of a queued task only by the purge of
    [processRequestQueue]: the rate limit is then active, the error is 'Rate
    limited' and the queue is left empty. *)
Theorem makeLocationRequest_only_resolves (st : State) (Hr : reachable st) :
  (forall q e, requestPromises st !! q <> Some (Rejected e))
  /\ (forall q, requestPromises st !! q = Some Pending ->
        exists i name,
          timers st !! i = Some (TRequestTimeout REQUEST_TIMEOUT q name)
          /\ forall ctx now,
               requestPromises (step ctx now (EvTimer i) st) !! q
               = Some (Resolved None))
  /\ (forall ctx now name q loc limited,
        messageHandlers st !! q = Some name ->
        requestPromises st !! q = Some Pending ->
        requestPromises
          (step ctx now (EvLocationResponse name q loc limited) st) !! q
        = Some (Resolved (orNull loc)))
  /\ (forall ctx now ev p e,
        (forall e', locationPromises st !! p <> Some (Rejected e')) ->
        locationPromises (step ctx now ev st) !! p = Some (Rejected e) ->
        e = "Rate limited"
        /\ isRateLimited now st = true
        /\ requestQueue (step ctx now ev st) = []).
Proof.
  pose proof (reachable_Inv st Hr) as HInv.
  split; [apply (inv_request_not_rejected st HInv) |].
  split; [| split].
  - intros q Hq.
    destruct (inv_pending_timer st HInv q Hq) as [name Hin].
    apply list_elem_of_lookup in Hin as [i Hi]. exists i, name.
    split; [exact Hi |]. intros ctx now.
    destruct (timeout_event_effect st ctx now _ i q name Hi)
      as (_ & _ & Hres).
    by apply Hres.
  - intros ctx now name q loc limited Hh Hq. cbn [step].
    unfold onLocationResponse. rewrite Hh, String.eqb_refl.
    match goal with |- context [resumeDrain now ?s] =>
      pose proof (resumeDrain_frame now s) as Hf end.
    cbv zeta in Hf. destruct Hf as (_ & _ & _ & Hsame).
    rewrite Hsame.
    + st_simpl. rewrite lookup_resolveIn. case_decide; [| done].
      assert (Hkeep : forall s : State,
                requestPromises
                  (if negb limited
                   then saveCacheEntry ctx now name (orNull loc) s else s)
                = requestPromises s).
      { intros s. destruct limited; [done |]. cbn [negb].
        unfold saveCacheEntry, updateStats. repeat case_match; done. }
      rewrite Hkeep. st_simpl. by rewrite Hq.
    + st_simpl.
      assert (Hkeep : forall s : State,
                nextId
                  (if negb limited
                   then saveCacheEntry ctx now name (orNull loc) s else s)
                = nextId s).
      { intros s. destruct limited; [done |]. cbn [negb].
        unfold saveCacheEntry, updateStats. repeat case_match; done. }
      rewrite Hkeep. st_simpl.
      apply (inv_request_ids st HInv). by rewrite Hq.
  - intros ctx now ev p e Hnot Hrej.
    destruct ev as [name | resetTime | name q loc limited | i | name loc | |];
      cbn [step] in *.
    + (* getLocation *)
      revert Hrej. unfold getLocation.
      assert (Hlp : locationPromises (fst (cacheCheck now name st))
                    = locationPromises st
                    /\ rateLimitResetTime (fst (cacheCheck now name st))
                       = rateLimitResetTime st).
      { unfold cacheCheck. repeat case_match; done. }
      destruct (cacheCheck now name st) as [st1 [hit |]]; cbn [fst] in *;
        destruct Hlp as (Hlp & Hrl).
      { rewrite Hlp. intros Hp. by destruct (Hnot e). }
      destruct (pendingLocationRequests st1 !! name).
      { cbn [fst]. rewrite Hlp. intros Hp. by destruct (Hnot e). }
      destruct (MAX_QUEUE_SIZE <=? length (requestQueue st1))%nat.
      { cbn [fst]. rewrite Hlp. intros Hp. by destruct (Hnot e). }
      unfold enqueueRequest. cbn [fst]. st_simpl.
      match goal with |- context [processRequestQueue now ?s] =>
        set (st2 := s) end.
      intros Hp.
      assert (Hnot2 : forall e', locationPromises st2 !! p
                                 <> Some (Rejected e')).
      { intros e'. subst st2. st_simpl.
        destruct (decide (nextId st1 = p)) as [<- | Hne].
        - by rewrite lookup_insert_eq.
        - rewrite lookup_insert_ne by done. rewrite Hlp. apply Hnot. }
      destruct (processRequestQueue_rejection now st2 p e Hnot2 Hp)
        as (He & Hlim & Hq).
      split; [exact He |]. split; [| exact Hq].
      revert Hlim. unfold isRateLimited. subst st2. st_simpl.
      by rewrite Hrl.
    + by destruct (Hnot e).
    + (* a response *)
      revert Hrej. unfold onLocationResponse.
      destruct (messageHandlers st !! q) as [name' |];
        [| intros Hp; by destruct (Hnot e)].
      destruct (String.eqb name' name); [| intros Hp; by destruct (Hnot e)].
      intros Hp. apply resumeDrain_rejection in Hp.
      * st_simpl.
        assert (Hkeep : locationPromises
                  (if negb limited
                   then saveCacheEntry ctx now name (orNull loc)
                          (with_messageHandlers
                             (delete q (messageHandlers st)) st)
                   else with_messageHandlers
                          (delete q (messageHandlers st)) st)
                = locationPromises st).
        { destruct limited; [done |]. cbn [negb].
          unfold saveCacheEntry, updateStats. repeat case_match; done. }
        rewrite Hkeep in Hp. by destruct (Hnot e).
      * apply Inv_resolve_request.
        pose proof (Inv_drop_handler q st HInv) as H1.
        destruct limited; [done |]. by apply Inv_saveCacheEntry.
    + (* a timer *)
      revert Hrej. unfold fireTimer.
      destruct (timers st !! i) as [tm |] eqn:Hi;
        [| intros Hp; by destruct (Hnot e)].
      destruct tm as [d | d | d requestId name | d].
      * intros Hp.
        apply processRequestQueue_rejection in Hp; [| exact Hnot].
        exact Hp.
      * unfold onWake. st_simpl.
        destruct (drain st); try (intros Hp; by destruct (Hnot e)).
        unfold dispatchHead, makeLocationRequest.
        repeat case_match; st_simpl; intros Hp; by destruct (Hnot e).
      * intros Hp.
        unfold onRequestTimeout in Hp.
        apply resumeDrain_rejection in Hp; [by destruct (Hnot e) |].
        apply (Inv_timeout_settled d i requestId name st HInv Hi).
      * st_simpl. intros Hp. by destruct (Hnot e).
    + revert Hrej. unfold updateStats.
      repeat case_match; st_simpl; intros Hp; by destruct (Hnot e).
    + by destruct (Hnot e).
    + by destruct (Hnot e).
Qed.

Lemma makeLocationRequest_only_resolves_witness :
  let st := fst (getLocation 5000 "bob" initialState) in
  requestPromises st !! 1%nat = Some Pending
  /\ exists i name,
       timers st !! i = Some (TRequestTimeout 10000 1 name)
       /\ requestPromises (step true 15000 (EvTimer i) st) !! 1%nat
          = Some (Resolved None).
Proof.
  set (st := fst (getLocation 5000 "bob" initialState)).
  assert (Hr : reachable st).
  { exact (reachable_step true 5000 (EvGetLocation "bob") initialState
             reachable_init). }
  assert (Hp : requestPromises st !! 1%nat = Some Pending)
    by (vm_compute; reflexivity).
  split; [exact Hp |].
  destruct (makeLocationRequest_only_resolves st Hr) as (_ & Htimer & _).
  destruct (Htimer 1%nat Hp) as (i & name & Hi & Hres).
  exists i, name. split; [exact Hi | apply Hres].
Defined.

(** ** The statistics against the cache (C8) *)

(** C8, as stated, fails: the entry of a key expires and is evicted by a
    read, or is overwritten with another location, and the count of the old
    location stays at 1 while no live entry holds it. *)
Lemma stats_not_decremented :
  let month := 30 * 86400000 in
  let st1 := saveCacheEntry true 0 "alice" (Some "France") initialState in
  let st2 := fst (getLocation month "alice" st1) in
  let st3 := saveCacheEntry true 1000 "alice" (Some "Germany") st1 in
  (statsCount "France" st1 = 1%nat /\ liveCount "France" 0 st1 = 1%nat)
  /\ (locationCache st2 !! "alice" = None
      /\ statsCount "France" st2 = 1%nat
      /\ liveCount "France" month st2 = 0%nat)
  /\ (statsCount "France" st3 = 1%nat
      /\ liveCount "France" 1000 st3 = 0%nat).
Proof. vm_compute. repeat split; reflexivity. Qed.

Lemma statsCover_ext (st st' : State) :
  locationCache st' = locationCache st ->
  locationStats st' = locationStats st ->
  statsCover st -> statsCover st'.
Proof. unfold statsCover. intros -> ->. done. Qed.

(** The set of a location after [updateStats]. *)
Lemma updateStats_lookup (username loc v : string) (st : State) :
  default (∅ : gset string) (locationStats (updateStats username loc st) !! v)
  = if decide (loc = v /\ loc <> "")
    then default ∅ (locationStats st !! loc) ∪ {[username]}
    else default ∅ (locationStats st !! v).
Proof.
  unfold updateStats. cbn [truthy].
  destruct (String.eqb_spec loc "") as [Hempty | Hne]; cbn [negb].
  { case_decide as H; [by destruct H | done]. }
  assert (Hset : forall stats1 : gmap string (gset string),
            default ∅ (stats1 !! loc) = default ∅ (locationStats st !! loc) ->
            (forall w, w <> loc -> stats1 !! w = locationStats st !! w) ->
            default (∅ : gset string)
              (locationStats
                 (if bool_decide (username ∈ default ∅ (stats1 !! loc))
                  then with_locationStats stats1 st
                  else with_locationStats
                         (<[loc := default ∅ (stats1 !! loc) ∪ {[username]}]>
                            stats1) st) !! v)
            = if decide (loc = v /\ loc <> "")
              then default ∅ (locationStats st !! loc) ∪ {[username]}
              else default ∅ (locationStats st !! v)).
  { intros stats1 Hsame Hother. case_bool_decide as Hin; st_simpl.
    - case_decide as H.
      + destruct H as [<- _]. rewrite Hsame in Hin |- *.
        apply set_eq. intros x. rewrite elem_of_union, elem_of_singleton.
        split; [by left | by intros [? | ->]].
      + destruct (decide (loc = v)) as [<- | Hv]; [by destruct H |].
        by rewrite Hother.
    - case_decide as H.
      + destruct H as [<- _]. rewrite lookup_insert_eq. simpl.
        by rewrite Hsame.
      + destruct (decide (loc = v)) as [<- | Hv]; [by destruct H |].
        rewrite lookup_insert_ne by done. by rewrite Hother. }
  destruct (locationStats st !! loc) as [s |] eqn:Hl.
  - apply Hset; [by rewrite Hl | done].
  - apply Hset.
    + by rewrite lookup_insert_eq.
    + intros w Hw. by rewrite lookup_insert_ne.
Qed.

Lemma updateStats_grows (username loc v k : string) (st : State) :
  k ∈ default (∅ : gset string) (locationStats st !! v) ->
  k ∈ default (∅ : gset string)
        (locationStats (updateStats username loc st) !! v).
Proof.
  rewrite updateStats_lookup. case_decide as H; [| done].
  destruct H as [<- _]. intros Hk. apply elem_of_union. by left.
Qed.

Lemma updateStats_cache (username loc : string) (st : State) :
  locationCache (updateStats username loc st) = locationCache st.
Proof. unfold updateStats. repeat case_match; done. Qed.

Lemma saveCacheEntry_stats (now : Z) (username : string)
    (loc : option string) (st : State) :
  locationStats (saveCacheEntry true now username loc st)
  = match loc with
    | Some l => locationStats (updateStats username l st)
    | None => locationStats st
    end.
Proof.
  unfold saveCacheEntry. cbn [negb].
  assert (Hu : forall l cache,
            locationStats (updateStats username l
                             (with_locationCache cache st))
            = locationStats (updateStats username l st)).
  { intros l cache. unfold updateStats. st_simpl.
    repeat case_match; st_simpl; done. }
  destruct loc as [l |]; case_match;
    cbn [locationStats with_saveCacheTimeout with_timers with_locationCache];
    rewrite ?Hu; done.
Qed.

Lemma statsCover_updateStats (username loc : string) (st : State) :
  statsCover st -> statsCover (updateStats username loc st).
Proof.
  intros H k e v Hk He Hv. rewrite updateStats_cache in Hk.
  apply updateStats_grows. eauto.
Qed.

Lemma statsCover_saveCacheEntry (ctx : bool) (now : Z) (username : string)
    (loc : option string) (st : State) :
  statsCover st -> statsCover (saveCacheEntry ctx now username loc st).
Proof.
  intros H. destruct ctx; [| done]. intros k e v.
  rewrite saveCacheEntry_cache, saveCacheEntry_stats.
  destruct (decide (username = k)) as [<- | Hne].
  - rewrite lookup_insert_eq. intros [= <-]. cbn [entry_location].
    intros -> Hv. rewrite updateStats_lookup.
    case_decide as Hd; [| by destruct Hd].
    apply elem_of_union. right. by apply elem_of_singleton.
  - rewrite lookup_insert_ne by done. intros Hk He Hv.
    destruct loc as [l |]; [apply updateStats_grows |]; eauto.
Qed.

Lemma getLocation_cache_stats (now : Z) (name : string) (st : State) :
  locationStats (fst (getLocation now name st)) = locationStats st
  /\ forall k e, locationCache (fst (getLocation now name st)) !! k = Some e ->
                 locationCache st !! k = Some e.
Proof.
  assert (Hcheck : locationStats (fst (cacheCheck now name st))
                   = locationStats st
                   /\ forall k e,
                        locationCache (fst (cacheCheck now name st)) !! k
                        = Some e ->
                        locationCache st !! k = Some e).
  { unfold cacheCheck. repeat case_match; st_simpl; try done.
    split; [done |]. intros k e. rewrite lookup_delete_Some. by intros []. }
  unfold getLocation.
  destruct (cacheCheck now name st) as [st1 [hit |]]; cbn [fst] in *;
    [done |].
  destruct (pendingLocationRequests st1 !! name); [done |].
  destruct (MAX_QUEUE_SIZE <=? length (requestQueue st1))%nat; [done |].
  pose proof (enqueueRequest_frame now name st1) as Hf. cbv zeta in Hf.
  destruct (enqueueRequest now name st1) as [st2 p]. cbn [fst] in *.
  destruct Hf as (-> & ->). done.
Qed.

Lemma dispatchHead_frame (now : Z) (st : State) :
  locationCache (dispatchHead now st) = locationCache st
  /\ locationStats (dispatchHead now st) = locationStats st.
Proof.
  unfold dispatchHead, makeLocationRequest. repeat case_match; done.
Qed.

(** Every event except [resetStats] keeps the cover. *)
Lemma statsCover_step (ctx : bool) (now : Z) (ev : Event) (st : State) :
  ev <> EvResetStats -> statsCover st -> statsCover (step ctx now ev st).
Proof.
  intros Hev H.
  destruct ev as [name | resetTime | name q loc limited | i | name loc | |];
    cbn [step]; [| done | | | by apply statsCover_updateStats | done | done].
  - destruct (getLocation_cache_stats now name st) as (Hs & Hc).
    intros k e v Hk. rewrite Hs. eauto.
  - unfold onLocationResponse.
    destruct (messageHandlers st !! q) as [name' |]; [| done].
    destruct (String.eqb name' name); [| done].
    match goal with |- context [resumeDrain now ?s] =>
      pose proof (resumeDrain_frame now s) as Hf end.
    cbv zeta in Hf. destruct Hf as (Hc & Hs & _).
    eapply statsCover_ext; [exact Hc | exact Hs |].
    st_simpl. eapply statsCover_ext; [reflexivity | reflexivity |].
    destruct limited; cbn [negb]; [done |].
    by apply statsCover_saveCacheEntry.
  - unfold fireTimer. destruct (timers st !! i) as [tm |]; [| done].
    destruct tm as [d | d | d requestId name | d].
    + match goal with |- context [processRequestQueue now ?s] =>
        pose proof (processRequestQueue_frame now s) as Hf end.
      cbv zeta in Hf. destruct Hf as (Hc & Hs).
      by eapply statsCover_ext.
    + unfold onWake. st_simpl. destruct (drain st); try done.
      match goal with |- context [dispatchHead now ?s] =>
        pose proof (dispatchHead_frame now s) as Hf end.
      destruct Hf as (Hc & Hs). by eapply statsCover_ext.
    + match goal with |- context [onRequestTimeout now requestId name ?s] =>
        pose proof (onRequestTimeout_effect now requestId name s) as Hf end.
      cbv zeta in Hf. destruct Hf as (Hc & Hs & _).
      by eapply statsCover_ext.
    + done.
Qed.

(** No event except [resetStats] takes a key out of a set. *)
Lemma stats_grow_step (ctx : bool) (now : Z) (ev : Event) (st : State)
    (w x : string) :
  ev <> EvResetStats ->
  x ∈ default (∅ : gset string) (locationStats st !! w) ->
  x ∈ default (∅ : gset string) (locationStats (step ctx now ev st) !! w).
Proof.
  intros Hev Hx.
  destruct ev as [name | resetTime | name q loc limited | i | name loc | |];
    cbn [step]; [| done | | | by apply updateStats_grows | done | done].
  - destruct (getLocation_cache_stats now name st) as (-> & _). done.
  - unfold onLocationResponse.
    destruct (messageHandlers st !! q) as [name' |]; [| done].
    destruct (String.eqb name' name); [| done].
    match goal with |- context [resumeDrain now ?s] =>
      pose proof (resumeDrain_frame now s) as Hf end.
    cbv zeta in Hf. destruct Hf as (_ & -> & _). st_simpl.
    destruct limited; cbn [negb]; [done |].
    destruct ctx; [| done]. rewrite saveCacheEntry_stats.
    destruct (orNull loc) as [l |]; [by apply updateStats_grows | done].
  - unfold fireTimer. destruct (timers st !! i) as [tm |]; [| done].
    destruct tm as [d | d | d requestId name | d].
    + match goal with |- context [processRequestQueue now ?s] =>
        pose proof (processRequestQueue_frame now s) as Hf end.
      cbv zeta in Hf. destruct Hf as (_ & ->). done.
    + unfold onWake. st_simpl. destruct (drain st); try done.
      match goal with |- context [dispatchHead now ?s] =>
        pose proof (dispatchHead_frame now s) as Hf end.
      destruct Hf as (_ & ->). done.
    + match goal with |- context [onRequestTimeout now requestId name ?s] =>
        pose proof (onRequestTimeout_effect now requestId name s) as Hf end.
      cbv zeta in Hf. destruct Hf as (_ & -> & _). done.
    + done.
Qed.

(** Under the cover the count bounds the number of live keys. *)
Lemma statsCover_count (v : string) (now : Z) (st : State) :
  statsCover st -> v <> "" -> (liveCount v now st <= statsCount v st)%nat.
Proof.
  intros H Hv. unfold liveCount, statsCount. apply subseteq_size.
  intros k Hk. unfold liveKeys in Hk.
  apply elem_of_dom in Hk as [e He].
  apply map_lookup_filter_Some in He as (He & Hloc & _). cbn in Hloc.
  by apply (H k e v).
Qed.

(** *** Rebuilding the statistics in [loadCache] *)

Lemma loadEntry_effect (now : Z) (st : State) (k0 : string)
    (d : PersistedEntry) :
  let st' := loadEntry now st (k0, d) in
  if negb (data_expiry d =? 0) && (now <? data_expiry d)
  then locationCache st'
       = <[k0 := {| entry_location := data_location d;
                    entry_expiry := data_expiry d;
                    entry_cachedAt := None |}]> (locationCache st)
       /\ forall v,
            default (∅ : gset string) (locationStats st' !! v)
            = if decide (data_location d = Some v)
              then default ∅ (locationStats st !! v) ∪ {[k0]}
              else default ∅ (locationStats st !! v)
  else st' = st.
Proof.
  cbv zeta. unfold loadEntry.
  destruct (negb (data_expiry d =? 0) && (now <? data_expiry d)); [| done].
  destruct (data_location d) as [l |]; st_simpl.
  - split; [done |]. intros v.
    destruct (decide (l = v)) as [<- | Hne].
    + rewrite lookup_insert_eq. cbn [default id].
      rewrite decide_True by done.
      destruct (locationStats st !! l) eqn:Hl;
        rewrite ?Hl, ?lookup_insert_eq; done.
    + rewrite lookup_insert_ne by done.
      rewrite decide_False by congruence.
      destruct (locationStats st !! l); [done |].
      by rewrite lookup_insert_ne.
  - split; [done |]. intros v. by rewrite decide_False.
Qed.

Lemma statsExact_loadEntry (now : Z) (st : State) (k0 : string)
    (d : PersistedEntry) :
  statsExact now st -> locationCache st !! k0 = None ->
  statsExact now (loadEntry now st (k0, d)).
Proof.
  intros [Hfresh Hexact] Hnew.
  pose proof (loadEntry_effect now st k0 d) as Heff. cbv zeta in Heff.
  destruct (negb (data_expiry d =? 0) && (now <? data_expiry d)) eqn:Hd;
    [| by rewrite Heff].
  destruct Heff as (Hc & Hs). split.
  - intros k e. rewrite Hc.
    destruct (decide (k0 = k)) as [<- | Hne].
    + rewrite lookup_insert_eq. intros [= <-]. exact Hd.
    + rewrite lookup_insert_ne by done. apply Hfresh.
  - intros v k. rewrite Hs, Hc.
    destruct (decide (k0 = k)) as [<- | Hne].
    + rewrite lookup_insert_eq. case_decide as Hv.
      * split; [eauto |]. intros _. apply elem_of_union. right.
        by apply elem_of_singleton.
      * split.
        -- intros Hin. apply Hexact in Hin as (e & He & _). congruence.
        -- intros (e & [= <-] & He). done.
    + rewrite lookup_insert_ne by done. rewrite <- Hexact.
      case_decide; [| done].
      rewrite elem_of_union, elem_of_singleton.
      split; [by intros [? | ?] | by left].
Qed.

Lemma statsExact_fold (now : Z) (entries : list (string * PersistedEntry)) :
  forall st : State,
    NoDup entries.*1 ->
    (forall k, k ∈ entries.*1 -> locationCache st !! k = None) ->
    statsExact now st ->
    statsExact now (fold_left (loadEntry now) entries st).
Proof.
  induction entries as [| [k0 d] entries IH]; intros st Hnd Hnew Hex;
    [done |].
  cbn [fold_left]. cbn [fmap list_fmap fst] in Hnd, Hnew.
  apply NoDup_cons in Hnd as [Hk0 Hnd].
  apply IH; [done | |].
  - intros k Hk.
    pose proof (loadEntry_effect now st k0 d) as Heff. cbv zeta in Heff.
    destruct (negb (data_expiry d =? 0) && (now <? data_expiry d)).
    + destruct Heff as (-> & _).
      rewrite lookup_insert_ne; [| by intros ->].
      apply Hnew. by right.
    + rewrite Heff. apply Hnew. by right.
  - apply statsExact_loadEntry; [done |]. apply Hnew. by left.
Qed.

Lemma statsExact_count (now : Z) (st : State) (v : string) :
  statsExact now st -> statsCount v st = liveCount v now st.
Proof.
  intros [Hfresh Hexact]. unfold statsCount, liveCount. f_equal.
  apply set_eq. intros k. rewrite Hexact. unfold liveKeys.
  rewrite elem_of_dom. split.
  - intros (e & He & Hv). exists e.
    apply map_lookup_filter_Some. split; [done |]. cbn. eauto.
  - intros [e He]. apply map_lookup_filter_Some in He as (He & Hv & _).
    eauto.
Qed.

Lemma statsExact_cover (now : Z) (st : State) :
  statsExact now st -> statsCover st.
Proof. intros [_ Hexact] k e v Hk He _. apply Hexact. eauto. Qed.

(** C8, amended. After [loadCache] at startup the count of every location
    equals the number of keys whose unexpired cache entry holds it, and
    every key of such an entry is in the set of its location. Every later
    event except [resetStats] keeps that inclusion and takes no key out of
    a set: [saveCacheEntry] adds the key to the set of a non-empty
    location, and a read that evicts an expired entry leaves the sets as
    they are. So, until the statistics are reset, the count of a non-empty
    location is at least, and not always equal to, the number of keys whose
    live entry holds it; nothing decrements it. *)
Theorem stats_cover_live_entries :
  (forall (now : Z) (entries : list (string * PersistedEntry)),
     NoDup entries.*1 ->
     let st := loadCache true now (Some entries) initialState in
     statsCover st /\ forall v, statsCount v st = liveCount v now st)
  /\ (forall st : State,
        statsCover st ->
        (forall ctx now ev,
           ev <> EvResetStats -> statsCover (step ctx now ev st))
        /\ (forall ctx now k v, statsCover (saveCacheEntry ctx now k v st))
        /\ (forall now k,
              locationStats (fst (getLocation now k st)) = locationStats st)
        /\ (forall ctx now ev w x,
              ev <> EvResetStats ->
              x ∈ default (∅ : gset string) (locationStats st !! w) ->
              x ∈ default (∅ : gset string)
                    (locationStats (step ctx now ev st) !! w))
        /\ (forall v now,
              v <> "" -> (liveCount v now st <= statsCount v st)%nat)).
Proof.
  split.
  - intros now entries Hnd. cbv zeta. unfold loadCache. cbn [negb].
    assert (Hex : statsExact now
                    (fold_left (loadEntry now) entries initialState)).
    { apply statsExact_fold; [done | done |]. split.
      - intros k e Hk. cbn [initialState locationCache] in Hk.
        by rewrite lookup_empty in Hk.
      - intros v k. cbn [initialState locationStats locationCache].
        rewrite lookup_empty. cbn [default]. split.
        + intros Hin. by apply not_elem_of_empty in Hin.
        + intros (e & He & _). by rewrite lookup_empty in He. }
    split; [by apply (statsExact_cover now) |].
    intros v. by apply statsExact_count.
  - intros st Hcover. split; [| split; [| split; [| split]]].
    + intros ctx now ev Hev. by apply statsCover_step.
    + intros ctx now k v. by apply statsCover_saveCacheEntry.
    + intros now k. apply getLocation_cache_stats.
    + intros ctx now ev w x. apply stats_grow_step.
    + intros v now Hv. by apply statsCover_count.
Qed.

Lemma stats_cover_live_entries_witness :
  let entries := [("alice", {| data_location := Some "France";
                               data_expiry := 5000 |});
                  ("bob", {| data_location := Some "France";
                             data_expiry := 500 |})] in
  let st := loadCache true 1000 (Some entries) initialState in
  statsCount "France" st = liveCount "France" 1000 st
  /\ (liveCount "France" 9000 st
      <= statsCount "France"
           (step true 9000 (EvGetLocation "alice") st))%nat.
Proof.
  set (entries := [("alice", {| data_location := Some "France";
                                data_expiry := 5000 |});
                   ("bob", {| data_location := Some "France";
                              data_expiry := 500 |})]).
  destruct stats_cover_live_entries as (Hload & Hkeep).
  assert (Hnd : NoDup entries.*1).
  { apply (bool_decide_unpack _). vm_compute. reflexivity. }
  destruct (Hload 1000 entries Hnd) as (Hcover & Hcount).
  split; [apply Hcount |].
  destruct (Hkeep _ Hcover) as (_ & _ & Hsame & _ & Hle).
  unfold statsCount. cbn [step]. rewrite Hsame.
  apply (Hle "France" 9000). discriminate.
Defined.

(** ** Single flight (C2) *)


(** C2, violated by the code. [getLocation] is called for a key that is
    neither cached nor pending while the rate limit is active. The executor
    of the promise enqueues the task and calls [processRequestQueue], which
    purges the queue at once: the task's [reject] deletes a registration
    that does not exist yet and rejects the promise; only then does
    [getLocation] register the promise (line 542). The registration of a
    settled promise stays, and long after the window has lapsed a call for
    the key still finds it, sends nothing and fails with 'Rate limited'. *)
Theorem rate_limited_call_stays_registered :
  let limited := onRateLimitInfo 1700000000000 1700000900 initialState in
  let st1 := fst (getLocation 1700000001000 "alice" limited) in
  let later := 1700009999000 in
  let st2 := fst (getLocation later "alice" st1) in
  snd (getLocation 1700000001000 "alice" limited) = AwaitOwner 0
  /\ locationPromises st1 !! 0%nat = Some (Rejected "Rate limited")
  /\ pendingLocationRequests st1 !! "alice" = Some 0%nat
  /\ requestQueue st1 = []
  /\ isRateLimited later st1 = false
  /\ snd (getLocation later "alice" st1) = AwaitWaiter 0
  /\ resumeWaiter later "alice" 0 st2 = Threw "Rate limited"
  /\ pendingLocationRequests st2 !! "alice" = Some 0%nat
  /\ posted st2 = [].
Proof. vm_compute. repeat split; reflexivity. Qed.

(** A second way to the same failure: the timeout timer of a request is
    never cancelled, and when it fires after its answer it deletes the
    registration of whatever request is pending for the key by then. Here
    the first request for "bob" is answered (rate-limited, so not cached), a
    second one is registered and sent, the stale timer of the first removes
    its registration, and a third call registers another promise for the
    same key while the second is still unresolved: two requests for "bob"
    are sent after the first. *)
Example stale_timeout_unregisters_pending_request :
  let a0 := fst (getLocation 5000 "bob" initialState) in
  let a1 := step true 6000 (EvLocationResponse "bob" 1 None true) a0 in
  let a2 := fst (getLocation 10000 "bob" a1) in
  let a3 := step true 15000 (EvTimer 0) a2 in
  let a4 := fst (getLocation 16000 "bob" a3) in
  let a5 := step true 17000
              (EvLocationResponse "bob" 3 (Some "France") false) a4 in
  timers a2 !! 0%nat = Some (TRequestTimeout 10000 1 "bob")
  /\ pendingLocationRequests a2 !! "bob" = Some 2%nat
  /\ pendingLocationRequests a3 !! "bob" = None
  /\ locationPromises a3 !! 2%nat = Some Pending
  /\ snd (getLocation 16000 "bob" a3) = AwaitOwner 4
  /\ locationPromises a4 !! 2%nat = Some Pending
  /\ locationPromises a4 !! 4%nat = Some Pending
  /\ posted a5 = [("bob", 5%nat); ("bob", 3%nat); ("bob", 1%nat)].
Proof. vm_compute. repeat split; reflexivity. Qed.

(** ** Username candidates *)

Example parse_permalink :
  parseUsernameFromLink (Some "/alice/status/1234567890") = Some "alice".
Proof. reflexivity. Qed.

Example parse_query :
  parseUsernameFromLink (Some "/bob?lang=en") = Some "bob".
Proof. reflexivity. Qed.

Example valid_examples :
  isValidUsername (Some "alice") = true
  /\ isValidUsername (Some "home") = false
  /\ isValidUsername (Some "12345") = false
  /\ isValidUsername (Some "statusquo") = false
  /\ isValidUsername (Some "searchlight") = false.
Proof. vm_compute. repeat split. Qed.

Lemma isSeparator_spec (c : ascii) :
  isSeparator c = false <-> c <> "/"%char /\ c <> "?"%char.
Proof.
  unfold isSeparator.
  destruct (Ascii.eqb_spec c "/"), (Ascii.eqb_spec c "?"); simpl;
    split; try done; intros []; done.
Qed.

Lemma takeSegment_noSeparator (s : string) : noSeparator (takeSegment s).
Proof.
  induction s as [| c s IH]; intros x Hx; [done |]. simpl in Hx.
  destruct (isSeparator c) eqn:Hc; [done |]. simpl in Hx.
  destruct Hx as [<- | Hx]; [by apply isSeparator_spec | by apply IH].
Qed.

Lemma takeSegment_split (s : string) :
  exists rest, s = (takeSegment s ++ rest)%string /\ segmentEnd rest.
Proof.
  induction s as [| c s (rest & IH & Hend)].
  - exists "". split; [done | by left].
  - simpl. destruct (isSeparator c) eqn:Hc.
    + exists (String c s). split; [done |]. right. exists s.
      unfold isSeparator in Hc.
      destruct (Ascii.eqb_spec c "/") as [-> |]; [by left |].
      destruct (Ascii.eqb_spec c "?") as [-> |]; [by right | done].
    + exists rest. split; [| done]. by rewrite IH at 1.
Qed.

Lemma takeSegment_app (u rest : string) :
  noSeparator u -> segmentEnd rest ->
  takeSegment (u ++ rest) = u.
Proof.
  intros Hu Hend. induction u as [| c u IH]; simpl.
  - destruct Hend as [-> | (r & [-> | ->])]; reflexivity.
  - assert (Hc : isSeparator c = false).
    { apply isSeparator_spec, Hu. by left. }
    rewrite Hc. f_equal. apply IH. intros x Hx. apply Hu. by right.
Qed.

Lemma parseUsernameFromLink_Some (href : option string) (u : string) :
  parseUsernameFromLink href = Some u ->
  u <> "" /\ noSeparator u
  /\ exists rest, href = Some (String "/" (u ++ rest)) /\ segmentEnd rest.
Proof.
  destruct href as [[| c r] |]; try done. simpl.
  destruct (Ascii.eqb_spec c "/") as [-> |]; [| done].
  pose proof (takeSegment_noSeparator r) as Hno.
  destruct (takeSegment_split r) as (rest & Hr & Hend).
  destruct (takeSegment r) as [| a seg] eqn:Hseg; [done |].
  intros [= <-]. split; [done |]. split; [done |].
  exists rest. by rewrite Hr at 1.
Qed.

(** X1. [parseUsernameFromLink] returns exactly the first path segment:
    it answers [u] if and only if the link is "/" followed by the non-empty
    text [u] without '/' and '?', and then nothing or a '/' or a '?'. Every
    other link ([null], empty, not starting with "/", or with an empty
    first segment) gives [null]. *)
Theorem parseUsernameFromLink_first_segment (href : option string)
    (u : string) :
  parseUsernameFromLink href = Some u
  <-> u <> "" /\ noSeparator u
      /\ exists rest, href = Some (String "/" (u ++ rest)) /\ segmentEnd rest.
Proof.
  split; [apply parseUsernameFromLink_Some |].
  intros (Hu & Hno & rest & -> & Hend). simpl.
  rewrite (takeSegment_app u rest Hno Hend). by destruct u.
Qed.








(** ** Storage usage warnings *)

Lemma checkStorageUsage_step (percentUsed lastLogged : Z) :
  exists warned lastLogged',
    checkStorageUsage true (Some percentUsed) lastLogged
    = (Some percentUsed, warned, lastLogged')
    /\ (warned = true
        <-> lastLogged < percentUsed / 10 * 10 /\ 10 <= percentUsed / 10 * 10)
    /\ (warned = true -> lastLogged' = percentUsed / 10 * 10)
    /\ (warned = false -> lastLogged' = lastLogged).
Proof.
  unfold checkStorageUsage, STORAGE_LOG_THRESHOLD. cbn [negb].
  assert (Hdiv : 90 <= percentUsed -> 90 <= percentUsed / 10 * 10).
  { intros H. pose proof (Z.div_le_mono 90 percentUsed 10 ltac:(lia) H) as Hd.
    change (90 / 10) with 9 in Hd. lia. }
  destruct (((lastLogged <? percentUsed / 10 * 10)
             && (10 <=? percentUsed / 10 * 10))
            || ((90 <=? percentUsed) && (lastLogged <? 90))) eqn:Hlog.
  - exists true, (percentUsed / 10 * 10).
    split; [done |]. split; [| done]. split; [intros _ | done].
    apply orb_prop in Hlog as [Hl | Hl];
      apply andb_prop in Hl as [H1 H2].
    + apply Z.ltb_lt in H1. apply Z.leb_le in H2. done.
    + apply Z.leb_le in H1. apply Z.ltb_lt in H2. apply Hdiv in H1. lia.
  - exists false, lastLogged.
    split; [done |]. split; [| done]. split; [done |].
    intros [H1 H2]. apply orb_false_elim in Hlog as [Hlog _].
    apply andb_false_iff in Hlog as [Hlog | Hlog]; lia.
Qed.

Lemma warnedThresholds_increasing (samples : list Z) :
  forall lastLogged,
    (forall t, t ∈ warnedThresholds samples lastLogged ->
               lastLogged < t /\ 10 <= t /\ t mod 10 = 0)
    /\ increasing (warnedThresholds samples lastLogged).
Proof.
  induction samples as [| p samples IH]; intros last.
  - split; [intros t Ht; by apply elem_of_nil in Ht | exact I].
  - cbn [warnedThresholds].
    destruct (checkStorageUsage_step p last)
      as (warned & last' & -> & Hiff & Hyes & Hno).
    destruct warned.
    + destruct (proj1 Hiff eq_refl) as [Hlt Hge].
      rewrite (Hyes eq_refl) in *. clear Hyes Hno.
      destruct (IH (p / 10 * 10)) as [Hall Hinc]. split.
      * intros t Ht. apply elem_of_cons in Ht as [-> | Ht].
        -- split; [done |]. split; [done |]. apply Z.mod_mul. lia.
        -- destruct (Hall t Ht) as (? & ? & ?). repeat split; [lia | done..].
      * destruct (warnedThresholds samples (p / 10 * 10)) as [| b r] eqn:Hw;
          [exact I |].
        split; [| exact Hinc]. apply Hall. by left.
    + rewrite (Hno eq_refl). apply IH.
Qed.

(** X4. [checkStorageUsage] warns exactly when the 10%-boundary below the
    sampled usage is at least 10 and above the last boundary warned at (the
    extra test for 90% never adds a warning); it then records that
    boundary. Along any run of samples the boundaries warned at are
    multiples of 10 that strictly increase, so no boundary is warned at
    twice, whatever the usage does in between. *)
Theorem checkStorageUsage_warns_once_per_boundary :
  (forall percentUsed lastLogged : Z,
     exists warned lastLogged',
       checkStorageUsage true (Some percentUsed) lastLogged
       = (Some percentUsed, warned, lastLogged')
       /\ (warned = true
           <-> lastLogged < percentUsed / 10 * 10
               /\ 10 <= percentUsed / 10 * 10)
       /\ lastLogged'
          = (if warned then percentUsed / 10 * 10 else lastLogged))
  /\ (forall (samples : list Z) (lastLogged : Z),
        increasing (warnedThresholds samples lastLogged)
        /\ forall t, t ∈ warnedThresholds samples lastLogged ->
             lastLogged < t /\ 10 <= t /\ t mod 10 = 0).
Proof.
  split.
  - intros p last.
    destruct (checkStorageUsage_step p last)
      as (warned & last' & Heq & Hiff & Hyes & Hno).
    exists warned, last'. split; [done |]. split; [done |].
    destruct warned; [by apply Hyes | by apply Hno].
  - intros samples last.
    destruct (warnedThresholds_increasing samples last). done.
Qed.

Example warnings_of_a_run :
  warnedThresholds [5; 12; 19; 47; 31; 45; 95; 91; 99] (-1) = [10; 40; 90].
Proof. reflexivity. Qed.

(** ** Persistence round trip *)

Lemma objectFromMap_lookup {A B : Type} (f : A -> B) (m : gmap string A)
    (k : string) :
  objectFromMap f m !! k
  = if bool_decide (k = "__proto__") then None else f <$> m !! k.
Proof.
  unfold objectFromMap. case_bool_decide as Hk.
  - subst k. apply lookup_delete_eq.
  - rewrite lookup_delete_ne by done. apply lookup_fmap.
Qed.

(** The cache after the loop of [loadCache] over entries with distinct
    keys. *)
Lemma loadEntries_lookup (now : Z) (entries : list (string * PersistedEntry)) :
  forall (st : State) (k : string),
    NoDup entries.*1 ->
    locationCache (fold_left (loadEntry now) entries st) !! k
    = match (list_to_map entries : gmap string PersistedEntry) !! k with
      | Some d =>
          if negb (data_expiry d =? 0) && (now <? data_expiry d)
          then Some {| entry_location := data_location d;
                       entry_expiry := data_expiry d;
                       entry_cachedAt := None |}
          else locationCache st !! k
      | None => locationCache st !! k
      end.
Proof.
  induction entries as [| [k0 d0] entries IH]; intros st k Hnd.
  - cbn. by rewrite lookup_empty.
  - cbn [fold_left list_to_map foldr]. cbn [fmap list_fmap fst] in Hnd.
    apply NoDup_cons in Hnd as [Hk0 Hnd].
    rewrite IH by done.
    pose proof (loadEntry_effect now st k0 d0) as Heff. cbv zeta in Heff.
    destruct (decide (k0 = k)) as [<- | Hne].
    + rewrite lookup_insert_eq.
      rewrite (not_elem_of_list_to_map_1 entries k0) by done.
      cbn [fst snd].
      destruct (negb (data_expiry d0 =? 0) && (now <? data_expiry d0)).
      * destruct Heff as (-> & _). by rewrite lookup_insert_eq.
      * by rewrite Heff.
    + rewrite lookup_insert_ne by done.
      assert (Hsame : locationCache (loadEntry now st (k0, d0)) !! k
                      = locationCache st !! k).
      { destruct (negb (data_expiry d0 =? 0) && (now <? data_expiry d0)).
        - destruct Heff as (-> & _). by rewrite lookup_insert_ne.
        - by rewrite Heff. }
      by rewrite Hsame.
Qed.

(** X5. What survives a restart. If [saveCache] is allowed to write
    (valid context, usage below 90%, the write succeeds) and [loadCache]
    later reads the stored object back at time [now'], into a fresh page,
    then the cache holds exactly the saved entries that are unexpired at
    [now'], with their location and expiry and without [cachedAt]; an entry
    under the key "__proto__" is lost. The cache answers as before for
    every other key, and the counts are rebuilt from the surviving entries.
    When the context is invalid, the usage is unknown or at 90% or more, or
    the write fails, the storage keeps what it had. *)
Theorem saveCache_then_loadCache (st : State) (storage : Storage)
    (lastLogged now now' : Z) (usage' : option Z) :
  (forall ctx usage setOk,
     canWriteToStorage ctx usage && setOk = false ->
     fst (saveCache ctx usage usage' setOk now st storage lastLogged)
     = storage)
  /\ (forall (percentUsed : Z) (stored : gmap string StoredEntry)
             (entries : list (string * PersistedEntry)),
        percentUsed < 90 ->
        storedCache
          (fst (saveCache true (Some percentUsed) usage' true now st
                  storage lastLogged)) = Some stored ->
        NoDup entries.*1 ->
        (list_to_map entries : gmap string PersistedEntry)
        = readEntry <$> stored ->
        let st' := loadCache true now' (Some entries) initialState in
        (forall k,
           locationCache st' !! k
           = match locationCache st !! k with
             | Some e =>
                 let expiry := stored_expiry (storeEntry now e) in
                 if bool_decide (k = "__proto__") then None
                 else if negb (expiry =? 0) && (now' <? expiry)
                      then Some {| entry_location := entry_location e;
                                   entry_expiry := expiry;
                                   entry_cachedAt := None |}
                      else None
             | None => None
             end)
        /\ (forall k,
              k <> "__proto__" ->
              (forall e, locationCache st !! k = Some e ->
                         entry_expiry e <> 0) ->
              snd (cacheCheck now' k st') = snd (cacheCheck now' k st))
        /\ (forall v, statsCount v st' = liveCount v now' st')).
Proof.
  split.
  - intros ctx usage setOk Hno. unfold saveCache.
    destruct ctx; [| done]. cbn [negb].
    destruct (canWriteToStorage true usage); [| done]. cbn [negb].
    cbn [andb] in Hno. by rewrite Hno.
  - intros p stored entries Hp Hsaved Hnd Hstored. cbv zeta.
    unfold saveCache, canWriteToStorage, STORAGE_LOG_THRESHOLD in Hsaved.
    cbn [negb] in Hsaved. apply Z.ltb_lt in Hp. rewrite Hp in Hsaved.
    cbn [negb fst storedCache] in Hsaved.
    injection Hsaved as <-.
    assert (Hlook : forall k,
              locationCache (loadCache true now' (Some entries) initialState)
                !! k
              = match locationCache st !! k with
                | Some e =>
                    let expiry := stored_expiry (storeEntry now e) in
                    if bool_decide (k = "__proto__") then None
                    else if negb (expiry =? 0) && (now' <? expiry)
                         then Some {| entry_location := entry_location e;
                                      entry_expiry := expiry;
                                      entry_cachedAt := None |}
                         else None
                | None => None
                end).
    { intros k. unfold loadCache. cbn [negb].
      rewrite loadEntries_lookup by done. rewrite Hstored.
      rewrite lookup_fmap. unfold cacheObject.
      rewrite objectFromMap_lookup.
      cbn [initialState locationCache]. rewrite lookup_empty.
      destruct (locationCache st !! k) as [e |]; cbn.
      - case_bool_decide; [done |]. cbn.
        by destruct (negb _ && _).
      - by case_bool_decide. }
    split; [exact Hlook |]. split.
    + intros k Hk Hexp. unfold cacheCheck. rewrite Hlook.
      destruct (locationCache st !! k) as [e |] eqn:He; [| done].
      rewrite bool_decide_eq_false_2 by done. cbv zeta.
      specialize (Hexp e eq_refl). unfold storeEntry. cbn [stored_expiry].
      apply Z.eqb_neq in Hexp. rewrite Hexp. unfold isFresh at 2.
      rewrite Hexp. cbn [negb andb].
      destruct (now' <? entry_expiry e) eqn:Hfresh; [| done].
      unfold isFresh. cbn [entry_expiry entry_location].
      by rewrite Hexp, Hfresh.
    + intros v. apply statsExact_count. unfold loadCache. cbn [negb].
      apply statsExact_fold; [done | done |]. split.
      * intros k e Hk. cbn [initialState locationCache] in Hk.
        by rewrite lookup_empty in Hk.
      * intros w k. cbn [initialState locationStats locationCache].
        rewrite lookup_empty. cbn [default]. split.
        -- intros Hin. by apply not_elem_of_empty in Hin.
        -- intros (e & He & _). by rewrite lookup_empty in He.
Qed.

Lemma saveCache_then_loadCache_witness :
  let st := saveCacheEntry true 1000 "alice" (Some "France") initialState in
  let entries :=
    [("alice", {| data_location := Some "France";
                  data_expiry := calculateExpiry (Some "France") 1000 |})] in
  let st' := loadCache true 2000 (Some entries) initialState in
  snd (cacheCheck 2000 "alice" st') = snd (cacheCheck 2000 "alice" st).
Proof.
  set (st := saveCacheEntry true 1000 "alice" (Some "France") initialState).
  set (entries :=
         [("alice", {| data_location := Some "France";
                       data_expiry := calculateExpiry (Some "France") 1000 |})]).
  destruct (saveCache_then_loadCache st
              {| storedCache := None; storedStats := None |} (-1) 1500 2000
              None) as [_ Hload].
  assert (Hnd : NoDup entries.*1) by (apply NoDup_singleton).
  destruct (Hload 42 (cacheObject 1500 st) entries) as (_ & Hsame & _).
  - lia.
  - reflexivity.
  - exact Hnd.
  - vm_compute. reflexivity.
  - intros st0 entries0 st'. subst st0 entries0 st'.
    apply Hsame; [done |].
    intros e He. vm_compute in He. injection He as <-. done.
Defined.

(** ** The statistics view of the popup *)

Lemma insertByCount_perm (x : string * Z) (l : list (string * Z)) :
  Popup.insertByCount x l ≡ₚ x :: l.
Proof.
  induction l as [| y r IH]; cbn [Popup.insertByCount]; [done |].
  destruct (snd y <=? snd x); [done |].
  rewrite IH. apply Permutation_swap.
Qed.

Lemma insertByCount_descending (x : string * Z) (l : list (string * Z)) :
  descendingCounts l -> descendingCounts (Popup.insertByCount x l).
Proof.
  induction l as [| y r IH]; intros Hl; cbn [Popup.insertByCount]; [done |].
  destruct (snd y <=? snd x) eqn:Hyx.
  - apply Z.leb_le in Hyx. by split.
  - apply Z.leb_gt in Hyx.
    assert (Hr : descendingCounts r) by (destruct r; [done | apply Hl]).
    specialize (IH Hr).
    destruct r as [| z r']; cbn [Popup.insertByCount] in *.
    + split; [lia | done].
    + destruct Hl as [Hzy _].
      destruct (snd z <=? snd x); (split; [lia | done]).
Qed.

Lemma insertByCount_withCount (c : Z) (x : string * Z) (l : list (string * Z)) :
  withCount c (Popup.insertByCount x l) = withCount c (x :: l).
Proof.
  unfold withCount.
  induction l as [| y r IH]; cbn [Popup.insertByCount]; [done |].
  destruct (snd y <=? snd x) eqn:Hyx; [done |].
  apply Z.leb_gt in Hyx.
  rewrite filter_cons, IH, !filter_cons.
  destruct (decide (snd y = c)) as [Hy | Hy];
    destruct (decide (snd x = c)) as [Hx | Hx]; try done. lia.
Qed.

Lemma sortByCount_spec (entries : list (string * Z)) :
  Popup.sortByCount entries ≡ₚ entries
  /\ descendingCounts (Popup.sortByCount entries)
  /\ forall c, withCount c (Popup.sortByCount entries) = withCount c entries.
Proof.
  induction entries as [| x l (Hp & Hd & Hs)]; [done |].
  cbn [Popup.sortByCount foldr]. fold (Popup.sortByCount l).
  split; [by rewrite insertByCount_perm, Hp |].
  split; [by apply insertByCount_descending |].
  intros c. rewrite insertByCount_withCount. unfold withCount in *.
  by rewrite !filter_cons, Hs.
Qed.

Lemma fold_left_add (l : list Z) (a : Z) :
  fold_left Z.add l a = a + fold_right Z.add 0 l.
Proof.
  revert a. induction l as [| x l IH]; intros a; simpl; [lia |].
  rewrite IH. lia.
Qed.

(** X6. The popup shows the empty state for missing or empty statistics.
    Otherwise the total is the sum of all counts, and there is one row per
    location: the rows are the stored entries rearranged in descending
    order of count, entries with equal counts keeping their stored order;
    a location with a flag is shown with its flag and its own name, one
    without by its name in parentheses. *)
Theorem loadAndDisplayStats_view (stats : option (list (string * Z))) :
  match Popup.loadAndDisplayStats stats with
  | Popup.NoStats => stats = None \/ stats = Some []
  | Popup.StatsShown total rows =>
      exists entries sorted,
        stats = Some entries /\ entries <> []
        /\ total = fold_right Z.add 0 entries.*2
        /\ rows = Popup.statsRow <$> sorted
        /\ sorted ≡ₚ entries
        /\ descendingCounts sorted
        /\ (forall c, withCount c sorted = withCount c entries)
        /\ forall loc count,
             Popup.rowCount (Popup.statsRow (loc, count)) = count
             /\ match getCountryFlag (Some loc) with
                | Some f =>
                    Popup.displayFlag (Popup.statsRow (loc, count)) = f
                    /\ Popup.displayLocation (Popup.statsRow (loc, count))
                       = loc
                | None =>
                    Popup.displayFlag (Popup.statsRow (loc, count))
                    = JsStr ""
                    /\ Popup.displayLocation (Popup.statsRow (loc, count))
                       = ("(" ++ loc ++ ")")%string
                end
  end.
Proof.
  destruct stats as [[| e entries] |]; cbn [Popup.loadAndDisplayStats];
    [by right | | by left].
  exists (e :: entries), (Popup.sortByCount (e :: entries)).
  destruct (sortByCount_spec (e :: entries)) as (Hp & Hd & Hs).
  split; [done |]. split; [done |].
  split; [by rewrite fold_left_add |].
  split; [done |]. split; [done |]. split; [done |]. split; [done |].
  intros loc count. unfold Popup.statsRow.
  cbn [Popup.rowCount Popup.displayFlag Popup.displayLocation].
  split; [done |]. by destruct (getCountryFlag (Some loc)).
Qed.

Example popup_rows :
  Popup.loadAndDisplayStats
    (Some [("Atlantis", 1); ("France", 3); ("Japan", 1); ("Spain", 7)])
  = Popup.StatsShown 12
      [ {| Popup.displayFlag := JsStr "🇪🇸"; Popup.displayLocation := "Spain";
           Popup.rowCount := 7 |};
        {| Popup.displayFlag := JsStr "🇫🇷"; Popup.displayLocation := "France";
           Popup.rowCount := 3 |};
        {| Popup.displayFlag := JsStr ""; Popup.displayLocation := "(Atlantis)";
           Popup.rowCount := 1 |};
        {| Popup.displayFlag := JsStr "🇯🇵"; Popup.displayLocation := "Japan";
           Popup.rowCount := 1 |} ].
Proof. vm_compute. reflexivity. Qed.

(** ** One request in flight *)

Lemma InFlight_ext (st st' : State) :
  flightFields st' = flightFields st -> InFlight st -> InFlight st'.
Proof.
  unfold flightFields. intros [= Hd Ha Hp Hh] [H1 H2 H3 H4].
  split; rewrite ?Hd, ?Ha, ?Hp, ?Hh; done.
Qed.

Lemma Quiet_ext (st st' : State) :
  activeRequests st' = activeRequests st ->
  requestPromises st' = requestPromises st ->
  messageHandlers st' = messageHandlers st ->
  Quiet st -> Quiet st'.
Proof.
  intros Ha Hp Hh (H1 & H2 & H3). unfold Quiet. by rewrite Ha, Hp, Hh.
Qed.

Lemma InFlight_Quiet (st : State) :
  InFlight st -> (forall t q, drain st <> Awaiting t q) -> Quiet st.
Proof.
  intros [H1 H2 H3 H4] Hd. split; [| split].
  - rewrite H1. destruct (drain st) as [| | t q] eqn:E; try done.
    by destruct (Hd t q).
  - intros q Hq. destruct (H3 q Hq) as [t Ht]. by destruct (Hd t q).
  - intros q. destruct (messageHandlers st !! q) as [name |] eqn:E; [| done].
    destruct (H4 q name E) as [t Ht]. by destruct (Hd t q).
Qed.

Lemma Quiet_InFlight (st : State) :
  Quiet st -> (forall t q, drain st <> Awaiting t q) -> InFlight st.
Proof.
  intros (Ha & Hp & Hh) Hd. split.
  - rewrite Ha. destruct (drain st) as [| | t q] eqn:E; try done.
    by destruct (Hd t q).
  - intros t q E. by destruct (Hd t q).
  - intros q Hq. by destruct (Hp q).
  - intros q name Hq. by rewrite Hh in Hq.
Qed.

Lemma InFlight_dispatchHead (now : Z) (st : State) :
  Quiet st -> InFlight (dispatchHead now st).
Proof.
  intros (Ha & Hp & Hh). unfold dispatchHead, makeLocationRequest.
  destruct (requestQueue st) as [| t rest].
  - apply Quiet_InFlight; [by split | done].
  - split; st_simpl.
    + lia.
    + intros t' q [= <- <-]. by rewrite !lookup_insert_eq.
    + intros q. destruct (decide (nextId st = q)) as [<- | Hne]; [eauto |].
      rewrite lookup_insert_ne by done. intros Hq. by destruct (Hp q).
    + intros q name. destruct (decide (nextId st = q)) as [<- | Hne]; [eauto |].
      rewrite lookup_insert_ne by done. by rewrite Hh.
Qed.

Lemma InFlight_drainLoop (now : Z) (st : State) :
  Quiet st -> InFlight (drainLoop now st).
Proof.
  intros HQ. unfold drainLoop.
  destruct (negb (length (requestQueue st) =? 0)%nat
            && (activeRequests st <? MAX_CONCURRENT_REQUESTS)).
  - destruct (now - lastRequestTime st <? MIN_REQUEST_INTERVAL).
    + apply Quiet_InFlight; [| done]. by eapply Quiet_ext.
    + by apply InFlight_dispatchHead.
  - apply Quiet_InFlight; [| done]. by eapply Quiet_ext.
Qed.

Lemma rejectAll_flight (queue : list QueuedTask) (st : State) :
  flightFields (fold_left (fun s t => taskReject t "Rate limited" s) queue st)
  = flightFields st.
Proof.
  revert st. induction queue as [| t queue IH]; intros st; [done |].
  simpl. by rewrite IH.
Qed.

Lemma InFlight_processRequestQueue (now : Z) (st : State) :
  Inv st -> InFlight st -> InFlight (processRequestQueue now st).
Proof.
  intros HInv H. unfold processRequestQueue.
  destruct (isProcessingQueue st) eqn:Hproc; [done |]. cbn [orb].
  destruct (length (requestQueue st) =? 0)%nat; [done |].
  assert (Hidle : drain st = Idle).
  { destruct (drain st) eqn:Hd; [done | |];
      (assert (isProcessingQueue st = true); [| congruence]);
      apply (inv_drain_flag st HInv); by rewrite Hd. }
  destruct (isRateLimited now st).
  - eapply InFlight_ext; [| exact H]. unfold rejectQueued, flightFields.
    st_simpl.
    pose proof (rejectAll_flight (requestQueue st) st) as Hf.
    unfold flightFields in Hf. exact Hf.
  - apply InFlight_drainLoop.
    assert (HQ : Quiet st).
    { apply InFlight_Quiet; [done |]. intros t q. by rewrite Hidle. }
    destruct (0 <? rateLimitResetTime st); by eapply Quiet_ext.
Qed.

Lemma cacheCheck_flight (now : Z) (name : string) (st : State) :
  flightFields (fst (cacheCheck now name st)) = flightFields st.
Proof. unfold cacheCheck. repeat case_match; done. Qed.

Lemma updateStats_flight (username loc : string) (st : State) :
  flightFields (updateStats username loc st) = flightFields st.
Proof. unfold updateStats. repeat case_match; done. Qed.

Lemma saveCacheEntry_flight (ctx : bool) (now : Z) (username : string)
    (loc : option string) (st : State) :
  flightFields (saveCacheEntry ctx now username loc st) = flightFields st.
Proof.
  unfold saveCacheEntry. destruct ctx; [| done]. cbn [negb].
  destruct loc as [l |]; case_match; unfold flightFields; st_simpl;
    try done;
    match goal with |- context [updateStats ?u ?l ?s] =>
      pose proof (updateStats_flight u l s) as Hf end;
    unfold flightFields in Hf; st_simpl; exact Hf.
Qed.

Lemma InFlight_getLocation (now : Z) (name : string) (st : State) :
  Inv st -> InFlight st -> InFlight (fst (getLocation now name st)).
Proof.
  intros HInv H. unfold getLocation.
  pose proof (cacheCheck_flight now name st) as Hf.
  pose proof (Inv_cacheCheck now name st HInv) as HInv1.
  destruct (cacheCheck now name st) as [st1 hit]. cbn [fst] in *.
  assert (H1 : InFlight st1) by (by apply (InFlight_ext st)).
  destruct hit; [done |].
  destruct (pendingLocationRequests st1 !! name); [done |].
  destruct (MAX_QUEUE_SIZE <=? length (requestQueue st1))%nat eqn:Hfull;
    [done |].
  apply Nat.leb_gt in Hfull.
  unfold enqueueRequest. cbn [fst].
  match goal with |- context [processRequestQueue now ?s] =>
    set (st2 := s) end.
  assert (HInv2 : Inv st2).
  { subst st2. destruct HInv1
      as [Hqueue Hnotrej Hratelim Hids Hhids Hptimer Hdflag Hsleep].
    split; st_simpl; try done.
    - rewrite length_app. simpl. lia.
    - intros p e. destruct (decide (nextId st1 = p)) as [<- | Hne].
      + by rewrite lookup_insert_eq.
      + rewrite lookup_insert_ne by done. apply Hratelim.
    - intros q Hq. apply Hids in Hq. lia.
    - intros q Hq. apply Hhids in Hq. lia.
    - intros _ Hnil. by destruct (requestQueue st1). }
  assert (H2 : InFlight st2) by (by apply (InFlight_ext st1)).
  pose proof (InFlight_processRequestQueue now st2 HInv2 H2) as H3.
  apply (InFlight_ext (processRequestQueue now st2)); [reflexivity | exact H3].
Qed.

(** The continuation of the drain after the awaited request has settled. *)
Lemma InFlight_resume (now : Z) (st : State) (t : QueuedTask) (q : nat)
    (loc : option string) :
  drain st = Awaiting t q ->
  requestPromises st !! q = Some (Resolved loc) ->
  activeRequests st = 1 ->
  (forall q', requestPromises st !! q' <> Some Pending) ->
  (forall q', messageHandlers st !! q' = None) ->
  InFlight (resumeDrain now st).
Proof.
  intros Hd Hq Ha Hp Hh. unfold resumeDrain. rewrite Hd, Hq.
  unfold drainFinally. apply InFlight_drainLoop. unfold taskResolve.
  destruct (0 <? consecutiveRateLimits st)%nat; split; st_simpl;
    try done; lia.
Qed.

(** A response or a timeout for request [rid]: its promise is resolved,
    its listener removed, and the drain goes on if it awaited [rid]. *)
Lemma InFlight_settle (now : Z) (rid : nat) (v : option string)
    (st st3 : State) :
  InFlight st ->
  drain st3 = drain st ->
  activeRequests st3 = activeRequests st ->
  requestPromises st3 = resolveIn rid v (requestPromises st) ->
  messageHandlers st3 = delete rid (messageHandlers st) ->
  InFlight (resumeDrain now st3).
Proof.
  intros [H1 H2 H3 H4] Hd Ha Hp Hh.
  destruct (drain st) as [| | t q] eqn:Hdrain.
  - (* idle: nothing is waiting *)
    unfold resumeDrain. rewrite Hd. split; rewrite ?Hd, ?Ha, ?Hp, ?Hh.
    + done.
    + done.
    + intros q Hq. apply resolveIn_pending in Hq as [Hq _].
      destruct (H3 q Hq) as [t Ht]. done.
    + intros q name Hq. apply lookup_delete_Some in Hq as [_ Hq].
      destruct (H4 q name Hq) as [t Ht]. done.
  - unfold resumeDrain. rewrite Hd. split; rewrite ?Hd, ?Ha, ?Hp, ?Hh.
    + done.
    + done.
    + intros q Hq. apply resolveIn_pending in Hq as [Hq _].
      destruct (H3 q Hq) as [t Ht]. done.
    + intros q name Hq. apply lookup_delete_Some in Hq as [_ Hq].
      destruct (H4 q name Hq) as [t Ht]. done.
  - destruct (H2 t q eq_refl) as [Hpend Hhandler].
    destruct (decide (rid = q)) as [-> | Hne].
    + apply (InFlight_resume now st3 t q v).
      * by rewrite Hd.
      * rewrite Hp, lookup_resolveIn. rewrite decide_True by done.
        by rewrite Hpend.
      * by rewrite Ha, H1.
      * intros q' Hq'. rewrite Hp in Hq'.
        apply resolveIn_pending in Hq' as [Hq' Hne].
        destruct (H3 q' Hq') as [t' [= _ ->]]. done.
      * intros q'. rewrite Hh.
        destruct (decide (q = q')) as [<- | Hne];
          [apply lookup_delete_eq | rewrite lookup_delete_ne by done].
        destruct (messageHandlers st !! q') as [name |] eqn:E; [| done].
        destruct (H4 q' name E) as [t' [= _ ->]]. done.
    + assert (Hq3 : requestPromises st3 !! q = Some Pending).
      { rewrite Hp, lookup_resolveIn. by rewrite decide_False. }
      unfold resumeDrain. rewrite Hd, Hq3.
      split; rewrite ?Hd, ?Ha, ?Hp, ?Hh.
      * done.
      * intros t' q' [= <- <-]. split; [by rewrite <- Hp |].
        by rewrite lookup_delete_ne.
      * intros q' Hq'. apply resolveIn_pending in Hq' as [Hq' _]. eauto.
      * intros q' name Hq'. apply lookup_delete_Some in Hq' as [_ Hq'].
        eauto.
Qed.

Lemma InFlight_onLocationResponse (ctx : bool) (now : Z) (name : string)
    (requestId : nat) (loc : option string) (limited : bool) (st : State) :
  InFlight st ->
  InFlight (onLocationResponse ctx now name requestId loc limited st).
Proof.
  intros H. unfold onLocationResponse.
  destruct (messageHandlers st !! requestId) as [name' |]; [| done].
  destruct (String.eqb name' name); [| done].
  match goal with |- context [resumeDrain now ?s] => set (st3 := s) end.
  assert (Hf : flightFields
                 (if negb limited
                  then saveCacheEntry ctx now name (orNull loc)
                         (with_messageHandlers
                            (delete requestId (messageHandlers st)) st)
                  else with_messageHandlers
                         (delete requestId (messageHandlers st)) st)
               = (drain st, activeRequests st, requestPromises st,
                  delete requestId (messageHandlers st))).
  { destruct limited; cbn [negb]; [done |]. by rewrite saveCacheEntry_flight. }
  unfold flightFields in Hf. injection Hf as Hd Ha Hp Hh.
  apply (InFlight_settle now requestId (orNull loc) st st3); subst st3;
    st_simpl; try done. by rewrite Hp.
Qed.

Lemma InFlight_onRequestTimeout (now : Z) (requestId : nat) (name : string)
    (st : State) :
  InFlight st -> InFlight (onRequestTimeout now requestId name st).
Proof.
  intros H. unfold onRequestTimeout.
  match goal with |- context [resumeDrain now ?s] => set (st3 := s) end.
  by apply (InFlight_settle now requestId None st st3).
Qed.

Lemma InFlight_fireTimer (now : Z) (i : nat) (st : State) :
  Inv st -> InFlight st -> InFlight (fireTimer now i st).
Proof.
  intros HInv H. unfold fireTimer.
  destruct (timers st !! i) as [tm |] eqn:Hi; [| done].
  assert (H1 : InFlight (with_timers (delete i (timers st)) st))
    by (by apply (InFlight_ext st)).
  destruct tm as [d | d | d requestId name | d]; [| | | done].
  - apply InFlight_processRequestQueue; [| done].
    by apply (Inv_drop_timer i (TProcessQueue d)).
  - unfold onWake. st_simpl. destruct (drain st) eqn:Hd; try done.
    apply InFlight_dispatchHead, InFlight_Quiet; [done |].
    st_simpl. intros t q. by rewrite Hd.
  - by apply InFlight_onRequestTimeout.
Qed.

Lemma loadCache_flight (ctx : bool) (now : Z)
    (cached : option (list (string * PersistedEntry))) (st : State) :
  flightFields (loadCache ctx now cached st) = flightFields st.
Proof.
  unfold loadCache. destruct ctx; [| done]. cbn [negb].
  destruct cached as [entries |]; [| done].
  revert st. induction entries as [| [k d] entries IH]; intros st; [done |].
  cbn [fold_left]. rewrite IH. unfold loadEntry.
  repeat case_match; done.
Qed.

Lemma InFlight_step (ctx : bool) (now : Z) (ev : Event) (st : State) :
  Inv st -> InFlight st -> InFlight (step ctx now ev st).
Proof.
  intros HInv H. destruct ev; cbn [step].
  - by apply InFlight_getLocation.
  - by apply (InFlight_ext st).
  - by apply InFlight_onLocationResponse.
  - by apply InFlight_fireTimer.
  - apply (InFlight_ext st); [apply updateStats_flight | done].
  - by apply (InFlight_ext st).
  - by apply (InFlight_ext st).
Qed.

Lemma reachable_InFlight (st : State) : reachable st -> InFlight st.
Proof.
  induction 1 as [| ctx now cached | ctx now ev st Hr IH].
  - by apply Quiet_InFlight.
  - apply (InFlight_ext initialState); [apply loadCache_flight |].
    by apply Quiet_InFlight.
  - apply InFlight_step; [by apply reachable_Inv | done].
Qed.

(** X7. In every reachable state at most one request is in flight:
    [activeRequests] is 0 or 1 and never exceeds
    [MAX_CONCURRENT_REQUESTS]; it is 1 exactly while the drain awaits a
    request, that request is the only one still waiting for its answer, and
    its listener is the only one registered. *)
Theorem one_request_in_flight (st : State) (Hr : reachable st) :
  0 <= activeRequests st <= MAX_CONCURRENT_REQUESTS
  /\ (activeRequests st = 1 <-> exists t q, drain st = Awaiting t q)
  /\ (forall q, requestPromises st !! q = Some Pending
                <-> exists t, drain st = Awaiting t q)
  /\ (forall q name, messageHandlers st !! q = Some name
                     <-> exists t, drain st = Awaiting t q
                                   /\ screenName t = name)
  /\ (forall q1 q2,
        requestPromises st !! q1 = Some Pending ->
        requestPromises st !! q2 = Some Pending -> q1 = q2).
Proof.
  destruct (reachable_InFlight st Hr) as [H1 H2 H3 H4].
  unfold MAX_CONCURRENT_REQUESTS.
  split; [rewrite H1; destruct (drain st); lia |].
  split; [| split; [| split]].
  - rewrite H1. destruct (drain st) as [| | t q]; split; try done.
    + by intros (t & q & ?).
    + by intros (t & q & ?).
    + intros _. by exists t, q.
  - intros q. split; [apply H3 |]. intros [t Ht]. by apply (H2 t q).
  - intros q name. split.
    + intros Hq. destruct (H4 q name Hq) as [t Ht]. exists t.
      split; [done |]. destruct (H2 t q Ht) as [_ Hh]. congruence.
    + intros (t & Ht & <-). by apply (H2 t q).
  - intros q1 q2 Hq1 Hq2.
    destruct (H3 q1 Hq1) as [t1 Ht1], (H3 q2 Hq2) as [t2 Ht2]. congruence.
Qed.

Lemma one_request_in_flight_witness :
  let st := fst (getLocation 5000 "bob" initialState) in
  activeRequests st = 1
  /\ forall q, requestPromises st !! q = Some Pending -> q = 1%nat.
Proof.
  set (st := fst (getLocation 5000 "bob" initialState)).
  assert (Hr : reachable st).
  { exact (reachable_step true 5000 (EvGetLocation "bob") initialState
             reachable_init). }
  destruct (one_request_in_flight st Hr) as (_ & Hone & _ & _ & Huniq).
  split.
  - apply Hone. exists {| screenName := "bob"; promise := 0 |}, 1%nat.
    vm_compute. reflexivity.
  - intros q Hq. apply (Huniq q 1%nat Hq). vm_compute. reflexivity.
Defined.

(** ** Order of the requests *)

(** What one pass through the head of the loop does to the queue and to the
    messages sent. *)
Lemma drainLoop_dispatch (now : Z) (st : State) :
  (posted (drainLoop now st) = posted st
   /\ requestQueue (drainLoop now st) = requestQueue st
   /\ lastRequestTime (drainLoop now st) = lastRequestTime st)
  \/ (exists t,
        requestQueue st = t :: requestQueue (drainLoop now st)
        /\ posted (drainLoop now st) = (screenName t, nextId st) :: posted st
        /\ MIN_REQUEST_INTERVAL <= now - lastRequestTime st
        /\ lastRequestTime (drainLoop now st) = now
        /\ drain (drainLoop now st) = Awaiting t (nextId st)).
Proof.
  unfold drainLoop.
  destruct (negb (length (requestQueue st) =? 0)%nat
            && (activeRequests st <? MAX_CONCURRENT_REQUESTS));
    [| by left].
  destruct (now - lastRequestTime st <? MIN_REQUEST_INTERVAL) eqn:Hpace;
    [by left |].
  apply Z.ltb_ge in Hpace. unfold dispatchHead, makeLocationRequest.
  destruct (requestQueue st) as [| t rest] eqn:Hq.
  - left. st_simpl. by rewrite Hq.
  - right. exists t. st_simpl. done.
Qed.

Lemma rejectAll_sent (queue : list QueuedTask) (st : State) :
  posted (fold_left (fun s t => taskReject t "Rate limited" s) queue st)
  = posted st.
Proof.
  pose proof (rejectAll_frame queue st) as Hf. cbv zeta in Hf.
  by destruct Hf as (_ & _ & _ & _ & -> & _).
Qed.

(** A call of [processRequestQueue] sends nothing, or the request of the
    task at the head of the queue. *)
Lemma processRequestQueue_dispatch (now : Z) (st : State) :
  posted (processRequestQueue now st) = posted st
  \/ (exists t,
        requestQueue st = t :: requestQueue (processRequestQueue now st)
        /\ posted (processRequestQueue now st)
           = (screenName t, nextId st) :: posted st
        /\ MIN_REQUEST_INTERVAL <= now - lastRequestTime st
        /\ lastRequestTime (processRequestQueue now st) = now).
Proof.
  unfold processRequestQueue.
  destruct (isProcessingQueue st || (length (requestQueue st) =? 0)%nat);
    [by left |].
  destruct (isRateLimited now st).
  - left. unfold rejectQueued. st_simpl. apply rejectAll_sent.
  - match goal with |- context [drainLoop now ?s] =>
      destruct (drainLoop_dispatch now s) as [(Hp & _) | (t & Hq & Hp & Hpace & Hl & _)]
    end.
    + left. rewrite Hp. by destruct (0 <? rateLimitResetTime st).
    + right. exists t. rewrite Hp, Hl. clear Hp Hl.
      destruct (0 <? rateLimitResetTime st); st_simpl; done.
Qed.

(** The continuation of the drain sends nothing, or the request of the
    task at the head of the queue. *)
Lemma resumeDrain_dispatch (now : Z) (st : State) :
  posted (resumeDrain now st) = posted st
  \/ (exists t,
        requestQueue st = t :: requestQueue (resumeDrain now st)
        /\ posted (resumeDrain now st) = (screenName t, nextId st) :: posted st
        /\ MIN_REQUEST_INTERVAL <= now - lastRequestTime st
        /\ lastRequestTime (resumeDrain now st) = now).
Proof.
  unfold resumeDrain.
  destruct (drain st) as [| | t0 q]; [by left | by left |].
  destruct (requestPromises st !! q) as [[| loc | err]|];
    [by left | | | by left]; unfold drainFinally.
  - match goal with |- context [drainLoop now ?s] =>
      destruct (drainLoop_dispatch now s) as [(Hp & _) | (t & Hq & Hp & Hpace & Hl & _)]
    end.
    + left. rewrite Hp. unfold taskResolve.
      by destruct (0 <? consecutiveRateLimits st)%nat.
    + right. exists t. rewrite Hp, Hl. clear Hp Hl. unfold taskResolve in *.
      destruct (0 <? consecutiveRateLimits st)%nat; st_simpl; done.
  - match goal with |- context [drainLoop now ?s] =>
      destruct (drainLoop_dispatch now s) as [(Hp & _) | (t & Hq & Hp & Hpace & Hl & _)]
    end.
    + left. by rewrite Hp.
    + right. exists t. rewrite Hp, Hl. clear Hp Hl. unfold taskReject in *.
      st_simpl. done.
Qed.

Lemma saveCacheEntry_queue (ctx : bool) (now : Z) (username : string)
    (loc : option string) (st : State) :
  posted (saveCacheEntry ctx now username loc st) = posted st
  /\ requestQueue (saveCacheEntry ctx now username loc st) = requestQueue st
  /\ nextId (saveCacheEntry ctx now username loc st) = nextId st
  /\ lastRequestTime (saveCacheEntry ctx now username loc st)
     = lastRequestTime st
  /\ rateLimitResetTime (saveCacheEntry ctx now username loc st)
     = rateLimitResetTime st
  /\ consecutiveRateLimits (saveCacheEntry ctx now username loc st)
     = consecutiveRateLimits st
  /\ locationPromises (saveCacheEntry ctx now username loc st)
     = locationPromises st
  /\ pendingLocationRequests (saveCacheEntry ctx now username loc st)
     = pendingLocationRequests st.
Proof.
  unfold saveCacheEntry, updateStats. repeat case_match; st_simpl; done.
Qed.

(** X8. Requests leave in queue order, at most one per event. Every task of
    the event loop either sends nothing or sends exactly one request, and
    that request is the one of the task at the head of the queue (the queue
    as extended by a task the event itself appends at its tail); the task is
    removed from the queue and the rest keeps its order. *)
Theorem requests_leave_in_queue_order (ctx : bool) (now : Z) (ev : Event)
    (st : State) :
  let st' := step ctx now ev st in
  (posted st' = posted st)
  \/ exists t id appended,
       posted st' = (screenName t, id) :: posted st
       /\ (requestQueue st ++ appended)%list = t :: requestQueue st'
       /\ (appended = []
           \/ exists name p,
                ev = EvGetLocation name
                /\ appended = [{| screenName := name; promise := p |}]).
Proof.
  cbv zeta.
  destruct ev as [name | resetTime | name q loc limited | i | name loc | |];
    cbn [step]; [| by left | | | | by left | by left].
  - (* getLocation *)
    unfold getLocation.
    pose proof (cacheCheck_frame now name st) as Hf. cbv zeta in Hf.
    destruct Hf as (Hq & _ & _ & Hp).
    destruct (cacheCheck now name st) as [st1 hit]. cbn [fst] in *.
    destruct hit; [left; exact Hp |].
    destruct (pendingLocationRequests st1 !! name); [left; exact Hp |].
    destruct (MAX_QUEUE_SIZE <=? length (requestQueue st1))%nat;
      [left; exact Hp |].
    unfold enqueueRequest. cbn [fst]. st_simpl.
    match goal with |- context [processRequestQueue now ?s] =>
      destruct (processRequestQueue_dispatch now s)
        as [Hsame | (t & Hhead & Hsent & _)]
    end.
    + left. rewrite Hsame. exact Hp.
    + right.
      exists t, (S (nextId st1)),
        [{| screenName := name; promise := nextId st1 |}].
      rewrite Hsent, <- Hq, <- Hhead.
      split; [by rewrite <- Hp |]. split; [done |]. right. eauto.
  - (* a response *)
    unfold onLocationResponse.
    destruct (messageHandlers st !! q) as [name' |]; [| by left].
    destruct (String.eqb name' name); [| by left].
    set (st1 := with_messageHandlers (delete q (messageHandlers st)) st).
    assert (Hst2 : exists st2,
               (if negb limited
                then saveCacheEntry ctx now name (orNull loc) st1 else st1)
               = st2
               /\ posted st2 = posted st
               /\ requestQueue st2 = requestQueue st
               /\ nextId st2 = nextId st).
    { destruct limited; cbn [negb]; [by exists st1 |].
      exists (saveCacheEntry ctx now name (orNull loc) st1).
      destruct (saveCacheEntry_queue ctx now name (orNull loc) st1)
        as (-> & -> & -> & _).
      done. }
    destruct Hst2 as (st2 & -> & Hp & Hq & Hn).
    match goal with |- context [resumeDrain now ?s] =>
      destruct (resumeDrain_dispatch now s)
        as [Hsame | (t & Hhead & Hsent & _)]
    end.
    + left. rewrite Hsame. exact Hp.
    + right. exists t, (nextId st2), []. rewrite Hsent, app_nil_r.
      st_simpl. rewrite <- Hq, <- Hp. by eauto.
  - (* a timer *)
    unfold fireTimer. destruct (timers st !! i) as [tm |]; [| by left].
    destruct tm as [d | d | d requestId name | d]; [| | | by left].
    + match goal with |- context [processRequestQueue now ?s] =>
        destruct (processRequestQueue_dispatch now s)
          as [Hsame | (t & Hhead & Hsent & _)]
      end; [by left |].
      right. exists t, (nextId st), []. rewrite app_nil_r. by eauto.
    + unfold onWake. st_simpl. destruct (drain st); [by left | | by left].
      unfold dispatchHead, makeLocationRequest. st_simpl.
      destruct (requestQueue st) as [| t rest] eqn:Hq; [by left |].
      right. exists t, (nextId st), []. st_simpl. rewrite app_nil_r.
      by eauto.
    + unfold onRequestTimeout.
      match goal with |- context [resumeDrain now ?s] =>
        destruct (resumeDrain_dispatch now s)
          as [Hsame | (t & Hhead & Hsent & _)]
      end; [by left |].
      right. exists t, (nextId st), []. rewrite app_nil_r. by eauto.
  - left. unfold updateStats. repeat case_match; done.
Qed.

(** ** What the end of a request does *)

(** The drain's continuation once the request it awaits has been resolved
    with [v]. *)
Lemma settle_awaited_effect (now : Z) (st : State) (t : QueuedTask) (q : nat)
    (v : option string) :
  drain st = Awaiting t q ->
  requestPromises st !! q = Some Pending ->
  let st' := resumeDrain now
               (with_requestPromises (resolveIn q v (requestPromises st)) st) in
  consecutiveRateLimits st' = 0%nat
  /\ rateLimitResetTime st' = rateLimitResetTime st
  /\ locationPromises st' = resolveIn (promise t) v (locationPromises st)
  /\ pendingLocationRequests st'
     = delete (screenName t) (pendingLocationRequests st)
  /\ locationCache st' = locationCache st.
Proof.
  intros Hd Hq. cbv zeta. unfold resumeDrain. st_simpl. rewrite Hd.
  rewrite lookup_resolveIn, decide_True by done. rewrite Hq.
  unfold drainFinally.
  match goal with |- context [drainLoop now ?s] =>
    pose proof (drainLoop_frame now s) as Hf; cbv zeta in Hf;
    destruct Hf as (-> & _ & -> & -> & -> & ->)
  end.
  unfold taskResolve.
  destruct (0 <? consecutiveRateLimits st)%nat eqn:Hc; st_simpl;
    repeat split; try done.
  apply Nat.ltb_ge in Hc. lia.
Qed.

(** X9. Whatever ends the request in flight resets the backoff: in a
    reachable state, the response to the awaited request, also one that
    reports a rate limit, and the timeout of that request both set
    [consecutiveRateLimits] to 0 and leave [rateLimitResetTime] as it is. *)
Theorem settled_request_resets_backoff (ctx : bool) (now : Z) (st : State)
    (t : QueuedTask) (q : nat) :
  reachable st ->
  drain st = Awaiting t q ->
  (forall loc limited,
     let st' := step ctx now (EvLocationResponse (screenName t) q loc limited)
                  st in
     consecutiveRateLimits st' = 0%nat
     /\ rateLimitResetTime st' = rateLimitResetTime st)
  /\ (forall i d name,
        timers st !! i = Some (TRequestTimeout d q name) ->
        let st' := step ctx now (EvTimer i) st in
        consecutiveRateLimits st' = 0%nat
        /\ rateLimitResetTime st' = rateLimitResetTime st).
Proof.
  intros Hr Hd. pose proof (reachable_InFlight st Hr) as Hfl.
  destruct (flight_awaited st Hfl t q Hd) as [Hq Hh].
  split.
  - intros loc limited. cbn [step]. unfold onLocationResponse.
    rewrite Hh, String.eqb_refl.
    set (st1 := with_messageHandlers (delete q (messageHandlers st)) st).
    assert (Hst2 : exists st2,
               (if negb limited
                then saveCacheEntry ctx now (screenName t) (orNull loc) st1
                else st1) = st2
               /\ drain st2 = Awaiting t q
               /\ requestPromises st2 !! q = Some Pending
               /\ rateLimitResetTime st2 = rateLimitResetTime st).
    { destruct limited; cbn [negb]; [by exists st1 |].
      eexists; split; [reflexivity |].
      pose proof (saveCacheEntry_flight ctx now (screenName t) (orNull loc)
                    st1) as Hf.
      unfold flightFields in Hf. injection Hf as Hf1 _ Hf3 _.
      rewrite Hf1, Hf3.
      destruct (saveCacheEntry_queue ctx now (screenName t) (orNull loc) st1)
        as (_ & _ & _ & _ & -> & _).
      done. }
    destruct Hst2 as (st2 & -> & Hd2 & Hq2 & <-).
    destruct (settle_awaited_effect now st2 t q (orNull loc) Hd2 Hq2)
      as (H1 & H2 & _).
    by split.
  - intros i d name Hi. cbn [step]. unfold fireTimer. rewrite Hi.
    unfold onRequestTimeout.
    match goal with |- context [resumeDrain now (with_requestPromises _ ?s)] =>
      destruct (settle_awaited_effect now s t q None) as (H1 & H2 & _);
        [exact Hd | exact Hq |]
    end.
    by split.
Qed.

Lemma settled_request_resets_backoff_witness :
  let st := step true 5900 (EvRateLimitInfo 1000)
              (fst (getLocation 5000 "bob" initialState)) in
  consecutiveRateLimits st = 1%nat
  /\ consecutiveRateLimits
       (step true 6000 (EvLocationResponse "bob" 1 None true) st) = 0%nat.
Proof.
  set (st := step true 5900 (EvRateLimitInfo 1000)
               (fst (getLocation 5000 "bob" initialState))).
  assert (Hr : reachable st).
  { exact (reachable_step true 5900 (EvRateLimitInfo 1000) _
             (reachable_step true 5000 (EvGetLocation "bob") initialState
                reachable_init)). }
  assert (Hd : drain st = Awaiting {| screenName := "bob"; promise := 0 |} 1)
    by (vm_compute; reflexivity).
  split; [vm_compute; reflexivity |].
  destruct (settled_request_resets_backoff true 6000 st _ _ Hr Hd)
    as [Hresp _].
  exact (proj1 (Hresp None true)).
Defined.

(** ** Every waiting caller has a task *)

Lemma tracked_ext (ts : list QueuedTask) (st st' : State) :
  locationPromises st' = locationPromises st ->
  (nextId st <= nextId st')%nat ->
  tracked ts st -> tracked ts st'.
Proof.
  intros Hp Hn (H1 & H2 & H3). unfold tracked. rewrite Hp.
  split; [done |]. split; [| done].
  intros p Hsome. apply H2 in Hsome. lia.
Qed.

Lemma tracked_fields (st st' : State) :
  taskFields st' = taskFields st ->
  tracked (tasksOf st) st -> tracked (tasksOf st') st'.
Proof.
  unfold taskFields, tasksOf. intros [= Hd Hq Hp Hn]. rewrite Hd, Hq.
  apply tracked_ext; [done | lia].
Qed.

Lemma tracked_dispatchHead (now : Z) (st : State) :
  tracked (requestQueue st) st ->
  tracked (tasksOf (dispatchHead now st)) (dispatchHead now st).
Proof.
  intros H. unfold dispatchHead, makeLocationRequest, tasksOf.
  destruct (requestQueue st) as [| t rest] eqn:Hq; st_simpl.
  - rewrite Hq. by apply (tracked_ext [] st).
  - apply (tracked_ext (t :: rest) st); st_simpl; [done | lia | done].
Qed.

Lemma tracked_drainLoop (now : Z) (st : State) :
  tracked (requestQueue st) st ->
  tracked (tasksOf (drainLoop now st)) (drainLoop now st).
Proof.
  intros H. unfold drainLoop.
  destruct (negb (length (requestQueue st) =? 0)%nat
            && (activeRequests st <? MAX_CONCURRENT_REQUESTS)).
  - destruct (now - lastRequestTime st <? MIN_REQUEST_INTERVAL).
    + unfold tasksOf. st_simpl. by apply (tracked_ext _ st).
    + by apply tracked_dispatchHead.
  - unfold tasksOf. st_simpl. by apply (tracked_ext _ st).
Qed.

(** What the purge does to the promises. *)
Lemma rejectAll_promises (queue : list QueuedTask) (st : State) (p : nat) :
  locationPromises
    (fold_left (fun s t => taskReject t "Rate limited" s) queue st) !! p
  = if decide (p ∈ promise <$> queue)
    then match locationPromises st !! p with
         | Some Pending => Some (Rejected "Rate limited")
         | o => o
         end
    else locationPromises st !! p.
Proof.
  revert st. induction queue as [| t queue IH]; intros st.
  - cbn [fold_left fmap list_fmap]. rewrite decide_False; [done |].
    apply not_elem_of_nil.
  - cbn [fold_left]. rewrite IH. unfold taskReject. st_simpl.
    rewrite fmap_cons, lookup_rejectIn.
    destruct (decide (promise t = p)) as [<- | Hne].
    + rewrite (decide_True (P := promise t ∈ promise t :: _))
        by apply list_elem_of_here.
      destruct (locationPromises st !! promise t) as [[]|];
        by case_decide.
    + case_decide as Hin.
      * rewrite decide_True; [done |]. by apply list_elem_of_further.
      * rewrite decide_False; [done |].
        intros [? | ?]%elem_of_cons; [congruence | done].
Qed.

Lemma tracked_tail (t : QueuedTask) (ts : list QueuedTask) (st st' : State) :
  tracked (t :: ts) st ->
  (forall p, locationPromises st' !! p = Some Pending
             <-> locationPromises st !! p = Some Pending /\ p <> promise t) ->
  (forall p, is_Some (locationPromises st' !! p)
             -> is_Some (locationPromises st !! p)) ->
  nextId st' = nextId st ->
  tracked ts st'.
Proof.
  intros (H1 & H2 & H3) Hp Hs Hn.
  rewrite fmap_cons in H3. apply NoDup_cons in H3 as [Hnotin Hnd].
  split; [| split; [| done]].
  - intros p. rewrite Hp, H1. split.
    + intros [(t' & [-> | Hin]%elem_of_cons & <-) Hne]; [done |]. eauto.
    + intros (t' & Hin & <-). split.
      * exists t'. split; [by apply list_elem_of_further | done].
      * intros Heq. apply Hnotin. rewrite <- Heq.
        by apply list_elem_of_fmap_2.
  - intros p Hsome. rewrite Hn. by apply H2, Hs.
Qed.

Lemma tracked_resumeDrain (now : Z) (st : State) :
  tracked (tasksOf st) st ->
  tracked (tasksOf (resumeDrain now st)) (resumeDrain now st).
Proof.
  intros H. unfold resumeDrain.
  destruct (drain st) as [| | t q] eqn:Hd; [done | done |].
  unfold tasksOf in H. rewrite Hd in H.
  destruct (requestPromises st !! q) as [[| loc | err]|]; [| | | ];
    try (by unfold tasksOf; rewrite Hd).
  - unfold drainFinally. apply tracked_drainLoop. st_simpl.
    unfold taskResolve.
    assert (Hq : requestQueue
                   (if (0 <? consecutiveRateLimits st)%nat
                    then with_consecutiveRateLimits 0%nat st else st)
                 = requestQueue st) by (by case_match).
    st_simpl. rewrite Hq. apply (tracked_tail t _ st); [done | | |].
    + intros p. st_simpl.
      replace (locationPromises _) with (locationPromises st)
        by (by case_match).
      rewrite lookup_resolveIn. case_decide as Hp; [subst p |].
      * destruct (locationPromises st !! promise t) as [[]|];
          split; try done; by intros [_ ?].
      * split; [by intros ? | by intros [? _]].
    + intros p. st_simpl.
      replace (locationPromises _) with (locationPromises st)
        by (by case_match).
      apply resolveIn_is_Some.
    + st_simpl. by case_match.
  - unfold drainFinally. apply tracked_drainLoop. st_simpl.
    unfold taskReject. st_simpl. apply (tracked_tail t _ st); [done | | |].
    + intros p. st_simpl. rewrite lookup_rejectIn.
      case_decide as Hp; [subst p |].
      * destruct (locationPromises st !! promise t) as [[]|];
          split; try done; by intros [_ ?].
      * split; [by intros ? | by intros [? _]].
    + intros p. st_simpl. rewrite lookup_rejectIn.
      case_decide as Hp; [subst p |]; [| done].
      by destruct (locationPromises st !! promise t) as [[]|].
    + done.
Qed.

Lemma tracked_processRequestQueue (now : Z) (st : State) :
  Inv st ->
  tracked (tasksOf st) st ->
  tracked (tasksOf (processRequestQueue now st)) (processRequestQueue now st).
Proof.
  intros HInv H. unfold processRequestQueue.
  destruct (isProcessingQueue st) eqn:Hproc; [done |]. cbn [orb].
  destruct (length (requestQueue st) =? 0)%nat; [done |].
  assert (Hd : drain st = Idle).
  { destruct (drain st) eqn:Hd; [done | |];
      (assert (Hne : drain st <> Idle) by (by rewrite Hd);
       apply (inv_drain_flag st HInv) in Hne; congruence). }
  unfold tasksOf in H. rewrite Hd in H.
  destruct (isRateLimited now st).
  - unfold rejectQueued.
    pose proof (rejectAll_frame (requestQueue st) st) as Hf.
    cbv zeta in Hf.
    destruct Hf as (_ & Hd' & _ & _ & _ & _ & _ & _ & _ & _ & Hn).
    unfold tasksOf. st_simpl. rewrite Hd', Hd.
    destruct H as (H1 & H2 & H3).
    split; [| split; [| apply NoDup_nil_2]]; st_simpl.
    + intros p. rewrite rejectAll_promises. split.
      * case_decide as Hin.
        -- by destruct (locationPromises st !! p) as [[]|].
        -- intros (t & Ht & <-)%H1. destruct Hin.
           by apply list_elem_of_fmap_2.
      * intros (t & Ht & _). by apply elem_of_nil in Ht.
    + intros p. rewrite rejectAll_promises, Hn. intros Hsome. apply H2.
      case_decide; [| done].
      by destruct (locationPromises st !! p) as [[]|].
  - apply tracked_drainLoop. st_simpl.
    destruct (0 <? rateLimitResetTime st); unfold resetRateLimit; st_simpl;
      by apply (tracked_ext _ st).
Qed.

Lemma cacheCheck_tasks (now : Z) (name : string) (st : State) :
  taskFields (fst (cacheCheck now name st)) = taskFields st.
Proof. unfold cacheCheck. repeat case_match; done. Qed.

Lemma updateStats_tasks (username loc : string) (st : State) :
  taskFields (updateStats username loc st) = taskFields st.
Proof. unfold updateStats. repeat case_match; done. Qed.

Lemma saveCacheEntry_tasks (ctx : bool) (now : Z) (username : string)
    (loc : option string) (st : State) :
  taskFields (saveCacheEntry ctx now username loc st) = taskFields st.
Proof.
  unfold saveCacheEntry. destruct ctx; [| done]. cbn [negb].
  destruct loc as [l |]; case_match; unfold taskFields; st_simpl;
    try done;
    match goal with |- context [updateStats ?u ?l ?s] =>
      pose proof (updateStats_tasks u l s) as Hf end;
    unfold taskFields in Hf; st_simpl; exact Hf.
Qed.

Lemma loadCache_tasks (ctx : bool) (now : Z)
    (cached : option (list (string * PersistedEntry))) (st : State) :
  taskFields (loadCache ctx now cached st) = taskFields st.
Proof.
  unfold loadCache. destruct ctx; [| done]. cbn [negb].
  destruct cached as [entries |]; [| done].
  revert st. induction entries as [| [k d] entries IH]; intros st; [done |].
  cbn [fold_left]. rewrite IH. unfold loadEntry.
  repeat case_match; done.
Qed.

Lemma tracked_getLocation (now : Z) (name : string) (st : State) :
  Inv st ->
  tracked (tasksOf st) st ->
  tracked (tasksOf (fst (getLocation now name st)))
          (fst (getLocation now name st)).
Proof.
  intros HInv H. unfold getLocation.
  pose proof (cacheCheck_tasks now name st) as Hf.
  pose proof (Inv_cacheCheck now name st HInv) as HInv1.
  destruct (cacheCheck now name st) as [st1 hit]. cbn [fst] in *.
  assert (H1 : tracked (tasksOf st1) st1) by (by apply (tracked_fields st)).
  destruct hit; [done |].
  destruct (pendingLocationRequests st1 !! name); [done |].
  destruct (MAX_QUEUE_SIZE <=? length (requestQueue st1))%nat eqn:Hfull;
    [done |].
  apply Nat.leb_gt in Hfull.
  unfold enqueueRequest. cbn [fst].
  match goal with |- context [processRequestQueue now ?s] =>
    set (st2 := s) end.
  assert (HInv2 : Inv st2).
  { subst st2. destruct HInv1
      as [Hqueue Hnotrej Hratelim Hids Hhids Hptimer Hdflag Hsleep].
    split; st_simpl; try done.
    - rewrite length_app. simpl. lia.
    - intros p e. destruct (decide (nextId st1 = p)) as [<- | Hne].
      + by rewrite lookup_insert_eq.
      + rewrite lookup_insert_ne by done. apply Hratelim.
    - intros q Hq. apply Hids in Hq. lia.
    - intros q Hq. apply Hhids in Hq. lia.
    - intros _ Hnil. by destruct (requestQueue st1). }
  assert (H2 : tracked (tasksOf st2) st2).
  { set (new := {| screenName := name; promise := nextId st1 |}).
    assert (Hts : tasksOf st2 = (tasksOf st1 ++ [new])%list).
    { subst st2. unfold tasksOf. st_simpl. by destruct (drain st1). }
    rewrite Hts. destruct H1 as (Hp & Hb & Hnd).
    assert (Hfresh : forall t, t ∈ tasksOf st1 -> promise t <> nextId st1).
    { intros t Ht Heq.
      assert (Hsome : is_Some (locationPromises st1 !! promise t)).
      { exists Pending. apply Hp. eauto. }
      apply Hb in Hsome. lia. }
    subst st2. split; [| split]; st_simpl.
    - intros p. destruct (decide (nextId st1 = p)) as [<- | Hne].
      + rewrite lookup_insert_eq. split; [| done]. intros _.
        exists new. split; [| done]. apply elem_of_app. right.
        apply list_elem_of_singleton. done.
      + rewrite lookup_insert_ne by done. rewrite Hp. split.
        * intros (t & Ht & <-). exists t. split; [| done].
          apply elem_of_app. by left.
        * intros (t & [Ht | Ht%list_elem_of_singleton]%elem_of_app & <-);
            [eauto |]. subst t. done.
    - intros p. destruct (decide (nextId st1 = p)) as [<- | Hne].
      + intros _. lia.
      + rewrite lookup_insert_ne by done. intros Hs%Hb. lia.
    - rewrite fmap_app. apply NoDup_app. split; [done |]. split.
      + intros p (t & -> & Ht)%list_elem_of_fmap.
        intros Heq%list_elem_of_singleton. by apply (Hfresh t).
      + apply NoDup_singleton. }
  pose proof (tracked_processRequestQueue now st2 HInv2 H2) as H3.
  by apply (tracked_fields (processRequestQueue now st2)).
Qed.

Lemma tracked_step (ctx : bool) (now : Z) (ev : Event) (st : State) :
  Inv st ->
  tracked (tasksOf st) st ->
  tracked (tasksOf (step ctx now ev st)) (step ctx now ev st).
Proof.
  intros HInv H.
  destruct ev as [name | resetTime | name q loc limited | i | name loc | |];
    cbn [step].
  - by apply tracked_getLocation.
  - by apply (tracked_fields st).
  - unfold onLocationResponse.
    destruct (messageHandlers st !! q) as [name' |]; [| done].
    destruct (String.eqb name' name); [| done].
    apply tracked_resumeDrain.
    match goal with |- tracked (tasksOf ?s) _ =>
      apply (tracked_fields st s); [| done] end.
    destruct limited; cbn [negb]; [done |].
    unfold taskFields. st_simpl.
    apply (saveCacheEntry_tasks ctx now name (orNull loc)
             (with_messageHandlers (delete q (messageHandlers st)) st)).
  - unfold fireTimer. destruct (timers st !! i) as [tm |] eqn:Hi; [| done].
    destruct tm as [d | d | d requestId name | d].
    + apply tracked_processRequestQueue.
      * by apply (Inv_drop_timer i (TProcessQueue d)).
      * by apply (tracked_fields st).
    + unfold onWake. st_simpl. destruct (drain st) eqn:Hd; try done.
      apply tracked_dispatchHead. st_simpl.
      unfold tasksOf in H. by rewrite Hd in H.
    + unfold onRequestTimeout. apply tracked_resumeDrain.
      by apply (tracked_fields st).
    + by apply (tracked_fields st).
  - apply (tracked_fields st); [apply updateStats_tasks | done].
  - by apply (tracked_fields st).
  - by apply (tracked_fields st).
Qed.

Lemma reachable_tracked (st : State) :
  reachable st -> tracked (tasksOf st) st.
Proof.
  induction 1 as [| ctx now cached | ctx now ev st Hr IH].
  - split; [| split]; cbn.
    + intros p. rewrite lookup_empty. split; [done |].
      intros (t & Ht & _). by apply elem_of_nil in Ht.
    + intros p [? Hp]. by rewrite lookup_empty in Hp.
    + apply NoDup_nil_2.
  - apply (tracked_fields initialState); [apply loadCache_tasks |].
    split; [| split]; cbn.
    + intros p. rewrite lookup_empty. split; [done |].
      intros (t & Ht & _). by apply elem_of_nil in Ht.
    + intros p [? Hp]. by rewrite lookup_empty in Hp.
    + apply NoDup_nil_2.
  - apply tracked_step; [by apply reachable_Inv | done].
Qed.

(** X10. Every caller that still waits has its task. In every reachable
    state the promises created by [getLocation] that are still pending are
    exactly the promises of the queued tasks and of the task whose request
    is in flight, and these tasks have pairwise different promises: a
    pending promise is never left without a task that will settle it, and a
    task that is queued or in flight has not been settled yet. *)
Theorem pending_callers_have_a_task (st : State) (Hr : reachable st) :
  (forall p, locationPromises st !! p = Some Pending
             <-> exists t, t ∈ tasksOf st /\ promise t = p)
  /\ NoDup (promise <$> tasksOf st).
Proof.
  destruct (reachable_tracked st Hr) as (H1 & _ & H3). by split.
Qed.

Lemma pending_callers_have_a_task_witness :
  let st := fst (getLocation 5100 "carol"
                   (fst (getLocation 5000 "bob" initialState))) in
  NoDup (promise <$> tasksOf st)
  /\ forall p, locationPromises st !! p = Some Pending ->
                p = 0%nat \/ p = 2%nat.
Proof.
  set (st := fst (getLocation 5100 "carol"
                    (fst (getLocation 5000 "bob" initialState)))).
  assert (Hr : reachable st).
  { exact (reachable_step true 5100 (EvGetLocation "carol") _
             (reachable_step true 5000 (EvGetLocation "bob") initialState
                reachable_init)). }
  destruct (pending_callers_have_a_task st Hr) as [Hp Hnd].
  split; [exact Hnd |].
  intros p Hpend. apply Hp in Hpend as (t & Ht & <-). revert Ht.
  vm_compute.
  intros [-> | [-> | Hnil]%elem_of_cons]%elem_of_cons; [by left | by right |].
  by apply elem_of_nil in Hnil.
Defined.

(** ** Callers that wait for the same name *)

(** X11. Everyone waiting for a name gets the same answer. In a reachable
    state, when the response to the request in flight arrives (not rate
    limited, extension context valid), the caller that created the request
    is fulfilled with [createLocationInfo(location || null)], and so is,
    whenever it resumes, every caller that awaited the same promise; the
    value is cached under the name and the name is no longer pending. *)
Theorem waiters_get_the_owner_result (now : Z) (st : State) (t : QueuedTask)
    (q : nat) (loc : option string) :
  reachable st ->
  drain st = Awaiting t q ->
  let st' := step true now (EvLocationResponse (screenName t) q loc false)
               st in
  let info := createLocationInfo (orNull loc) in
  resumeOwner (promise t) st' = Fulfilled info
  /\ (forall now',
        resumeWaiter now' (screenName t) (promise t) st' = Fulfilled info)
  /\ locationCache st' !! screenName t
     = Some {| entry_location := orNull loc;
               entry_expiry := calculateExpiry (orNull loc) now;
               entry_cachedAt := Some now |}
  /\ pendingLocationRequests st' !! screenName t = None.
Proof.
  intros Hr Hd. pose proof (reachable_InFlight st Hr) as Hfl.
  destruct (flight_awaited st Hfl t q Hd) as [Hq Hh].
  destruct (reachable_tracked st Hr) as (Hp & _ & _).
  assert (Hpend : locationPromises st !! promise t = Some Pending).
  { apply Hp. exists t. split; [| done]. unfold tasksOf. rewrite Hd.
    apply list_elem_of_here. }
  cbv zeta. cbn [step]. unfold onLocationResponse.
  rewrite Hh, String.eqb_refl. cbn [negb].
  set (st1 := with_messageHandlers (delete q (messageHandlers st)) st).
  set (st2 := saveCacheEntry true now (screenName t) (orNull loc) st1).
  pose proof (saveCacheEntry_flight true now (screenName t) (orNull loc) st1)
    as Hf.
  unfold flightFields in Hf. fold st2 in Hf. injection Hf as Hf1 _ Hf3 _.
  assert (Hd2 : drain st2 = Awaiting t q) by (by rewrite Hf1).
  assert (Hq2 : requestPromises st2 !! q = Some Pending) by (by rewrite Hf3).
  destruct (settle_awaited_effect now st2 t q (orNull loc) Hd2 Hq2)
    as (_ & _ & Hprom & Hreg & Hcache).
  destruct (saveCacheEntry_queue true now (screenName t) (orNull loc) st1)
    as (_ & _ & _ & _ & _ & _ & Hlp & _).
  fold st2 in Hlp.
  assert (Hentry : locationCache st2 !! screenName t
                   = Some {| entry_location := orNull loc;
                             entry_expiry := calculateExpiry (orNull loc) now;
                             entry_cachedAt := Some now |}).
  { subst st2. rewrite saveCacheEntry_cache. apply lookup_insert_eq. }
  unfold resumeOwner, resumeWaiter.
  rewrite Hprom, Hreg, Hcache, Hlp, Hentry. subst st1. st_simpl.
  rewrite lookup_resolveIn, decide_True by done. rewrite Hpend.
  split; [done |]. split; [| split; [done | apply lookup_delete_eq]].
  intros now'. by case_match.
Qed.

Lemma waiters_get_the_owner_result_witness :
  let st := fst (getLocation 5000 "bob" initialState) in
  let st' := step true 6000 (EvLocationResponse "bob" 1 (Some "France") false)
               st in
  resumeWaiter 7000 "bob" 0 st' = resumeOwner 0 st'.
Proof.
  set (st := fst (getLocation 5000 "bob" initialState)).
  assert (Hr : reachable st).
  { exact (reachable_step true 5000 (EvGetLocation "bob") initialState
             reachable_init). }
  assert (Hd : drain st = Awaiting {| screenName := "bob"; promise := 0 |} 1)
    by (vm_compute; reflexivity).
  destruct (waiters_get_the_owner_result 6000 st _ _ (Some "France") Hr Hd)
    as (Ho & Hw & _).
  intros st0 st'. subst st0 st'.
  exact (eq_trans (Hw 7000) (eq_sym Ho)).
Defined.

(** ** Pacing *)

Lemma cacheCheck_clock (now : Z) (name : string) (st : State) :
  lastRequestTime (fst (cacheCheck now name st)) = lastRequestTime st.
Proof. unfold cacheCheck. repeat case_match; done. Qed.

(** X12. Requests are paced. Whenever a task of the event loop sends a
    request, it records the current time in [lastRequestTime]; and unless
    the task is the wake-up of a drain that slept to let the interval pass,
    at least [MIN_REQUEST_INTERVAL] milliseconds lie between the previous
    request and this one. *)
Theorem requests_are_paced (ctx : bool) (now : Z) (ev : Event) (st : State) :
  posted (step ctx now ev st) <> posted st ->
  lastRequestTime (step ctx now ev st) = now
  /\ (MIN_REQUEST_INTERVAL <= now - lastRequestTime st
      \/ exists i d, ev = EvTimer i
                     /\ timers st !! i = Some (TWake d)
                     /\ drain st = Sleeping).
Proof.
  destruct ev as [name | resetTime | name q loc limited | i | name loc | |];
    cbn [step]; try done.
  - (* getLocation *)
    unfold getLocation.
    pose proof (cacheCheck_frame now name st) as Hf. cbv zeta in Hf.
    destruct Hf as (_ & _ & _ & Hp).
    pose proof (cacheCheck_clock now name st) as Hc.
    destruct (cacheCheck now name st) as [st1 hit]. cbn [fst] in *.
    destruct hit; [done |].
    destruct (pendingLocationRequests st1 !! name); [done |].
    destruct (MAX_QUEUE_SIZE <=? length (requestQueue st1))%nat; [done |].
    unfold enqueueRequest. cbn [fst]. st_simpl.
    match goal with |- context [processRequestQueue now ?s] =>
      destruct (processRequestQueue_dispatch now s)
        as [Hsame | (t & _ & _ & Hpace & Hlast)]
    end.
    + intros Hsent. destruct Hsent. rewrite Hsame. exact Hp.
    + intros _. st_simpl. rewrite Hc in Hpace. by split; [| left].
  - (* a response *)
    unfold onLocationResponse.
    destruct (messageHandlers st !! q) as [name' |]; [| done].
    destruct (String.eqb name' name); [| done].
    set (st1 := with_messageHandlers (delete q (messageHandlers st)) st).
    assert (Hst2 : exists st2,
               (if negb limited
                then saveCacheEntry ctx now name (orNull loc) st1 else st1)
               = st2
               /\ posted st2 = posted st
               /\ lastRequestTime st2 = lastRequestTime st).
    { destruct limited; cbn [negb]; [by exists st1 |].
      exists (saveCacheEntry ctx now name (orNull loc) st1).
      destruct (saveCacheEntry_queue ctx now name (orNull loc) st1)
        as (-> & _ & _ & -> & _).
      done. }
    destruct Hst2 as (st2 & -> & Hp & Hc).
    match goal with |- context [resumeDrain now ?s] =>
      destruct (resumeDrain_dispatch now s)
        as [Hsame | (t & _ & _ & Hpace & Hlast)]
    end.
    + intros Hsent. destruct Hsent. rewrite Hsame. exact Hp.
    + intros _. st_simpl. rewrite Hc in Hpace. by split; [| left].
  - (* a timer *)
    unfold fireTimer. destruct (timers st !! i) as [tm |] eqn:Hi; [| done].
    destruct tm as [d | d | d requestId name | d]; [| | | done].
    + match goal with |- context [processRequestQueue now ?s] =>
        destruct (processRequestQueue_dispatch now s)
          as [Hsame | (t & _ & _ & Hpace & Hlast)]
      end; [done |].
      intros _. by split; [| left].
    + unfold onWake. st_simpl. destruct (drain st) eqn:Hd; [done | | done].
      unfold dispatchHead, makeLocationRequest. st_simpl.
      destruct (requestQueue st) as [| t rest]; [done |].
      intros _. st_simpl. split; [done |]. right. by exists i, d.
    + unfold onRequestTimeout.
      match goal with |- context [resumeDrain now ?s] =>
        destruct (resumeDrain_dispatch now s)
          as [Hsame | (t & _ & _ & Hpace & Hlast)]
      end; [done |].
      intros _. by split; [| left].
  - unfold updateStats. repeat case_match; done.
Qed.

Lemma requests_are_paced_witness :
  let st := fst (getLocation 5000 "bob" initialState) in
  lastRequestTime st = 5000.
Proof.
  intros st. subst st.
  refine (proj1 (requests_are_paced true 5000 (EvGetLocation "bob")
                   initialState _)).
  vm_compute. discriminate.
Defined.

(** ** Debounced saves *)

Lemma scheduledSaves_app (l k : list Timer) :
  scheduledSaves (l ++ k) = (scheduledSaves l + scheduledSaves k)%nat.
Proof.
  induction l as [| tm l IH]; [done |].
  destruct tm; cbn [app scheduledSaves]; rewrite IH; done.
Qed.

Lemma saveCacheEntry_schedule (now : Z) (username : string)
    (loc : option string) (st : State) :
  saveCacheTimeout (saveCacheEntry true now username loc st) = true
  /\ scheduledSaves (timers (saveCacheEntry true now username loc st))
     = (scheduledSaves (timers st)
        + (if saveCacheTimeout st then 0 else 1))%nat.
Proof.
  unfold saveCacheEntry. cbn [negb].
  match goal with |- context [if saveCacheTimeout ?s then _ else _] =>
    assert (Hs : saveCacheTimeout s = saveCacheTimeout st
                 /\ timers s = timers st)
  end.
  { destruct loc as [l |]; [| done]. unfold updateStats.
    repeat case_match; done. }
  destruct Hs as [Hs Ht]. rewrite Hs.
  destruct (saveCacheTimeout st) eqn:Hflag.
  - rewrite Hs, Ht. split; [done | lia].
  - st_simpl. rewrite Ht, scheduledSaves_app. done.
Qed.

(** X13. Cache writes are debounced. However many entries a run of
    [saveCacheEntry] calls adds, it schedules [saveCache] at most once: one
    timer if none was scheduled before the run, none otherwise (and none,
    like everything else, when the extension context is invalid); after a
    run that did anything a save is scheduled. *)
Theorem saveCacheEntry_debounced (ctx : bool)
    (saves : list (Z * string * option string)) (st : State) :
  let st' := saveRun ctx saves st in
  let ran := ctx && negb (length saves =? 0)%nat in
  scheduledSaves (timers st')
  = (scheduledSaves (timers st)
     + (if ran && negb (saveCacheTimeout st) then 1 else 0))%nat
  /\ saveCacheTimeout st' = saveCacheTimeout st || ran.
Proof.
  cbv zeta. unfold saveRun. destruct ctx; cbn [andb].
  - revert st. induction saves as [| [[now u] l] saves IH]; intros st.
    + cbn. split; [lia | by rewrite orb_false_r].
    + cbn [fold_left]. destruct (IH (saveCacheEntry true now u l st))
        as [IH1 IH2].
      destruct (saveCacheEntry_schedule now u l st) as [Hflag Hcount].
      rewrite IH1, IH2, Hflag, Hcount. cbn [length Nat.eqb negb andb orb].
      rewrite orb_true_r.
      split; [| done]. rewrite andb_false_r.
      destruct (saveCacheTimeout st); cbn [negb]; lia.
  - assert (Hid : fold_left
                    (fun s '(now, username, loc) =>
                       saveCacheEntry false now username loc s) saves st = st).
    { induction saves as [| [[now u] l] saves IH]; [done |]. exact IH. }
    rewrite Hid. split; [lia | by rewrite orb_false_r].
Qed.

(** ** A lookup while the rate limit is active *)




(** ** The drain between two requests *)

(** The continuation of the drain with a task waiting in the queue. *)
Lemma settle_awaited_next (now : Z) (s : State) (t : QueuedTask) (q : nat)
    (v : option string) (t2 : QueuedTask) (rest : list QueuedTask) :
  drain s = Awaiting t q ->
  requestPromises s !! q = Some Pending ->
  activeRequests s = 1 ->
  requestQueue s = t2 :: rest ->
  let s' := resumeDrain now
              (with_requestPromises (resolveIn q v (requestPromises s)) s) in
  if now - lastRequestTime s <? MIN_REQUEST_INTERVAL
  then posted s' = posted s
       /\ drain s' = Sleeping
       /\ requestQueue s' = t2 :: rest
       /\ nextId s' = nextId s
       /\ timers s'
          = (timers s
             ++ [TProcessQueue 200;
                 TWake (MIN_REQUEST_INTERVAL - (now - lastRequestTime s))])%list
  else posted s' = (screenName t2, nextId s) :: posted s
       /\ drain s' = Awaiting t2 (nextId s)
       /\ requestQueue s' = rest.
Proof.
  intros Hd Hq Ha Hqueue. cbv zeta. unfold resumeDrain. st_simpl.
  rewrite Hd, lookup_resolveIn, decide_True by done. rewrite Hq.
  unfold drainFinally, taskResolve, drainLoop.
  destruct (0 <? consecutiveRateLimits s)%nat; st_simpl;
    rewrite Hqueue, Ha; cbn [length Nat.eqb negb andb];
    change (1 - 1 <? MAX_CONCURRENT_REQUESTS) with true; cbv iota;
    (destruct (now - lastRequestTime s <? MIN_REQUEST_INTERVAL);
     [st_simpl; rewrite Hqueue, <- app_assoc; done |]);
    unfold dispatchHead, makeLocationRequest; st_simpl; rewrite Hqueue;
    st_simpl; done.
Qed.

(** X15. The drain does not look at the rate limit between two requests. In
    a reachable state with a task waiting in the queue, the response to the
    request in flight, whatever it reports, makes the drain go on with the
    head of the queue: the request is sent at once when
    [MIN_REQUEST_INTERVAL] has passed since the last one, and otherwise by
    the wake-up timer set for the rest of the interval. [isRateLimited] is
    not consulted on this path. *)
Theorem drain_goes_on_after_a_response (ctx : bool) (now : Z) (st : State)
    (t : QueuedTask) (q : nat) (t2 : QueuedTask) (rest : list QueuedTask)
    (loc : option string) (limited : bool) :
  reachable st ->
  drain st = Awaiting t q ->
  requestQueue st = t2 :: rest ->
  let st' := step ctx now (EvLocationResponse (screenName t) q loc limited)
               st in
  let sent := (screenName t2, nextId st) :: posted st in
  if now - lastRequestTime st <? MIN_REQUEST_INTERVAL
  then posted st' = posted st
       /\ exists i,
            timers st' !! i
            = Some (TWake (MIN_REQUEST_INTERVAL - (now - lastRequestTime st)))
            /\ forall ctx' now',
                 posted (step ctx' now' (EvTimer i) st') = sent
                 /\ requestQueue (step ctx' now' (EvTimer i) st') = rest
  else posted st' = sent /\ requestQueue st' = rest.
Proof.
  intros Hr Hd Hqueue. pose proof (reachable_InFlight st Hr) as Hfl.
  destruct (flight_awaited st Hfl t q Hd) as [Hq Hh].
  pose proof (flight_active st Hfl) as Ha. rewrite Hd in Ha.
  cbv zeta. cbn [step]. unfold onLocationResponse.
  rewrite Hh, String.eqb_refl.
  set (st1 := with_messageHandlers (delete q (messageHandlers st)) st).
  assert (Hst2 : exists st2,
             (if negb limited
              then saveCacheEntry ctx now (screenName t) (orNull loc) st1
              else st1) = st2
             /\ drain st2 = Awaiting t q
             /\ requestPromises st2 !! q = Some Pending
             /\ activeRequests st2 = 1
             /\ requestQueue st2 = t2 :: rest
             /\ posted st2 = posted st
             /\ nextId st2 = nextId st
             /\ lastRequestTime st2 = lastRequestTime st).
  { destruct limited; cbn [negb]; [by exists st1 |].
    eexists; split; [reflexivity |].
    pose proof (saveCacheEntry_flight ctx now (screenName t) (orNull loc)
                  st1) as Hf.
    unfold flightFields in Hf. injection Hf as Hf1 Hf2 Hf3 _.
    rewrite Hf1, Hf2, Hf3.
    destruct (saveCacheEntry_queue ctx now (screenName t) (orNull loc) st1)
      as (-> & -> & -> & -> & _).
    done. }
  destruct Hst2 as (st2 & -> & Hd2 & Hq2 & Ha2 & Hqueue2 & Hp2 & Hn2 & Hl2).
  pose proof (settle_awaited_next now st2 t q (orNull loc) t2 rest
                Hd2 Hq2 Ha2 Hqueue2) as Hnext.
  cbv zeta in Hnext. rewrite Hl2, Hp2, Hn2 in Hnext.
  destruct (now - lastRequestTime st <? MIN_REQUEST_INTERVAL);
    [| by destruct Hnext as (? & _ & ?)].
  destruct Hnext as (Hp' & Hd' & Hq' & Hn' & Ht').
  split; [done |]. exists (S (length (timers st2))). split.
  { rewrite Ht'. rewrite lookup_app_r by lia.
    by replace (S (length (timers st2)) - length (timers st2))%nat
      with 1%nat by lia. }
  intros ctx' now'. cbn [step]. unfold fireTimer.
  rewrite Ht'. rewrite lookup_app_r by lia.
  replace (S (length (timers st2)) - length (timers st2))%nat
    with 1%nat by lia.
  cbn [lookup list_lookup]. unfold onWake. st_simpl. rewrite Hd'.
  unfold dispatchHead, makeLocationRequest. st_simpl. rewrite Hq'.
  st_simpl. by rewrite Hp', Hn'.
Qed.

Lemma drain_goes_on_after_a_response_witness :
  let st0 := fst (getLocation 5100 "carol"
                    (fst (getLocation 5000 "bob" initialState))) in
  let st := step true 9000 (EvRateLimitInfo 1700000900) st0 in
  let st' := step true 9100 (EvLocationResponse "bob" 1 None true) st in
  isRateLimited 9100 st' = true
  /\ posted st' = [("carol", 3%nat); ("bob", 1%nat)].
Proof.
  set (st0 := fst (getLocation 5100 "carol"
                     (fst (getLocation 5000 "bob" initialState)))).
  set (st := step true 9000 (EvRateLimitInfo 1700000900) st0).
  assert (Hr : reachable st).
  { exact (reachable_step true 9000 (EvRateLimitInfo 1700000900) _
             (reachable_step true 5100 (EvGetLocation "carol") _
                (reachable_step true 5000 (EvGetLocation "bob") initialState
                   reachable_init))). }
  assert (Hd : drain st = Awaiting {| screenName := "bob"; promise := 0 |} 1)
    by (vm_compute; reflexivity).
  assert (Hq : requestQueue st = [{| screenName := "carol"; promise := 2 |}])
    by (vm_compute; reflexivity).
  pose proof (drain_goes_on_after_a_response true 9100 st _ _ _ _ None true
                Hr Hd Hq) as H.
  cbv zeta in H.
  assert (Hpace : (9100 - lastRequestTime st <? MIN_REQUEST_INTERVAL) = false)
    by (vm_compute; reflexivity).
  rewrite Hpace in H. destruct H as [Hsent _].
  split; [vm_compute; reflexivity | exact Hsent].
Defined.

(** ** The drain never stalls *)

Lemma Live_mono (st st' : State) :
  isProcessingQueue st' = isProcessingQueue st ->
  drain st' = drain st ->
  (forall x, x ∈ timers st -> x ∈ timers st') ->
  Live st -> Live st'.
Proof.
  intros Hp Hd Ht [H1 H2]. unfold Live. rewrite Hp, Hd.
  split; [done |]. intros Hs. destruct (H2 Hs) as [d Hin]. eauto.
Qed.

Lemma Live_drainLoop (now : Z) (st : State) : Live (drainLoop now st).
Proof.
  unfold drainLoop.
  destruct (negb (length (requestQueue st) =? 0)%nat
            && (activeRequests st <? MAX_CONCURRENT_REQUESTS)) eqn:Hcond.
  - destruct (now - lastRequestTime st <? MIN_REQUEST_INTERVAL).
    + split; st_simpl; [done |]. intros _. eexists.
      apply elem_of_app. right. apply list_elem_of_here.
    + unfold dispatchHead, makeLocationRequest.
      destruct (requestQueue st) as [| t rest]; [done |].
      split; st_simpl; done.
  - split; st_simpl; done.
Qed.

Lemma Live_resumeDrain (now : Z) (st : State) :
  Live st -> Live (resumeDrain now st).
Proof.
  intros H. unfold resumeDrain.
  destruct (drain st) as [| | t q]; [done | done |].
  destruct (requestPromises st !! q) as [[| loc | err]|]; try done;
    apply Live_drainLoop.
Qed.

Lemma Live_processRequestQueue (now : Z) (st : State) :
  Live st -> Live (processRequestQueue now st).
Proof.
  intros H. unfold processRequestQueue.
  destruct (isProcessingQueue st || (length (requestQueue st) =? 0)%nat);
    [done |].
  destruct (isRateLimited now st); [| apply Live_drainLoop].
  unfold rejectQueued.
  pose proof (rejectAll_frame (requestQueue st) st) as Hf. cbv zeta in Hf.
  destruct Hf as (_ & Hd & Hp & Ht & _).
  apply (Live_mono st); st_simpl; [done | done | | done].
  intros x Hx. apply elem_of_app. left. by rewrite Ht.
Qed.

Lemma cacheCheck_live (now : Z) (name : string) (st : State) :
  isProcessingQueue (fst (cacheCheck now name st)) = isProcessingQueue st
  /\ drain (fst (cacheCheck now name st)) = drain st
  /\ timers (fst (cacheCheck now name st)) = timers st.
Proof. unfold cacheCheck. repeat case_match; done. Qed.

Lemma saveCacheEntry_live (ctx : bool) (now : Z) (username : string)
    (loc : option string) (st : State) :
  isProcessingQueue (saveCacheEntry ctx now username loc st)
  = isProcessingQueue st
  /\ drain (saveCacheEntry ctx now username loc st) = drain st
  /\ (forall x, x ∈ timers st ->
                x ∈ timers (saveCacheEntry ctx now username loc st)).
Proof.
  unfold saveCacheEntry. destruct ctx; [| done]. cbn [negb].
  match goal with |- context [if saveCacheTimeout ?s then _ else _] =>
    set (s2 := s);
    assert (Hs : isProcessingQueue s2 = isProcessingQueue st
                 /\ drain s2 = drain st /\ timers s2 = timers st)
  end.
  { subst s2. destruct loc as [l |]; [| done]. unfold updateStats.
    repeat case_match; done. }
  destruct Hs as (Hp & Hd & Ht). clearbody s2.
  case_match; st_simpl; rewrite Hp, Hd, Ht; repeat split; try done.
  intros x Hx. apply elem_of_app. by left.
Qed.

Lemma loadCache_live (ctx : bool) (now : Z)
    (cached : option (list (string * PersistedEntry))) (st : State) :
  isProcessingQueue (loadCache ctx now cached st) = isProcessingQueue st
  /\ drain (loadCache ctx now cached st) = drain st
  /\ timers (loadCache ctx now cached st) = timers st.
Proof.
  unfold loadCache. destruct ctx; [| done]. cbn [negb].
  destruct cached as [entries |]; [| done].
  revert st. induction entries as [| [k d] entries IH]; intros st; [done |].
  cbn [fold_left]. destruct (IH (loadEntry now st (k, d))) as (-> & -> & ->).
  unfold loadEntry. repeat case_match; done.
Qed.

Lemma Live_drop_timer (i : nat) (tm : Timer) (st : State) :
  timers st !! i = Some tm ->
  (forall d, tm <> TWake d) ->
  Live st -> Live (with_timers (delete i (timers st)) st).
Proof.
  intros Hi Hne [H1 H2]. split; st_simpl; [done |].
  intros Hs. destruct (H2 Hs) as [d Hin]. exists d.
  apply (elem_of_delete_ne _ i _ tm); [done | done |]. apply not_eq_sym, Hne.
Qed.

Lemma Live_step (ctx : bool) (now : Z) (ev : Event) (st : State) :
  Inv st -> Live st -> Live (step ctx now ev st).
Proof.
  intros HInv H.
  destruct ev as [name | resetTime | name q loc limited | i | name loc | |];
    cbn [step].
  - unfold getLocation.
    pose proof (cacheCheck_live now name st) as (Hp & Hd & Ht).
    destruct (cacheCheck now name st) as [st1 hit]. cbn [fst] in *.
    assert (H1 : Live st1).
    { apply (Live_mono st); [done | done | by rewrite Ht | done]. }
    destruct hit; [done |].
    destruct (pendingLocationRequests st1 !! name); [done |].
    destruct (MAX_QUEUE_SIZE <=? length (requestQueue st1))%nat; [done |].
    unfold enqueueRequest. cbn [fst].
    match goal with |- context [processRequestQueue now ?s] =>
      pose proof (Live_processRequestQueue now s) as H3;
      apply (Live_mono (processRequestQueue now s)); st_simpl;
        [done | done | done |]
    end.
    apply H3. by apply (Live_mono st1).
  - by apply (Live_mono st).
  - unfold onLocationResponse.
    destruct (messageHandlers st !! q) as [name' |]; [| done].
    destruct (String.eqb name' name); [| done].
    apply Live_resumeDrain.
    destruct limited; cbn [negb]; [by apply (Live_mono st) |].
    set (st1 := with_messageHandlers (delete q (messageHandlers st)) st).
    destruct (saveCacheEntry_live ctx now name (orNull loc) st1)
      as (Hp & Hd & Ht).
    apply (Live_mono st); st_simpl; done.
  - unfold fireTimer. destruct (timers st !! i) as [tm |] eqn:Hi; [| done].
    destruct tm as [d | d | d requestId name | d].
    + apply Live_processRequestQueue.
      by apply (Live_drop_timer i (TProcessQueue d)).
    + unfold onWake. st_simpl. destruct (drain st) eqn:Hd.
      * destruct H as [H1 H2]. split; st_simpl; [done |]. by rewrite Hd.
      * unfold dispatchHead, makeLocationRequest. st_simpl.
        destruct (requestQueue st) as [| t rest] eqn:Hq.
        -- by destruct (inv_sleep_queue st HInv Hd).
        -- split; st_simpl; done.
      * destruct H as [H1 H2]. split; st_simpl; [done |]. by rewrite Hd.
    + unfold onRequestTimeout. apply Live_resumeDrain.
      apply (Live_mono (with_timers (delete i (timers st)) st)); st_simpl;
        [done | done | done |].
      by apply (Live_drop_timer i (TRequestTimeout d requestId name)).
    + by apply (Live_drop_timer i (TSaveCache d)).
  - apply (Live_mono st); try done; unfold updateStats;
      repeat case_match; done.
  - by apply (Live_mono st).
  - by apply (Live_mono st).
Qed.

Lemma reachable_Live (st : State) : reachable st -> Live st.
Proof.
  induction 1 as [| ctx now cached | ctx now ev st Hr IH].
  - split; cbn; done.
  - destruct (loadCache_live ctx now cached initialState) as (Hp & Hd & Ht).
    apply (Live_mono initialState); [done | done | by rewrite Ht |].
    split; cbn; done.
  - apply Live_step; [by apply reachable_Inv | done].
Qed.

(** X16. A drain in progress never stalls. In every reachable state
    [isProcessingQueue] is set exactly while the drain is suspended, and a
    suspended drain always has a scheduled timer that will resume it: either
    it sleeps out the request interval, the queue is not empty and its
    wake-up timer is scheduled, or it awaits a request that is still waiting
    and whose [REQUEST_TIMEOUT] timer is scheduled. *)
Theorem drain_never_stalls (st : State) (Hr : reachable st) :
  (isProcessingQueue st = true <-> drain st <> Idle)
  /\ (drain st = Sleeping ->
      requestQueue st <> [] /\ exists d, TWake d ∈ timers st)
  /\ (forall t q,
        drain st = Awaiting t q ->
        requestPromises st !! q = Some Pending
        /\ exists name, TRequestTimeout REQUEST_TIMEOUT q name ∈ timers st).
Proof.
  pose proof (reachable_Inv st Hr) as HInv.
  pose proof (reachable_InFlight st Hr) as Hfl.
  destruct (reachable_Live st Hr) as [H1 H2].
  split; [split; [done | apply (inv_drain_flag st HInv)] |].
  split.
  - intros Hs. split; [by apply (inv_sleep_queue st HInv) | by apply H2].
  - intros t q Hd. destruct (flight_awaited st Hfl t q Hd) as [Hq _].
    split; [done |]. by apply (inv_pending_timer st HInv).
Qed.

Lemma drain_never_stalls_witness :
  let st := fst (getLocation 5100 "carol"
                   (fst (getLocation 5000 "bob" initialState))) in
  isProcessingQueue st = true
  /\ exists name, TRequestTimeout REQUEST_TIMEOUT 1 name ∈ timers st.
Proof.
  set (st := fst (getLocation 5100 "carol"
                    (fst (getLocation 5000 "bob" initialState)))).
  assert (Hr : reachable st).
  { exact (reachable_step true 5100 (EvGetLocation "carol") _
             (reachable_step true 5000 (EvGetLocation "bob") initialState
                reachable_init)). }
  destruct (drain_never_stalls st Hr) as (Hflag & _ & Hwait).
  split.
  - apply Hflag. vm_compute. discriminate.
  - apply (Hwait {| screenName := "bob"; promise := 0 |} 1%nat).
    vm_compute. reflexivity.
Defined.

(** ** countryFlags.js: the lookup table *)




